(** * Prefix exploration of an autocomplete endpoint

    A shallow embedding of [app.py] (threaded breadth-first explorer with a
    sliding-window rate limiter), of its thread pool, and of
    [autocomplete_extractor.py] (the asynchronous explorer of the three
    endpoint versions), followed by the properties of the exploration
    engine: the frontier, the retries, the request counters and the rate of
    the requests; then the rate limiter on its own, the names collected, the
    end of the exploration, the records and the requests of the
    asynchronous explorer, and the files written.

    Conventions of the embedding.
    - A reading of [time.time()] is an exact number of milliseconds ([Z]);
      a duration given in seconds in the source is converted by [seconds].
      Sleeping and waiting for the network are the only things that take
      time.
    - The endpoint is an oracle: it tells, for each attempt, what the HTTP
      library hands back and after how long. The value under ["results"]
      of a body may be any JSON value.
    - The recursion of the asynchronous client is bounded by the recursion
      limit of the interpreter, a parameter of the model.
    - Logging is left out. The files that the scripts write are modelled by
      what is written to them; opening and writing do not fail. *)

From stdpp Require Import gmap strings list sorting pretty.
From Stdlib Require Import Ascii ZArith Lia.

(** ** Shared vocabulary: JSON bodies of the endpoint *)

(** A JSON value, as far as the scripts can tell values apart: they only
    iterate over the value under ["results"]. The items of a list and the
    keys of an object are taken to be strings. *)
Inductive json :=
  | JNull
  | JBool (b : bool)
  | JNumber (n : Z)
  | JString (s : string)
  | JList (items : list string)
  | JObject (keys : list string).

(** What [set.update(value)] adds to a set: the items of a list, the keys of
    an object, the characters of a string; [None] is the [TypeError] that
    it raises on a value that cannot be iterated. *)
Definition iterate (value : json) : option (list string) :=
  match value with
  | JList items => Some items
  | JObject keys => Some keys
  | JString s => Some ((λ c, String c EmptyString) <$> String.list_ascii_of_string s)
  | JNull | JBool _ | JNumber _ => None
  end.

(** The body of a 200 answer, as far as the scripts look at it: a JSON object
    with the value under its ["results"] key, when the key is present, and
    the integer under its ["count"] key, when present (any other value there
    is like an integer other than 10). *)
Record payload := mkPayload {
  results : option json;
  count : option Z
}.

(** The names that the scripts take from a body: those that iterating over
    the value under ["results"] gives. *)
Definition listed (response : payload) : option (list string) :=
  match results response with
  | None => None
  | Some value => iterate value
  end.

Inductive body :=
  | Json (p : payload)
  | Malformed.

(** [string.ascii_lowercase], [string.digits] and the special characters of
    the third endpoint version. *)
Definition ascii_lowercase : string := "abcdefghijklmnopqrstuvwxyz".
Definition digits : string := "0123456789".
Definition specials : string := "+- .".

Definition chars_of (s : string) : list ascii := String.list_ascii_of_string s.

(** [prefix + char] *)
Definition add_char (prefix : string) (c : ascii) : string :=
  prefix +:+ String c EmptyString.

(** ** app.py *)
Module App.

Definition RATE_LIMIT : nat := 100.
Definition MAX_RETRIES : nat := 5.
Definition MAX_WORKERS : nat := 20.

Definition seconds (n : Z) : Z := (1000 * n)%Z.

(** *** class RateLimiter *)

Record RateLimiter := mkRateLimiter {
  limit : nat;
  window : Z;
  timestamps : list Z
}.

(** [RateLimiter(limit, window)], the window being given in seconds. *)
Definition RateLimiter_init (limit : nat) (window_s : Z) : RateLimiter :=
  {| limit := limit; window := seconds window_s; timestamps := [] |}.

(** [while self.timestamps and self.timestamps[0] < bound: popleft()] *)
Fixpoint popleft_older (bound : Z) (ts : list Z) : list Z :=
  match ts with
  | [] => []
  | t :: ts' => if (t <? bound)%Z then popleft_older bound ts' else ts
  end.

Definition add_request (now : Z) (rl : RateLimiter) : RateLimiter :=
  {| limit := limit rl;
     window := window rl;
     timestamps := popleft_older (now - window rl) (timestamps rl) ++ [now] |}.

(** The time [wait_if_needed] sleeps when called at [now]; [None] is the
    [IndexError] of [self.timestamps[0]] on an empty deque, which needs
    [limit = 0]. *)
Definition wait_if_needed (now : Z) (rl : RateLimiter) : option Z :=
  if length (timestamps rl) <? limit rl then Some 0%Z
  else match timestamps rl with
       | [] => None
       | oldest :: _ => Some (Z.max 0 (window rl - (now - oldest)))
       end.

(** *** The world a caller of the client acts on *)

Inductive event :=
  | EvThrottle (slept : Z)
  | EvSend (query : string) (now : Z)
  | EvRecord (now : Z)
  | EvSleep (dur : Z).

Record world := mkWorld {
  clock : Z;
  limiter : RateLimiter;
  trace : list event
}.

Definition emit (e : event) (w : world) : world :=
  {| clock := clock w; limiter := limiter w; trace := trace w ++ [e] |}.

Definition advance (d : Z) (w : world) : world :=
  {| clock := (clock w + d)%Z; limiter := limiter w; trace := trace w |}.

(** [time.sleep(d)] *)
Definition sleep (d : Z) (w : world) : world := emit (EvSleep d) (advance d w).

(** [rate_limiter.wait_if_needed()] *)
Definition throttle (w : world) : option world :=
  match wait_if_needed (clock w) (limiter w) with
  | None => None
  | Some d => Some (emit (EvThrottle d) (advance d w))
  end.

(** [rate_limiter.add_request()] *)
Definition record (w : world) : world :=
  emit (EvRecord (clock w))
    {| clock := clock w;
       limiter := add_request (clock w) (limiter w);
       trace := trace w |}.

(** What [requests.get] does on one attempt: it hands back a response after
    [latency] milliseconds, or raises a [requests.RequestException] after
    that time. *)
Inductive reply :=
  | Response (latency : Z) (status : Z) (b : body)
  | RequestException (latency : Z).

Definition latency_of (r : reply) : Z :=
  match r with
  | Response l _ _ => l
  | RequestException l => l
  end.

(** The request leaves at the current time; control comes back after the
    latency. *)
Definition get (query : string) (r : reply) (w : world) : world :=
  advance (latency_of r) (emit (EvSend query (clock w)) w).

(** What a call of [make_api_request] gives its caller: the value it
    returns ([None] is Python's [None]), or an exception that escapes. *)
Inductive fetched :=
  | Returned (r : option payload)
  | Raised.

Section Client.

(** Whether the error of [response.json()] on an unparseable body is a
    [requests.RequestException] (it is from requests 2.27 on) and is thus
    caught by the handler of the attempt; otherwise it escapes. *)
Variable json_error_caught : bool.

(** [if attempt < MAX_RETRIES - 1: time.sleep(2 ** attempt)] *)
Definition backoff (attempt : nat) (w : world) : world :=
  if attempt <? MAX_RETRIES - 1
  then sleep (seconds (2 ^ Z.of_nat attempt)) w
  else w.

(** The body of [for attempt in range(MAX_RETRIES)], over the attempts still
    to make; [net attempt] is what the network does on that attempt. *)
Fixpoint attempts (query : string) (net : nat → reply) (todo : list nat)
    (w : world) : fetched * world :=
  match todo with
  | [] => (Returned None, w)
  | attempt :: todo' =>
    match throttle w with
    | None => (Raised, w)
    | Some w1 =>
      match net attempt with
      | RequestException _ =>
        attempts query net todo' (backoff attempt (get query (net attempt) w1))
      | Response _ status b =>
        let w2 := record (get query (net attempt) w1) in
        if (status =? 200)%Z then
          match b with
          | Json p => (Returned (Some p), w2)
          | Malformed =>
            if json_error_caught
            then attempts query net todo' (backoff attempt w2)
            else (Raised, w2)
          end
        else if (status =? 429)%Z then
          attempts query net todo'
            (sleep (seconds (60 * (Z.of_nat attempt + 1))) w2)
        else
          attempts query net todo' (backoff attempt w2)
      end
    end
  end.

Definition make_api_request (query : string) (net : nat → reply)
    (w : world) : fetched * world :=
  attempts query net (seq 0 MAX_RETRIES) w.

End Client.

(** *** bfs_explore *)

(** The variables of [bfs_explore], and three pieces of instrumentation
    that the script does not keep: the number of iterations of the [while]
    loop made so far, the prefixes handed to the executor and the prefixes
    put on the queue, both in order. *)
Record state := mkState {
  queue : list string;
  all_names : gset string;
  processed : gset string;
  request_count : nat;
  shared : world;
  iteration : nat;
  submitted : list string;
  enqueued : list string
}.

(** [deque(string.ascii_lowercase)] *)
Definition seeds : list string :=
  (λ c, String c EmptyString) <$> chars_of ascii_lowercase.

Definition initial : state :=
  {| queue := seeds;
     all_names := ∅;
     processed := ∅;
     request_count := 0;
     shared := {| clock := 0; limiter := RateLimiter_init RATE_LIMIT 60;
                  trace := [] |};
     iteration := 0;
     submitted := [];
     enqueued := seeds |}.

(** [for _ in range(n): if queue: prefix = queue.popleft(); if prefix not in
    processed: current_batch.append(prefix); processed.add(prefix)] *)
Fixpoint take_batch (n : nat) (q : list string) (seen : gset string)
    (batch : list string) : list string * gset string * list string :=
  match n with
  | 0 => (q, seen, batch)
  | S n' =>
    match q with
    | [] => take_batch n' q seen batch
    | prefix :: q' =>
      if decide (prefix ∈ seen)
      then take_batch n' q' seen batch
      else take_batch n' q' (seen ∪ {[prefix]}) (batch ++ [prefix])
    end
  end.

(** [for char in string.ascii_lowercase: new_prefix = prefix + char; if
    new_prefix not in processed: queue.append(new_prefix)]: the prefixes
    appended. *)
Definition expansion (prefix : string) (seen : gset string) : list string :=
  filter (λ new_prefix, new_prefix ∉ seen)
         (add_char prefix <$> chars_of ascii_lowercase).

(** The body of the [for future in as_completed(...)] loop, with its
    [try ... except Exception]. *)
Definition handle (st : state) (done : string * fetched) : state :=
  match done.2 with
  | Raised => st
  | Returned None => st
  | Returned (Some response) =>
    match results response with
    | None => st
    | Some value =>
      match iterate value with
      | None => st
      | Some names =>
        let new :=
          if decide (default 0%Z (count response) = 10%Z)
          then expansion done.1 (processed st) else [] in
        {| queue := queue st ++ new;
           all_names := all_names st ∪ list_to_set names;
           processed := processed st;
           request_count := request_count st;
           shared := shared st;
           iteration := iteration st;
           submitted := submitted st;
           enqueued := enqueued st ++ new |}
      end
    end
  end.

Section Explore.

Variable json_error_caught : bool.

(** What the network does on each attempt for a prefix submitted in a given
    iteration of the loop. *)
Variable endpoint : nat → string → nat → reply.

(** The order in which [concurrent.futures.as_completed] yields the futures
    of an iteration. *)
Variable as_completed :
  nat → list (string * fetched) → list (string * fetched).

(** [executor.submit(make_api_request, prefix, rate_limiter)] for every
    prefix of the batch. The calls act on the shared limiter one after the
    other here. How the pool interleaves them bears on the clock, the
    limiter and the trace; it bears on what a call returns only where two
    threads race on the unlocked deque of the limiter, which is left out
    here. *)
Fixpoint submit_all (it : nat) (batch : list string) (w : world)
    : list (string * fetched) * world :=
  match batch with
  | [] => ([], w)
  | prefix :: batch' =>
    let '(r, w1) := make_api_request json_error_caught prefix
                      (endpoint it prefix) w in
    let '(futures, w2) := submit_all it batch' w1 in
    ((prefix, r) :: futures, w2)
  end.

(** One iteration of [while queue]. *)
Definition bfs_iteration (st : state) : state :=
  let '(q, seen, current_batch) :=
    take_batch (min MAX_WORKERS (length (queue st))) (queue st)
               (processed st) [] in
  match current_batch with
  | [] =>
    {| queue := q; all_names := all_names st; processed := seen;
       request_count := request_count st; shared := shared st;
       iteration := S (iteration st);
       submitted := submitted st; enqueued := enqueued st |}
  | _ =>
    let '(futures, w) := submit_all (iteration st) current_batch (shared st) in
    foldl handle
      {| queue := q; all_names := all_names st; processed := seen;
         request_count := request_count st + length current_batch;
         shared := w;
         iteration := S (iteration st);
         submitted := submitted st ++ current_batch;
         enqueued := enqueued st |}
      (as_completed (iteration st) futures)
  end.

(** The state after at most [n] iterations of the loop. *)
Fixpoint bfs_run (n : nat) : state :=
  match n with
  | 0 => initial
  | S n' =>
    let st := bfs_run n' in
    match queue st with
    | [] => st
    | _ => bfs_iteration st
    end
  end.

(** The batch that an iteration takes from a queue whose prefixes are all
    new, its futures, and the state once the batch has been handed to the
    executor. *)
Definition batch_of (st : state) : list string :=
  take MAX_WORKERS (queue st).

Definition futures_of (st : state) : list (string * fetched) :=
  (submit_all (iteration st) (batch_of st) (shared st)).1.

Definition after_submit (st : state) : state :=
  {| queue := drop MAX_WORKERS (queue st);
     all_names := all_names st;
     processed := processed st ∪ list_to_set (batch_of st);
     request_count := request_count st + length (batch_of st);
     shared := (submit_all (iteration st) (batch_of st) (shared st)).2;
     iteration := S (iteration st);
     submitted := submitted st ++ batch_of st;
     enqueued := enqueued st |}.

(** [bfs_explore()]: the loop runs until the queue is empty; [None] when it
    has not emptied after [fuel] iterations. *)
Definition bfs_explore (fuel : nat) : option (gset string * nat) :=
  let st := bfs_run fuel in
  match queue st with
  | [] => Some (all_names st, request_count st)
  | _ => None
  end.

End Explore.

End App.

(** ** The thread pool of app.py

    [ThreadPoolExecutor] runs the calls of [make_api_request] of a batch at
    the same time. This is a discrete-event simulation of them: a worker
    stands at one of the points of [make_api_request] where it touches the
    shared rate limiter or gives up the processor (before [wait_if_needed],
    before [requests.get], on the reply) and is ready again at a known time;
    the worker that is ready first makes the next step, the first of the
    batch among equals, and a step on the limiter is not interrupted. This
    is one of the schedules that the threads can follow, not all of them:
    it serves to exhibit runs of the pool, and says nothing of what holds
    of every run. *)
Module Pool.
Import App.

(** The points of [make_api_request] at which a worker touches the limiter
    or gives up the processor. *)
Inductive point :=
  | AtThrottle (attempt : nat)
  | AtGet (attempt : nat)
  | AtReply (attempt : nat)
  | Finished (r : fetched).

Record worker := mkWorker {
  query : string;
  net : nat → reply;
  at_point : point;
  ready : Z
}.

Definition move (wk : worker) (pt : point) (t : Z) : worker :=
  {| query := query wk; net := net wk; at_point := pt; ready := t |}.

(** Where the round [attempt] of [for attempt in range(MAX_RETRIES)]
    starts, or the end of the loop. *)
Definition enter (attempt : nat) : point :=
  if attempt <? MAX_RETRIES then AtThrottle attempt
  else Finished (Returned None).

(** The world as the worker sees it when it wakes up at time [t]. *)
Definition at_time (t : Z) (w : world) : world :=
  {| clock := t; limiter := limiter w; trace := trace w |}.

Section Workers.

Variable json_error_caught : bool.

(** One step of a worker, made at the time it is ready. *)
Definition step (wk : worker) (w : world) : worker * world :=
  let w0 := at_time (ready wk) w in
  match at_point wk with
  | AtThrottle a =>
    match throttle w0 with
    | None => (move wk (Finished Raised) (ready wk), w0)
    | Some w1 => (move wk (AtGet a) (clock w1), w1)
    end
  | AtGet a =>
    let w1 := get (query wk) (net wk a) w0 in
    (move wk (AtReply a) (clock w1), w1)
  | AtReply a =>
    match net wk a with
    | RequestException _ =>
      let w1 := backoff a w0 in (move wk (enter (S a)) (clock w1), w1)
    | Response _ status b =>
      let w2 := record w0 in
      if (status =? 200)%Z then
        match b with
        | Json p => (move wk (Finished (Returned (Some p))) (clock w2), w2)
        | Malformed =>
          if json_error_caught
          then let w3 := backoff a w2 in (move wk (enter (S a)) (clock w3), w3)
          else (move wk (Finished Raised) (clock w2), w2)
        end
      else if (status =? 429)%Z then
        let w3 := sleep (seconds (60 * (Z.of_nat a + 1))) w2 in
        (move wk (enter (S a)) (clock w3), w3)
      else
        let w3 := backoff a w2 in (move wk (enter (S a)) (clock w3), w3)
    end
  | Finished _ => (wk, w)
  end.

Definition runnable (wk : worker) : bool :=
  match at_point wk with
  | Finished _ => false
  | _ => true
  end.

(** The worker that is ready first, the first of the list among equals. *)
Fixpoint earliest (i : nat) (ws : list worker) (best : option (nat * Z))
    : option (nat * Z) :=
  match ws with
  | [] => best
  | wk :: ws' =>
    earliest (S i) ws'
      (if runnable wk then
         match best with
         | None => Some (i, ready wk)
         | Some (_, t) => if (ready wk <? t)%Z then Some (i, ready wk) else best
         end
       else best)
  end.

Fixpoint run (fuel : nat) (ws : list worker) (w : world)
    : list worker * world :=
  match fuel with
  | 0 => (ws, w)
  | S fuel' =>
    match earliest 0 ws None with
    | None => (ws, w)
    | Some (i, _) =>
      match ws !! i with
      | None => (ws, w)
      | Some wk =>
        let '(wk', w') := step wk w in
        run fuel' (<[i := wk']> ws)
          {| clock := Z.max (clock w) (clock w');
             limiter := limiter w'; trace := trace w' |}
      end
    end
  end.

Definition future (wk : worker) : option (string * fetched) :=
  match at_point wk with
  | Finished r => Some (query wk, r)
  | _ => None
  end.

(** The batch run by the pool: every worker starts at the time of
    submission; a worker makes at most three steps for each attempt. *)
Definition submit_all (endpoint : nat → string → nat → reply) (it : nat)
    (batch : list string) (w : world) : list (string * fetched) * world :=
  let ws := (λ prefix, mkWorker prefix (endpoint it prefix) (enter 0)
                         (clock w)) <$> batch in
  let '(ws', w') := run (3 * MAX_RETRIES * length batch) ws w in
  (omap future ws', w').

End Workers.

End Pool.

(** ** The order of strings and the text files of app.py

    A text file is the list of the strings written to it, in order. Python
    compares strings by code point, which on the bytes of UTF-8 is the
    order of the bytes. On a set of strings [sorted] has one possible
    result, whatever the algorithm: the elements in ascending order. *)
Module Files.

Definition str_le (s1 s2 : string) : Prop := String.leb s1 s2 = true.

#[global] Instance str_le_dec s1 s2 : Decision (str_le s1 s2).
Proof. unfold str_le. apply _. Defined.

(** [sorted(names)] *)
Definition sorted (names : gset string) : list string :=
  merge_sort str_le (elements names).

Definition newline : string := String "010" EmptyString.

(** [f"{name}\n"] *)
Definition line (name : string) : string := name +:+ newline.

(** app.py, [save_checkpoint(names)], and the loop of the main block that
    writes the result file: [for name in sorted(names):
    f.write(f"{name}\n")]. *)
Definition save_checkpoint (names : gset string) : list string :=
  line <$> sorted names.

End Files.

(** ** autocomplete_extractor.py

    The file system and the HTTP session work: opening, writing and
    closing do not fail. *)
Module Extractor.

Definition seconds (n : Z) : Z := (1000 * n)%Z.

(** What the explorer puts in a file: the object that [save_progress]
    dumps, the object that [main] dumps (the counters, and for each of the
    three versions the number of names and the names), or the strings
    written to a text file. *)
Inductive file :=
  | Progress (requests_made names_found : nat) (names : list string)
  | Results (requests : gmap string nat) (names_found : list (string * nat))
            (names : list (string * list string))
  | Text (written : list string).

(** The fields of an [AutocompleteExplorer], the clock of the event loop,
    the requests sent so far (time, version, query), in order, and the
    files written, by name. *)
Record explorer := mkExplorer {
  v1_names : gset string;
  v2_names : gset string;
  v3_names : gset string;
  requests_count : gmap string nat;
  now : Z;
  sent : list (Z * string * string);
  files : gmap string file
}.

(** [AutocompleteExplorer(base_url)] *)
Definition init : explorer :=
  {| v1_names := ∅; v2_names := ∅; v3_names := ∅;
     requests_count := <["v1" := 0]> (<["v2" := 0]> (<["v3" := 0]> ∅));
     now := 0; sent := []; files := ∅ |}.

(** What [self.session.get] does for one request: a response after
    [latency] milliseconds, or an exception. *)
Inductive reply :=
  | Response (latency : Z) (status : Z) (b : body)
  | ClientError (latency : Z).

Definition latency_of (r : reply) : Z :=
  match r with
  | Response l _ _ => l
  | ClientError l => l
  end.

(** How a coroutine ends: it returns a value, or an exception escapes from
    it; each time with the explorer as it is by then. *)
Inductive result (A : Type) :=
  | Return (a : A) (ex : explorer)
  | Raise (ex : explorer).
Arguments Return {A} a ex.
Arguments Raise {A} ex.

Definition state_of {A} (m : result A) : explorer :=
  match m with
  | Return _ ex => ex
  | Raise ex => ex
  end.

Definition bind {A B} (m : result A) (k : A → explorer → result B)
    : result B :=
  match m with
  | Return a ex => k a ex
  | Raise ex => Raise ex
  end.

(** [self.requests_count[version] += 1]; [None] is the [KeyError]. *)
Definition count_request (version : string) (ex : explorer)
    : option explorer :=
  match requests_count ex !! version with
  | None => None
  | Some n =>
    Some {| v1_names := v1_names ex; v2_names := v2_names ex;
            v3_names := v3_names ex;
            requests_count := <[version := S n]> (requests_count ex);
            now := now ex; sent := sent ex; files := files ex |}
  end.

(** The request leaves at the current time and control comes back after the
    latency of the reply. *)
Definition get (version query : string) (r : reply) (ex : explorer)
    : explorer :=
  {| v1_names := v1_names ex; v2_names := v2_names ex;
     v3_names := v3_names ex; requests_count := requests_count ex;
     now := (now ex + latency_of r)%Z;
     sent := sent ex ++ [(now ex, version, query)];
     files := files ex |}.

(** [await asyncio.sleep(d)] *)
Definition sleep (d : Z) (ex : explorer) : explorer :=
  {| v1_names := v1_names ex; v2_names := v2_names ex;
     v3_names := v3_names ex; requests_count := requests_count ex;
     now := (now ex + d)%Z; sent := sent ex; files := files ex |}.

(** [with open(name, 'w') as f: ...], the file holding [f] afterwards. *)
Definition write (name : string) (f : file) (ex : explorer) : explorer :=
  {| v1_names := v1_names ex; v2_names := v2_names ex;
     v3_names := v3_names ex; requests_count := requests_count ex;
     now := now ex; sent := sent ex;
     files := <[name := f]> (files ex) |}.

(** [self.<version>_names.update(results)]; [None] is the [TypeError] on a
    value that cannot be iterated. *)
Definition update_names (version : string) (value : json)
    (ex : explorer) : option explorer :=
  match iterate value with
  | None => None
  | Some names =>
    Some {| v1_names := if decide (version = "v1")
                        then v1_names ex ∪ list_to_set names else v1_names ex;
            v2_names := if decide (version = "v2")
                        then v2_names ex ∪ list_to_set names else v2_names ex;
            v3_names := if decide (version = "v3")
                        then v3_names ex ∪ list_to_set names else v3_names ex;
            requests_count := requests_count ex;
            now := now ex; sent := sent ex; files := files ex |}
  end.

(** [getattr(self, f'{version}_names')]; [None] is the [AttributeError]. *)
Definition names_set (version : string) (ex : explorer)
    : option (gset string) :=
  if decide (version = "v1") then Some (v1_names ex)
  else if decide (version = "v2") then Some (v2_names ex)
  else if decide (version = "v3") then Some (v3_names ex)
  else None.

(** [save_progress(version)]; [None] is an exception, which needs a
    version other than the three that the explorations pass. *)
Definition save_progress (version : string) (ex : explorer)
    : option explorer :=
  match names_set version ex, requests_count ex !! version with
  | Some names, Some n =>
    Some (write (version +:+ "_results.json")
            (Progress n (size names) (Files.sorted names)) ex)
  | _, _ => None
  end.

(** [write_all_names_to_file]: the strings written. *)
Definition write_all_names_to_file (ex : explorer) : list string :=
  let all_names := Files.sorted (v1_names ex ∪ v2_names ex ∪ v3_names ex) in
  [ Files.line "=== Autocomplete API Exploration Results ===";
    Files.line ("Total unique names found: " +:+ pretty (length all_names));
    Files.line ("Names from v1: " +:+ pretty (size (v1_names ex)));
    Files.line ("Names from v2: " +:+ pretty (size (v2_names ex)));
    Files.line ("Names from v3: " +:+ pretty (size (v3_names ex)));
    Files.newline +:+ Files.line (Files.line "=== All Unique Names ===") ]
  ++ (Files.line <$> all_names).

(** A [for x in xs:] loop whose body may end the coroutine. *)
Fixpoint for_each {A} (xs : list A) (body : A → explorer → result unit)
    (ex : explorer) : result unit :=
  match xs with
  | [] => Return tt ex
  | x :: xs' => bind (body x ex) (λ _, for_each xs' body)
  end.

Section Explorer.

(** The reply to the [i]-th request that the explorer sends. *)
Variable server : nat → reply.

(** [make_request]. It calls itself on 429, and [fuel] is the number of
    nested calls that the recursion limit of the interpreter leaves room
    for: the call after those does not start, it raises [RecursionError]
    inside the [try] of the call that made it, whose [except Exception]
    returns [[]]. A call that starts is taken to have room for its own
    request. The counter is updated before the [try], and the value under
    ["results"] is returned as it is. *)
Fixpoint make_request (fuel : nat) (version query : string) (ex : explorer)
    : result json :=
  match fuel with
  | 0 => Raise ex
  | S fuel' =>
    match count_request version ex with
    | None => Raise ex
    | Some ex1 =>
      let r := server (length (sent ex1)) in
      let ex2 := get version query r ex1 in
      match r with
      | ClientError _ => Return (JList []) ex2
      | Response _ status b =>
        if (status =? 429)%Z then
          match make_request fuel' version query (sleep (seconds 61) ex2) with
          | Raise ex3 => Return (JList []) ex3
          | r => r
          end
        else if (status =? 200)%Z then
          match b with
          | Json data => Return (default (JList []) (results data)) ex2
          | Malformed => Return (JList []) ex2
          end
        else Return (JList []) ex2
      end
    end
  end.

(** [results = await self.make_request(version, query);
    self.<version>_names.update(results); self.save_progress(version)];
    the two calls after [make_request] are outside any [try]. *)
Definition request_and_update (fuel : nat) (version query : string)
    (ex : explorer) : result unit :=
  bind (make_request fuel version query ex)
       (λ value ex1,
          match update_names version value ex1 with
          | None => Raise ex1
          | Some ex2 =>
            match save_progress version ex2 with
            | None => Raise ex2
            | Some ex3 => Return tt ex3
            end
          end).

Definition single (c : ascii) : string := String c EmptyString.
Definition pair (first second : ascii) : string :=
  single first +:+ single second.

Definition explore_v1 (fuel : nat) (ex : explorer) : result unit :=
  let letters := chars_of ascii_lowercase in
  bind (for_each letters
          (λ letter, request_and_update fuel "v1" (single letter)) ex)
    (λ _, for_each letters (λ first,
            for_each letters (λ second,
              request_and_update fuel "v1" (pair first second)))).

Definition explore_v2 (fuel : nat) (ex : explorer) : result unit :=
  let chars := chars_of (ascii_lowercase +:+ digits) in
  bind (for_each chars
          (λ char, request_and_update fuel "v2" (single char)) ex)
    (λ _, for_each chars (λ first,
            for_each chars (λ second,
              request_and_update fuel "v2" (pair first second)))).

Definition explore_v3 (fuel : nat) (ex : explorer) : result unit :=
  let chars := chars_of (ascii_lowercase +:+ digits +:+ specials) in
  bind (for_each chars
          (λ char, request_and_update fuel "v3" (single char)) ex)
    (λ _, for_each chars (λ first,
            for_each chars (λ second ex',
              if decide (first ∈ chars_of specials ∧
                         second ∈ chars_of specials)
              then Return tt ex'
              else request_and_update fuel "v3" (pair first second) ex'))).

(** [args.version in [v, 'all']] *)
Definition explored (version v : string) : bool :=
  bool_decide (version = v ∨ version = "all").

(** The two files that [main] writes once the explorations are over. *)
Definition write_results (version : string) (ex : explorer) : explorer :=
  let found v names := (v, if explored version v then size names else 0) in
  let names_of v names :=
    (v, if explored version v then Files.sorted names else []) in
  let ex1 :=
    write "exploration_results.json"
      (Results (requests_count ex)
         [found "v1" (v1_names ex); found "v2" (v2_names ex);
          found "v3" (v3_names ex)]
         [names_of "v1" (v1_names ex); names_of "v2" (v2_names ex);
          names_of "v3" (v3_names ex)]) ex in
  write "all_explored_names.txt" (Text (write_all_names_to_file ex1)) ex1.

(** The explorations that [main] runs for a value of [--version]; any other
    value is refused by the argument parser. *)
Definition explorations (fuel : nat) (version : string) : result unit :=
  if decide (version = "all") then
    bind (explore_v1 fuel init) (λ _ ex1,
    bind (explore_v2 fuel (sleep (seconds 5) ex1)) (λ _ ex2,
    explore_v3 fuel (sleep (seconds 5) ex2)))
  else if decide (version = "v1") then explore_v1 fuel init
  else if decide (version = "v2") then explore_v2 fuel init
  else if decide (version = "v3") then explore_v3 fuel init
  else Raise init.

(** [main()]: the explorations, then the two files. The session is closed
    in the [finally], whether the explorations return or raise. *)
Definition main (fuel : nat) (version : string) : result unit :=
  bind (explorations fuel version)
       (λ _ ex, Return tt (write_results version ex)).

End Explorer.

End Extractor.

(** ** Decidable equality of the data of the models *)

#[global] Instance json_eq_dec : EqDecision json.
Proof. solve_decision. Defined.
#[global] Instance payload_eq_dec : EqDecision payload.
Proof. solve_decision. Defined.
#[global] Instance body_eq_dec : EqDecision body.
Proof. solve_decision. Defined.
#[global] Instance reply_eq_dec : EqDecision App.reply.
Proof. solve_decision. Defined.
#[global] Instance fetched_eq_dec : EqDecision App.fetched.
Proof. solve_decision. Defined.
#[global] Instance event_eq_dec : EqDecision App.event.
Proof. solve_decision. Defined.
#[global] Instance extractor_reply_eq_dec : EqDecision Extractor.reply.
Proof. solve_decision. Defined.

(** ** Properties of app.py *)
Module AppProps.
Import App.

(** *** Vocabulary of the statements *)

(** How many times [x] occurs in [l]. *)
Definition occurrences (x : string) (l : list string) : nat :=
  length (filter (λ y, y = x) l).

(** The sleep of [if attempt < MAX_RETRIES - 1: time.sleep(2 ** attempt)],
    as an event. *)
Definition backoff_events (attempt : nat) : list event :=
  if attempt <? MAX_RETRIES - 1
  then [EvSleep (seconds (2 ^ Z.of_nat attempt))] else [].

(** The events that attempt [a] of a call for [q] leaves in the trace, for
    each kind of reply. *)
Inductive attempt_block (json_error_caught : bool) (q : string) (a : nat)
    : reply → list event → Prop :=
  | block_exception lat d t :
      attempt_block json_error_caught q a (RequestException lat)
        ([EvThrottle d; EvSend q t] ++ backoff_events a)
  | block_ok lat p d t :
      attempt_block json_error_caught q a (Response lat 200 (Json p))
        [EvThrottle d; EvSend q t; EvRecord (t + lat)]
  | block_malformed lat d t :
      attempt_block json_error_caught q a (Response lat 200 Malformed)
        ([EvThrottle d; EvSend q t; EvRecord (t + lat)]
           ++ if json_error_caught then backoff_events a else [])
  | block_429 lat b d t :
      attempt_block json_error_caught q a (Response lat 429 b)
        [EvThrottle d; EvSend q t; EvRecord (t + lat);
         EvSleep (seconds (60 * (Z.of_nat a + 1)))]
  | block_other lat status b d t :
      status ≠ 200%Z → status ≠ 429%Z →
      attempt_block json_error_caught q a (Response lat status b)
        ([EvThrottle d; EvSend q t; EvRecord (t + lat)] ++ backoff_events a).

(** Kinds of events, and the number of events of a kind in a trace. *)
Definition is_send (e : event) : bool :=
  match e with EvSend _ _ => true | _ => false end.
Definition is_record (e : event) : bool :=
  match e with EvRecord _ => true | _ => false end.
Definition is_sleep (e : event) : bool :=
  match e with EvSleep _ => true | _ => false end.
Definition count_events (f : event → bool) (tr : list event) : nat :=
  length (filter (λ e, f e) tr).

(** The claim as the specification words it: the timestamp is recorded
    right before the request leaves. *)
Definition recorded_before_send (tr : list event) : Prop :=
  ∀ i q t, tr !! i = Some (EvSend q t) →
    ∃ j t', i = S j ∧ tr !! j = Some (EvRecord t').

(** What an attempt does to the trace: throttle, send, then a record
    exactly when a response came back, then sleeps only. *)
Inductive attempt_shape (q : string) : reply → list event → Prop :=
  | shape_response lat status b d t rest :
      Forall (λ e, is_sleep e) rest →
      attempt_shape q (Response lat status b)
        (EvThrottle d :: EvSend q t :: EvRecord (t + lat) :: rest)
  | shape_exception lat d t rest :
      Forall (λ e, is_sleep e) rest →
      attempt_shape q (RequestException lat)
        (EvThrottle d :: EvSend q t :: rest).

(** An attempt that does not end the call. *)
Definition failing (json_error_caught : bool) (r : reply) : Prop :=
  match r with
  | RequestException _ => True
  | Response _ status b =>
    status ≠ 200%Z ∨ (b = Malformed ∧ json_error_caught = true)
  end.

(** The invariant of the frontier while the futures of the prefixes [todo]
    are still to be handled: the queue is what has been put on it and not
    yet submitted, nothing was put on it twice, [processed] holds the
    prefixes submitted, and an extension of a prefix is on record only once
    the future of that prefix has been handled. *)
Definition frontier_inv (st : state) (todo : list string) : Prop :=
  (enqueued st = submitted st ++ queue st) ∧
  NoDup (enqueued st) ∧
  processed st = list_to_set (submitted st) ∧
  ("" ∉ enqueued st) ∧
  NoDup todo ∧
  todo ⊆ submitted st ∧
  (∀ p c, p ≠ "" → add_char p c ∈ enqueued st → p ∈ submitted st ∧ p ∉ todo).

(** A sample run: the endpoint answers the prefix "z" with a full page,
    fails on "zz" with status 500 on every attempt, and answers every other
    prefix with one name; the futures of a batch complete in the order of
    submission. *)
Definition sample_endpoint (it : nat) (p : string) (a : nat) : reply :=
  if decide (p = "z")
  then Response 10 200 (Json (mkPayload (Some (JList ["zed"; "zoe"])) (Some 10%Z)))
  else if decide (p = "zz") then Response 10 500 Malformed
  else Response 10 200 (Json (mkPayload (Some (JList [p +:+ "x"])) (Some 1%Z))).

(** The futures complete in the order of submission. *)
Definition in_order (it : nat) (fs : list (string * fetched))
    : list (string * fetched) := fs.

Abbreviation sample_run := (bfs_run true sample_endpoint in_order).

(** The scenario of the request counter: the endpoint answers the prefix
    "e" with 429 twice and with 200 on the third attempt; every other prefix
    gets an empty page at once. *)
Definition retry_endpoint (it : nat) (p : string) (a : nat) : reply :=
  if decide (p = "e") then
    if a <? 2 then Response 10 429 Malformed
    else Response 10 200 (Json {| results := Some (JList ["eve"]); count := Some 1%Z |})
  else Response 10 200 (Json {| results := Some (JList []); count := Some 0%Z |}).

(** The requests sent for the query [q]. *)
Definition is_send_of (q : string) (e : event) : bool :=
  match e with
  | EvSend q' _ => bool_decide (q' = q)
  | _ => false
  end.

(** The same answers for the asynchronous client, which sends the one query
    "e". *)
Definition retry_server (i : nat) : Extractor.reply :=
  if i <? 2 then Extractor.Response 10 429 Malformed
  else Extractor.Response 10 200
         (Json {| results := Some (JList ["eve"]); count := Some 1%Z |}).

(** *** Lemmas and theorems *)

(** [handle], by the names that the future holds. *)
Lemma handle_unfold st f :
  handle st f =
  match f.2 with
  | Returned (Some response) =>
    match listed response with
    | None => st
    | Some names =>
      let new :=
        if decide (default 0%Z (count response) = 10%Z)
        then expansion f.1 (processed st) else [] in
      {| queue := queue st ++ new;
         all_names := all_names st ∪ list_to_set names;
         processed := processed st;
         request_count := request_count st;
         shared := shared st;
         iteration := iteration st;
         submitted := submitted st;
         enqueued := enqueued st ++ new |}
    end
  | _ => st
  end.
Proof.
  unfold handle, listed. destruct f.2 as [[response|]|]; try done.
  destruct (results response) as [value|]; [|done]. by destruct (iterate value).
Qed.

Lemma add_char_inj p1 c1 p2 c2 :
  add_char p1 c1 = add_char p2 c2 → p1 = p2 ∧ c1 = c2.
Proof.
  unfold add_char. revert p2.
  induction p1 as [|a p1 IH]; intros [|b p2]; simpl; intros H.
  - by inversion H.
  - inversion H as [[Ha Hs]]. by destruct p2.
  - inversion H as [[Ha Hs]]. by destruct p1.
  - inversion H as [[Ha Hs]]. destruct (IH _ Hs) as [-> ->]. done.
Qed.

Lemma add_char_length p c : String.length (add_char p c) = S (String.length p).
Proof. unfold add_char. induction p; simpl; congruence. Qed.

Lemma seeds_length s : s ∈ seeds → String.length s = 1.
Proof.
  unfold seeds. intros (c & -> & _)%list_elem_of_fmap. done.
Qed.

Lemma NoDup_seeds : NoDup seeds.
Proof. by apply (bool_decide_unpack _); vm_compute. Qed.
Lemma NoDup_lowercase : NoDup (chars_of ascii_lowercase).
Proof. by apply (bool_decide_unpack _); vm_compute. Qed.

Lemma filter_all {A} (P : A → Prop) `{∀ x, Decision (P x)} (l : list A) :
  Forall P l → filter P l = l.
Proof.
  induction 1 as [|x l Hx _ IH]; [done|].
  by rewrite filter_cons_True, IH.
Qed.

Lemma take_batch_fresh n q seen batch :
  n ≤ length q → NoDup q → (∀ p, p ∈ q → p ∉ seen) →
  take_batch n q seen batch
  = (drop n q, seen ∪ list_to_set (take n q), batch ++ take n q).
Proof.
  revert q seen batch.
  induction n as [|n IH]; intros q seen batch Hn Hnd Hfresh; simpl.
  - rewrite drop_0, take_0, app_nil_r. simpl. by rewrite (right_id_L ∅ (∪)).
  - destruct q as [|p q]; simpl in *; [lia|].
    apply NoDup_cons in Hnd as [Hp Hnd].
    rewrite decide_False by (apply Hfresh; left).
    rewrite IH; [|lia|done|].
    + by rewrite <- app_assoc, (assoc_L (∪)).
    + intros x Hx. apply not_elem_of_union. split.
      * apply Hfresh. by right.
      * apply not_elem_of_singleton. by intros ->.
Qed.

Lemma occurrences_absent x l : x ∉ l → occurrences x l = 0.
Proof.
  unfold occurrences. induction l as [|y l IH]; intros Hx; [done|].
  apply not_elem_of_cons in Hx as [Hne Hx].
  rewrite filter_cons_False by congruence. auto.
Qed.

Lemma occurrences_NoDup x l : NoDup l → x ∈ l → occurrences x l = 1.
Proof.
  induction 1 as [|y l Hy Hnd IH]; intros Hin.
  - by apply elem_of_nil in Hin.
  - apply elem_of_cons in Hin as [->|Hin]; unfold occurrences.
    + rewrite filter_cons_True by done. simpl. f_equal.
      by apply occurrences_absent.
    + rewrite filter_cons_False by (intros ->; done). by apply IH.
Qed.

Lemma take_min {A} n (l : list A) : take (n `min` length l) l = take n l.
Proof.
  destruct (decide (n ≤ length l)).
  - by rewrite Nat.min_l.
  - rewrite Nat.min_r by lia. by rewrite !take_ge by lia.
Qed.

Lemma drop_min {A} n (l : list A) : drop (n `min` length l) l = drop n l.
Proof.
  destruct (decide (n ≤ length l)).
  - by rewrite Nat.min_l.
  - rewrite Nat.min_r by lia. by rewrite !drop_ge by lia.
Qed.

Lemma NoDup_keys_functional {A B} (l : list (A * B)) x y1 y2 :
  NoDup l.*1 → (x, y1) ∈ l → (x, y2) ∈ l → y1 = y2.
Proof.
  induction l as [|[a b] l IH]; csimpl; intros Hnd H1 H2.
  { by apply elem_of_nil in H1. }
  apply NoDup_cons in Hnd as [Ha Hnd].
  apply elem_of_cons in H1 as [H1|H1]; apply elem_of_cons in H2 as [H2|H2].
  - congruence.
  - inversion H1; subst. destruct Ha. apply list_elem_of_fmap. by exists (a, y2).
  - inversion H2; subst. destruct Ha. apply list_elem_of_fmap. by exists (a, y1).
  - by apply IH.
Qed.

Lemma trace_backoff a w : trace (backoff a w) = trace w ++ backoff_events a.
Proof.
  unfold backoff, backoff_events. destruct (a <? MAX_RETRIES - 1); simpl.
  - done.
  - by rewrite app_nil_r.
Qed.

Lemma throttle_Some w w1 :
  throttle w = Some w1 →
  ∃ d, trace w1 = trace w ++ [EvThrottle d] ∧ clock w1 = (clock w + d)%Z
       ∧ limiter w1 = limiter w.
Proof.
  unfold throttle. destruct (wait_if_needed _ _) as [d|]; [|done].
  intros [= <-]. by exists d.
Qed.

Lemma attempts_trace json q net todo w :
  ∃ n blocks,
    n ≤ length todo ∧
    Forall2 (λ a blk, attempt_block json q a (net a) blk) (take n todo) blocks ∧
    trace (attempts json q net todo w).2 = trace w ++ concat blocks.
Proof.
  revert w. induction todo as [|a todo IH]; intros w; simpl.
  { exists 0, []. split_and!; [done|constructor|by rewrite app_nil_r]. }
  destruct (throttle w) as [w1|] eqn:Hthr.
  2:{ exists 0, []. split_and!; [lia|constructor|by rewrite app_nil_r]. }
  apply throttle_Some in Hthr as (d & Htr & Hclk & _).
  assert (∀ blk w3,
    attempt_block json q a (net a) blk → trace w3 = trace w ++ blk →
    ∃ n blocks, n ≤ S (length todo) ∧
      Forall2 (λ a blk, attempt_block json q a (net a) blk)
        (take n (a :: todo)) blocks ∧
      trace (attempts json q net todo w3).2 = trace w ++ concat blocks)
    as Hnext.
  { intros blk w3 Hblk Hw3. destruct (IH w3) as (n & blocks & Hn & Hall & Heq).
    exists (S n), (blk :: blocks). split_and!; [lia|by constructor|].
    rewrite Heq, Hw3. simpl. by rewrite app_assoc. }
  assert (∀ blk w3,
    attempt_block json q a (net a) blk → trace w3 = trace w ++ blk →
    ∃ n blocks, n ≤ S (length todo) ∧
      Forall2 (λ a blk, attempt_block json q a (net a) blk)
        (take n (a :: todo)) blocks ∧
      trace w3 = trace w ++ concat blocks)
    as Hstop.
  { intros blk w3 Hblk Hw3. exists 1, [blk].
    split_and!; [lia|by repeat constructor|].
    simpl. by rewrite app_nil_r. }
  destruct (net a) as [lat status b|lat] eqn:Hnet.
  - destruct (status =? 200)%Z eqn:H200.
    + apply Z.eqb_eq in H200 as ->. destruct b as [p|].
      * eapply Hstop; [apply (block_ok _ _ _ lat p d (clock w1))|].
        simpl. rewrite Htr, <- !app_assoc. done.
      * destruct json.
        -- eapply Hnext; [apply (block_malformed _ _ _ lat d (clock w1))|].
           rewrite trace_backoff. simpl. rewrite Htr, <- !app_assoc. done.
        -- eapply Hstop; [apply (block_malformed _ _ _ lat d (clock w1))|].
           simpl. rewrite Htr, <- !app_assoc. done.
    + apply Z.eqb_neq in H200. destruct (status =? 429)%Z eqn:H429.
      * apply Z.eqb_eq in H429 as ->.
        eapply Hnext; [apply (block_429 _ _ _ lat b d (clock w1))|].
        simpl. rewrite Htr, <- !app_assoc. done.
      * apply Z.eqb_neq in H429.
        eapply Hnext;
          [by apply (block_other _ _ _ lat status b d (clock w1))|].
        rewrite trace_backoff. simpl. rewrite Htr, <- !app_assoc. done.
  - eapply Hnext; [apply (block_exception _ _ _ lat d (clock w1))|].
    rewrite trace_backoff. simpl. rewrite Htr, <- !app_assoc. done.
Qed.

Lemma backoff_events_sleep a : Forall (λ e, is_sleep e) (backoff_events a).
Proof.
  unfold backoff_events. destruct (a <? MAX_RETRIES - 1); repeat constructor.
Qed.

Lemma attempt_block_shape json q a r blk :
  attempt_block json q a r blk → attempt_shape q r blk.
Proof.
  destruct 1; simpl; constructor;
    try apply backoff_events_sleep; repeat constructor.
  destruct json; [apply backoff_events_sleep|constructor].
Qed.

Lemma take_seq_le j n m : n ≤ m → take n (seq j m) = seq j n.
Proof. intros. rewrite take_seq. f_equal. lia. Qed.

Lemma make_api_request_trace json q net w :
  ∃ blocks,
    length blocks ≤ MAX_RETRIES ∧
    Forall2 (λ a blk, attempt_block json q a (net a) blk)
      (seq 0 (length blocks)) blocks ∧
    trace (make_api_request json q net w).2 = trace w ++ concat blocks.
Proof.
  destruct (attempts_trace json q net (seq 0 MAX_RETRIES) w)
    as (n & blocks & Hn & Hall & Htr).
  rewrite length_seq in Hn. rewrite take_seq_le in Hall by done.
  pose proof (Forall2_length _ _ _ Hall) as Hlen. rewrite length_seq in Hlen.
  exists blocks. rewrite <- Hlen. by split_and!.
Qed.



(** A call of [make_api_request] makes at most [MAX_RETRIES] attempts, each
    sending one request, whatever the endpoint answers; and an attempt
    numbered [a] (from 0) that is answered 429 ends with a sleep of
    [60 * (a + 1)] seconds. *)
Lemma make_api_request_retries json q net w :
  ∃ blocks,
    trace (make_api_request json q net w).2 = trace w ++ concat blocks ∧
    length blocks ≤ MAX_RETRIES ∧
    ∀ a blk, blocks !! a = Some blk →
      count_events is_send blk = 1 ∧
      ∀ lat b, net a = Response lat 429 b →
        last blk = Some (EvSleep (seconds (60 * (Z.of_nat a + 1)))).
Proof.
  destruct (make_api_request_trace json q net w) as (blocks & Hn & Hall & Htr).
  exists blocks. split_and!; [done..|].
  intros a blk Hblk.
  destruct (Forall2_lookup_r _ _ _ _ _ Hall Hblk) as (a' & Ha' & Hb).
  apply lookup_seq in Ha' as [-> _]. simpl in Hb.
  split.
  - destruct Hb; unfold backoff_events;
      try destruct json; destruct (a <? MAX_RETRIES - 1); done.
  - intros lat b Hnet. rewrite Hnet in Hb. by inversion Hb.
Qed.

Lemma backoff_limiter a w : limiter (backoff a w) = limiter w.
Proof. unfold backoff. by destruct (a <? MAX_RETRIES - 1). Qed.

Lemma throttle_limit w : limit (limiter w) ≠ 0 → is_Some (throttle w).
Proof.
  intros Hl. unfold throttle, wait_if_needed.
  destruct (length (timestamps (limiter w)) <? limit (limiter w)) eqn:Hlt;
    [by eexists|].
  apply Nat.ltb_ge in Hlt.
  destruct (timestamps (limiter w)); [simpl in Hlt; lia|by eexists].
Qed.

Lemma attempts_exhausted json q net todo w :
  limit (limiter w) ≠ 0 →
  (∀ a, a ∈ todo → failing json (net a)) →
  (attempts json q net todo w).1 = Returned None.
Proof.
  revert w. induction todo as [|a todo IH]; intros w Hl Hfail; simpl; [done|].
  destruct (throttle_limit w Hl) as [w1 Hw1]. rewrite Hw1.
  apply throttle_Some in Hw1 as (d & _ & _ & Hlim).
  assert (∀ a', a' ∈ todo → failing json (net a')) as Hfail'.
  { intros a' Ha'. apply Hfail. by right. }
  pose proof (Hfail a (list_elem_of_here _ _)) as Ha.
  destruct (net a) as [lat status b|lat]; simpl in Ha.
  - destruct (status =? 200)%Z eqn:H200.
    + apply Z.eqb_eq in H200. destruct Ha as [?|[-> ->]]; [done|].
      apply IH; [|done]. rewrite backoff_limiter. simpl. by rewrite Hlim.
    + destruct (status =? 429)%Z; (apply IH; [|done]).
      * simpl. by rewrite Hlim.
      * rewrite backoff_limiter. simpl. by rewrite Hlim.
  - apply IH; [|done]. rewrite backoff_limiter. simpl. by rewrite Hlim.
Qed.

(** What a call returns does not depend on the clock, the timestamps or the
    trace it starts from. *)
Lemma attempts_value json q net todo w w' :
  limit (limiter w) ≠ 0 → limit (limiter w') ≠ 0 →
  (attempts json q net todo w).1 = (attempts json q net todo w').1.
Proof.
  revert w w'. induction todo as [|a todo IH]; intros w w' Hl Hl'; simpl.
  { done. }
  destruct (throttle_limit w Hl) as [w1 Hw1].
  destruct (throttle_limit w' Hl') as [w1' Hw1']. rewrite Hw1, Hw1'.
  apply throttle_Some in Hw1 as (d & _ & _ & Hlim).
  apply throttle_Some in Hw1' as (d' & _ & _ & Hlim').
  destruct (net a) as [lat status b|lat].
  - destruct (status =? 200)%Z.
    + destruct b; [done|]. destruct json; [|done].
      apply IH; rewrite backoff_limiter; simpl; congruence.
    + destruct (status =? 429)%Z; apply IH;
        rewrite ?backoff_limiter; simpl; congruence.
  - apply IH; rewrite backoff_limiter; simpl; congruence.
Qed.

Lemma attempts_limit json q net todo w :
  limit (limiter (attempts json q net todo w).2) = limit (limiter w).
Proof.
  revert w. induction todo as [|a todo IH]; intros w; simpl; [done|].
  destruct (throttle w) as [w1|] eqn:Hw1; [|done].
  apply throttle_Some in Hw1 as (d & _ & _ & Hlim).
  destruct (net a) as [lat status b|lat].
  - destruct (status =? 200)%Z.
    + destruct b; [by rewrite <- Hlim|]. destruct json; [|by rewrite <- Hlim].
      rewrite IH, backoff_limiter. simpl. by rewrite Hlim.
    + destruct (status =? 429)%Z; rewrite IH, ?backoff_limiter; simpl;
        by rewrite Hlim.
  - rewrite IH, backoff_limiter. simpl. by rewrite Hlim.
Qed.

Lemma add_char_nonempty p c : add_char p c ≠ "".
Proof. by destruct p. Qed.

Lemma NoDup_children p : NoDup (add_char p <$> chars_of ascii_lowercase).
Proof.
  apply NoDup_fmap_2_strong; [|apply NoDup_lowercase].
  intros c1 c2 _ _ Heq. by apply add_char_inj in Heq as [_ ?].
Qed.

Lemma expansion_fresh st p todo :
  frontier_inv st (p :: todo) →
  expansion p (processed st) = add_char p <$> chars_of ascii_lowercase.
Proof.
  intros (Henq & Hnd & Hproc & Hne & Htodo & Hsub & Hch).
  apply filter_all, Forall_forall. intros s (c & -> & Hc)%list_elem_of_fmap.
  rewrite Hproc. intros Hin%elem_of_list_to_set.
  assert (p ≠ "") as Hp.
  { intros ->. apply Hne. rewrite Henq. apply elem_of_app. left.
    apply Hsub. left. }
  destruct (Hch p c Hp) as [_ Hnot].
  - rewrite Henq. apply elem_of_app. by left.
  - apply Hnot. left.
Qed.

Lemma handle_saturated st p resp names todo :
  frontier_inv st (p :: todo) →
  listed resp = Some names → default 0%Z (count resp) = 10%Z →
  handle st (p, Returned (Some resp))
  = {| queue := queue st ++ (add_char p <$> chars_of ascii_lowercase);
       all_names := all_names st ∪ list_to_set names;
       processed := processed st;
       request_count := request_count st;
       shared := shared st;
       iteration := iteration st;
       submitted := submitted st;
       enqueued := enqueued st ++ (add_char p <$> chars_of ascii_lowercase) |}.
Proof.
  intros Hinv Hres Hcount. rewrite handle_unfold. cbn [fst snd]. rewrite Hres.
  rewrite decide_True by done. by rewrite (expansion_fresh _ _ _ Hinv).
Qed.

Lemma frontier_inv_skip st p todo : frontier_inv st (p :: todo) → frontier_inv st todo.
Proof.
  intros (Henq & Hnd & Hproc & Hne & Htodo & Hsub & Hch).
  apply NoDup_cons in Htodo as [Hp Htodo].
  split_and!; try done.
  - intros x Hx. apply Hsub. by right.
  - intros q c Hq Hin. destruct (Hch q c Hq Hin) as [Hs Hn].
    split; [done|]. intros Hx. apply Hn. by right.
Qed.

Lemma handle_inv st p r todo :
  frontier_inv st (p :: todo) → frontier_inv (handle st (p, r)) todo.
Proof.
  intros Hinv.
  destruct r as [[resp|]|]; try (by eapply frontier_inv_skip).
  destruct (listed resp) as [names|] eqn:Hres;
    [|rewrite handle_unfold; cbn [fst snd]; rewrite Hres; by eapply frontier_inv_skip].
  destruct (decide (default 0%Z (count resp) = 10%Z)) as [Hc|Hc].
  2:{ rewrite handle_unfold. cbn [fst snd]. rewrite Hres, decide_False by done.
      rewrite !app_nil_r. apply frontier_inv_skip in Hinv.
      destruct Hinv as (Henq & Hnd & Hproc & Hne & Htodo & Hsub & Hch).
      split_and!; cbn [enqueued queue submitted processed]; done. }
  rewrite (handle_saturated _ _ _ _ _ Hinv Hres Hc).
  destruct Hinv as (Henq & Hnd & Hproc & Hne & Htodo & Hsub & Hch).
  apply NoDup_cons in Htodo as [Hp Htodo].
  assert (p ∈ submitted st) as Hpsub by (apply Hsub; left).
  assert (p ≠ "") as Hpne.
  { intros ->. apply Hne. rewrite Henq. apply elem_of_app. by left. }
  assert (∀ c, add_char p c ∉ enqueued st) as Hfresh.
  { intros c Hin. destruct (Hch p c Hpne Hin) as [_ Hn]. apply Hn. left. }
  split_and!; cbn [enqueued queue submitted processed].
  - rewrite Henq. by rewrite app_assoc.
  - apply NoDup_app. split; [done|]. split; [|apply NoDup_children].
    intros s Hs (c & -> & _)%list_elem_of_fmap. by apply (Hfresh c).
  - done.
  - intros [?|(c & Hc' & _)%list_elem_of_fmap]%elem_of_app; [done|].
    by apply (add_char_nonempty p c).
  - done.
  - intros x Hx. apply Hsub. by right.
  - intros q c Hq [Hin|(c' & Heq & _)%list_elem_of_fmap]%elem_of_app.
    + destruct (Hch q c Hq Hin) as [Hs Hn].
      split; [done|]. intros Hx. apply Hn. by right.
    + apply add_char_inj in Heq as [-> _]. done.
Qed.

Lemma foldl_handle_inv fs st :
  frontier_inv st fs.*1 → frontier_inv (foldl handle st fs) [].
Proof.
  revert st. induction fs as [|[p r] fs IH]; intros st Hinv; simpl; [done|].
  apply IH. by apply handle_inv.
Qed.

Section Frontier.

Variable json_error_caught : bool.
Variable endpoint : nat → string → nat → reply.
Variable as_completed :
  nat → list (string * fetched) → list (string * fetched).
Hypothesis as_completed_perm : ∀ it fs, as_completed it fs ≡ₚ fs.

Local Abbreviation submit_all := (submit_all json_error_caught endpoint).
Local Abbreviation bfs_iteration :=
  (bfs_iteration json_error_caught endpoint as_completed).
Local Abbreviation bfs_run := (bfs_run json_error_caught endpoint as_completed).
Local Abbreviation futures_of := (futures_of json_error_caught endpoint).
Local Abbreviation after_submit := (after_submit json_error_caught endpoint).

Lemma submit_all_keys it batch w : (submit_all it batch w).1.*1 = batch.
Proof.
  revert w. induction batch as [|p batch IH]; intros w; simpl; [done|].
  destruct (make_api_request _ _ _ _) as [r w1].
  specialize (IH w1). destruct (submit_all it batch w1) as [fs w2].
  cbn in *. by f_equal.
Qed.

Lemma take_batch_inv st :
  frontier_inv st [] →
  take_batch (min MAX_WORKERS (length (queue st))) (queue st) (processed st) []
  = (drop MAX_WORKERS (queue st),
     processed st ∪ list_to_set (batch_of st), batch_of st).
Proof.
  intros (Henq & Hnd & Hproc & _).
  rewrite Henq in Hnd. apply NoDup_app in Hnd as (_ & Hdisj & Hq).
  rewrite take_batch_fresh; [|lia|done|].
  - by rewrite take_min, drop_min.
  - intros p Hp. rewrite Hproc, elem_of_list_to_set. intros Hs.
    by apply (Hdisj p).
Qed.

Lemma bfs_iteration_eq st :
  frontier_inv st [] → queue st ≠ [] →
  bfs_iteration st
  = foldl handle (after_submit st) (as_completed (iteration st) (futures_of st)).
Proof.
  intros Hinv Hq. unfold App.bfs_iteration. rewrite (take_batch_inv _ Hinv).
  unfold after_submit, futures_of.
  destruct (batch_of st) as [|p batch] eqn:Hb.
  { unfold batch_of in Hb. destruct (queue st); [done|]. discriminate. }
  rewrite <- Hb. by destruct (submit_all _ _ _).
Qed.

Lemma after_submit_inv st :
  frontier_inv st [] →
  frontier_inv (after_submit st) (as_completed (iteration st) (futures_of st)).*1.
Proof.
  intros (Henq & Hnd & Hproc & Hne & _ & _ & Hch).
  assert ((as_completed (iteration st) (futures_of st)).*1 ≡ₚ batch_of st)
    as Hperm.
  { rewrite as_completed_perm. unfold futures_of.
    by rewrite submit_all_keys. }
  pose proof Hnd as Hnd'. rewrite Henq in Hnd'.
  apply NoDup_app in Hnd' as (_ & Hdisj & Hq).
  split_and!; cbn [enqueued queue submitted processed after_submit].
  - rewrite Henq, <- app_assoc. unfold batch_of. by rewrite take_drop.
  - done.
  - by rewrite list_to_set_app_L, Hproc.
  - done.
  - rewrite Hperm. eapply sublist_NoDup; [|apply sublist_take]. done.
  - intros p Hp. rewrite Hperm in Hp. apply elem_of_app. by right.
  - intros p c Hp Hin. destruct (Hch p c Hp Hin) as [Hs _].
    split; [apply elem_of_app; by left|].
    rewrite Hperm. intros Hb. apply (Hdisj p Hs).
    by eapply subseteq_take.
Qed.

Lemma bfs_iteration_inv st :
  frontier_inv st [] → queue st ≠ [] → frontier_inv (bfs_iteration st) [].
Proof.
  intros Hinv Hq. rewrite bfs_iteration_eq by done.
  by apply foldl_handle_inv, after_submit_inv.
Qed.

Lemma initial_inv : frontier_inv initial [].
Proof.
  split_and!; cbn [enqueued queue submitted processed initial].
  - done.
  - apply NoDup_seeds.
  - done.
  - intros H%seeds_length. done.
  - constructor.
  - done.
  - intros p c Hp Hin%seeds_length. rewrite add_char_length in Hin.
    destruct p; [done|discriminate].
Qed.

Lemma bfs_run_inv n : frontier_inv (bfs_run n) [].
Proof.
  induction n as [|n IH]; simpl; [apply initial_inv|].
  destruct (queue (bfs_run n)) eqn:Hq; [done|].
  apply bfs_iteration_inv; [done|]. by rewrite Hq.
Qed.

Lemma handle_frame st f :
  submitted (handle st f) = submitted st ∧
  processed (handle st f) = processed st ∧
  request_count (handle st f) = request_count st ∧
  iteration (handle st f) = iteration st ∧
  shared (handle st f) = shared st.
Proof.
  rewrite handle_unfold. destruct f.2 as [[resp|]|]; try done.
  by destruct (listed resp).
Qed.

Lemma foldl_handle_submitted fs st :
  submitted (foldl handle st fs) = submitted st.
Proof.
  revert st. induction fs as [|f fs IH]; intros st; simpl; [done|].
  rewrite IH. apply handle_frame.
Qed.

Lemma handle_enqueued_grows st f : enqueued st ⊆ enqueued (handle st f).
Proof.
  rewrite handle_unfold. destruct f.2 as [[resp|]|]; try done.
  destruct (listed resp); [|done]. cbn [enqueued].
  intros x Hx. apply elem_of_app. by left.
Qed.

Lemma foldl_handle_enqueued_grows fs st :
  enqueued st ⊆ enqueued (foldl handle st fs).
Proof.
  revert st. induction fs as [|f fs IH]; intros st; simpl; [done|].
  etrans; [apply handle_enqueued_grows|apply IH].
Qed.

Lemma bfs_run_S n :
  queue (bfs_run n) ≠ [] →
  bfs_run (S n)
  = foldl handle (after_submit (bfs_run n))
      (as_completed (iteration (bfs_run n)) (futures_of (bfs_run n))).
Proof.
  intros Hq. simpl. destruct (queue (bfs_run n)) eqn:Hq'; [done|].
  apply bfs_iteration_eq; [apply bfs_run_inv|by rewrite Hq'].
Qed.

Lemma bfs_run_stuck n : queue (bfs_run n) = [] → bfs_run (S n) = bfs_run n.
Proof. intros Hq. simpl. by rewrite Hq. Qed.

Lemma bfs_run_submitted_S n :
  queue (bfs_run n) ≠ [] →
  submitted (bfs_run (S n)) = submitted (bfs_run n) ++ batch_of (bfs_run n).
Proof.
  intros Hq. rewrite bfs_run_S by done. by rewrite foldl_handle_submitted.
Qed.

Lemma foldl_handle_request_count fs st :
  request_count (foldl handle st fs) = request_count st.
Proof.
  revert st. induction fs as [|f fs IH]; intros st; simpl; [done|].
  rewrite IH. apply handle_frame.
Qed.

(** The counter of [bfs_explore] counts the prefixes submitted. *)
Lemma request_count_counts_prefixes n :
  request_count (bfs_run n) = length (submitted (bfs_run n)).
Proof.
  induction n as [|n IH]; [done|].
  destruct (decide (queue (bfs_run n) = [])) as [Hq|Hq].
  { by rewrite bfs_run_stuck. }
  rewrite bfs_run_submitted_S, bfs_run_S by done.
  rewrite foldl_handle_request_count, length_app. simpl. by rewrite IH.
Qed.

Lemma bfs_run_enqueued_mono n m :
  n ≤ m → enqueued (bfs_run n) ⊆ enqueued (bfs_run m).
Proof.
  induction 1 as [|m _ IH]; [done|]. etrans; [apply IH|].
  destruct (decide (queue (bfs_run m) = [])) as [Hq|Hq].
  - by rewrite bfs_run_stuck.
  - rewrite bfs_run_S by done.
    apply (foldl_handle_enqueued_grows _ (after_submit _)).
Qed.

Lemma bfs_run_submitted_mono n m :
  n ≤ m → submitted (bfs_run n) ⊆ submitted (bfs_run m).
Proof.
  induction 1 as [|m _ IH]; [done|]. etrans; [apply IH|].
  destruct (decide (queue (bfs_run m) = [])) as [Hq|Hq].
  - by rewrite bfs_run_stuck.
  - rewrite bfs_run_submitted_S by done. intros x Hx. apply elem_of_app. by left.
Qed.

Lemma futures_nonempty st x : x ∈ futures_of st → queue st ≠ [].
Proof.
  intros Hx Hq. unfold futures_of, batch_of in Hx. rewrite Hq in Hx.
  simpl in Hx. by apply elem_of_nil in Hx.
Qed.

Lemma futures_key st p r : (p, r) ∈ futures_of st → p ∈ batch_of st.
Proof.
  intros Hx. unfold futures_of in Hx.
  rewrite <- (submit_all_keys (iteration st) (batch_of st) (shared st)).
  apply list_elem_of_fmap. by exists (p, r).
Qed.

(** Handling the completed future of a saturated prefix puts all its
    children on the queue. *)
Lemma foldl_handle_children fs st p resp names c :
  frontier_inv st fs.*1 →
  (p, Returned (Some resp)) ∈ fs →
  listed resp = Some names → default 0%Z (count resp) = 10%Z →
  c ∈ chars_of ascii_lowercase →
  add_char p c ∈ enqueued (foldl handle st fs).
Proof.
  revert st. induction fs as [|[q r] fs IH]; intros st Hinv Hin Hres Hcnt Hc.
  { by apply elem_of_nil in Hin. }
  simpl. apply elem_of_cons in Hin as [Heq|Hin].
  - inversion Heq; subst q r.
    apply foldl_handle_enqueued_grows.
    rewrite (handle_saturated st p resp names fs.*1 Hinv Hres Hcnt).
    cbn [enqueued]. apply elem_of_app. right. by apply list_elem_of_fmap_2.
  - apply IH; try done. by apply handle_inv.
Qed.

(** A child on the queue comes from the saturated answer of its parent. *)
Lemma foldl_handle_origin fs st p c :
  add_char p c ∈ enqueued (foldl handle st fs) →
  add_char p c ∈ enqueued st ∨
  ∃ resp, (p, Returned (Some resp)) ∈ fs ∧ listed resp ≠ None ∧
          default 0%Z (count resp) = 10%Z.
Proof.
  revert st. induction fs as [|[q r] fs IH]; intros st Hin; simpl in *.
  { by left. }
  destruct (IH _ Hin) as [Hq|(resp & Hf & Hres & Hcnt)].
  2:{ right. exists resp. split_and!; try done. by right. }
  rewrite handle_unfold in Hq. cbn [fst snd] in Hq.
  destruct r as [[resp|]|]; try (by left).
  destruct (listed resp) as [names|] eqn:Hres; [|by left].
  cbn [enqueued] in Hq. apply elem_of_app in Hq as [Hq|Hq]; [by left|].
  case_decide as Hcnt; [|by apply elem_of_nil in Hq].
  unfold expansion in Hq. apply list_elem_of_filter in Hq as [_ Hq].
  apply list_elem_of_fmap in Hq as (c' & Heq & _).
  apply add_char_inj in Heq as [-> _].
  right. exists resp. split_and!; [left|congruence|done].
Qed.

Lemma bfs_run_origin m p c :
  p ≠ "" → add_char p c ∈ enqueued (bfs_run m) →
  ∃ k resp, k < m ∧ (p, Returned (Some resp)) ∈ futures_of (bfs_run k) ∧
            listed resp ≠ None ∧ default 0%Z (count resp) = 10%Z.
Proof.
  intros Hp. induction m as [|m IH]; intros Hin.
  - simpl in Hin. apply seeds_length in Hin. rewrite add_char_length in Hin.
    destruct p; [done|discriminate].
  - destruct (decide (queue (bfs_run m) = [])) as [Hq|Hq].
    { rewrite bfs_run_stuck in Hin by done.
      destruct (IH Hin) as (k & resp & ? & ?). exists k, resp. split; [lia|done]. }
    rewrite bfs_run_S in Hin by done.
    apply foldl_handle_origin in Hin as [Hin|(resp & Hf & Hres & Hcnt)].
    + destruct (IH Hin) as (k & resp & ? & ?). exists k, resp. split; [lia|done].
    + rewrite as_completed_perm in Hf. exists m, resp.
      split; [lia|]. by split_and!.
Qed.

(** A prefix is in the batch of one iteration only. *)
Lemma batch_unique n k p :
  p ∈ batch_of (bfs_run n) → p ∈ batch_of (bfs_run k) → n < k → False.
Proof.
  intros Hn Hk Hlt.
  assert (queue (bfs_run n) ≠ []) as Hq.
  { intros Hq. unfold batch_of in Hn. rewrite Hq in Hn. by apply elem_of_nil in Hn. }
  assert (p ∈ submitted (bfs_run k)) as Hs.
  { apply (bfs_run_submitted_mono (S n) k); [lia|].
    rewrite bfs_run_submitted_S by done. apply elem_of_app. by right. }
  destruct (bfs_run_inv k) as (Henq & Hnd & _).
  rewrite Henq in Hnd. apply NoDup_app in Hnd as (_ & Hdisj & _).
  apply (Hdisj p Hs). by eapply subseteq_take.
Qed.

Lemma futures_functional st p r1 r2 :
  frontier_inv st [] → (p, r1) ∈ futures_of st → (p, r2) ∈ futures_of st → r1 = r2.
Proof.
  intros (Henq & Hnd & _) H1 H2.
  rewrite Henq in Hnd. apply NoDup_app in Hnd as (_ & _ & Hq).
  assert (NoDup (futures_of st).*1) as Hk.
  { unfold futures_of. rewrite submit_all_keys.
    eapply sublist_NoDup; [|apply sublist_take]. done. }
  by eapply NoDup_keys_functional.
Qed.

Lemma foldl_handle_shared fs st : shared (foldl handle st fs) = shared st.
Proof.
  revert st. induction fs as [|f fs IH]; intros st; simpl; [done|].
  rewrite IH. apply handle_frame.
Qed.

Lemma foldl_handle_skip p fs st :
  (∀ r, (p, r) ∈ fs → r = Returned None) →
  foldl handle st fs = foldl handle st (filter (λ f, f.1 ≠ p) fs).
Proof.
  revert st. induction fs as [|[q r] fs IH]; intros st Hp; [done|].
  assert (∀ r, (p, r) ∈ fs → r = Returned None) as Hp'.
  { intros r' Hr'. apply Hp. by right. }
  destruct (decide (q = p)) as [->|Hne].
  - rewrite filter_cons_False by (simpl; auto).
    rewrite (Hp r) by left. simpl. by apply IH.
  - rewrite filter_cons_True by done. simpl. by apply IH.
Qed.

Lemma submit_all_limit it batch w :
  limit (limiter (submit_all it batch w).2) = limit (limiter w).
Proof.
  revert w. induction batch as [|p batch IH]; intros w; simpl; [done|].
  pose proof (attempts_limit json_error_caught p (endpoint it p)
                (seq 0 MAX_RETRIES) w) as Hl.
  unfold make_api_request.
  destruct (attempts _ _ _ _ w) as [r w1].
  specialize (IH w1). destruct (submit_all it batch w1) as [fs w2].
  simpl in *. congruence.
Qed.

Lemma bfs_iteration_limit st :
  limit (limiter (shared (bfs_iteration st))) = limit (limiter (shared st)).
Proof.
  unfold App.bfs_iteration.
  destruct (take_batch _ _ _ _) as [[q seen] batch].
  destruct batch as [|p batch]; [done|].
  pose proof (submit_all_limit (iteration st) (p :: batch) (shared st)) as Hl.
  destruct (submit_all _ _ _) as [fs w].
  by rewrite foldl_handle_shared.
Qed.

Lemma bfs_run_limit n : limit (limiter (shared (bfs_run n))) = RATE_LIMIT.
Proof.
  induction n as [|n IH]; simpl; [done|].
  destruct (queue (bfs_run n)); [done|]. by rewrite bfs_iteration_limit.
Qed.

Lemma submit_all_exhausted it batch w p :
  limit (limiter w) ≠ 0 → p ∈ batch →
  (∀ a, a < MAX_RETRIES → failing json_error_caught (endpoint it p a)) →
  (p, Returned None) ∈ (submit_all it batch w).1.
Proof.
  intros Hl Hp Hfail. revert w Hl.
  induction batch as [|q batch IH]; intros w Hl; simpl.
  { by apply elem_of_nil in Hp. }
  pose proof (attempts_limit json_error_caught q (endpoint it q)
                (seq 0 MAX_RETRIES) w) as Hl1.
  pose proof (attempts_exhausted json_error_caught q (endpoint it q)
                (seq 0 MAX_RETRIES) w Hl) as Hex.
  unfold make_api_request.
  destruct (attempts _ _ _ _ w) as [r w1]. cbn [fst snd] in Hl1, Hex.
  assert (limit (limiter w1) ≠ 0) as Hl' by congruence.
  destruct (decide (p = q)) as [->|Hne].
  - destruct (submit_all it batch w1) as [fs w2]. simpl.
    rewrite Hex; [left|]. intros a Ha%elem_of_seq. apply Hfail. lia.
  - apply elem_of_cons in Hp as [?|Hp]; [done|].
    specialize (IH Hp w1 Hl'). destruct (submit_all it batch w1) as [fs w2].
    simpl in *. by right.
Qed.

(** C7. Let a prefix of the batch of an iteration fail on every one of its
    [MAX_RETRIES] attempts (transport error, status other than 200, or an
    unparseable body whose error is caught). Then [make_api_request] returns
    [None] and raises nothing; the future of the prefix holds [None];
    handling it leaves the whole state as it is, so that it adds no name and
    no prefix to the queue; and the iteration ends in the state that handling
    the other futures alone gives, from which the loop goes on. *)
Theorem exhausted_retries_skipped n p :
  let st := bfs_run n in
  p ∈ take MAX_WORKERS (queue st) →
  (∀ a, a < MAX_RETRIES →
        failing json_error_caught (endpoint (iteration st) p a)) →
  (∀ w, limit (limiter w) ≠ 0 →
        (make_api_request json_error_caught p (endpoint (iteration st) p) w).1
        = Returned None)
  ∧ (p, Returned None) ∈ futures_of st
  ∧ (∀ st', handle st' (p, Returned None) = st')
  ∧ bfs_run (S n)
    = foldl handle (after_submit st)
        (filter (λ f, f.1 ≠ p) (as_completed (iteration st) (futures_of st))).
Proof.
  intros st Hp Hfail.
  pose proof (bfs_run_inv n) as Hinv.
  assert ((p, Returned None) ∈ futures_of st) as Hf.
  { apply submit_all_exhausted; [|done..].
    unfold st. by rewrite bfs_run_limit. }
  split_and!.
  - intros w Hl. apply attempts_exhausted; [done|].
    intros a Ha%elem_of_seq. apply Hfail. lia.
  - done.
  - done.
  - rewrite bfs_run_S by (try done; intros Hq; fold st in Hq;
                          rewrite Hq in Hp; by apply elem_of_nil in Hp).
    apply foldl_handle_skip. intros r Hr. rewrite as_completed_perm in Hr.
    by apply (futures_functional st p).
Qed.

(** C1. At every point of a run of [bfs_explore], no prefix has been handed
    to the client ([make_api_request]) twice, and no prefix has been put on
    the queue twice, seeds and expansions alike. *)
Theorem bfs_explore_no_duplicates n :
  NoDup (submitted (bfs_run n)) ∧ NoDup (enqueued (bfs_run n)).
Proof.
  destruct (bfs_run_inv n) as (Henq & Hnd & _).
  split; [|done]. rewrite Henq in Hnd. by apply NoDup_app in Hnd as (? & _).
Qed.

(** C8. In every iteration of a run, the batch taken from the queue is its
    first [MAX_WORKERS] prefixes, in queue order, and those are removed from
    it; they are submitted in that order; the batch is shorter than
    [MAX_WORKERS] only when the queue is, and empty only when the queue
    is. *)
Theorem drain_is_fifo n :
  let st := bfs_run n in
  let batch := take MAX_WORKERS (queue st) in
  take_batch (min MAX_WORKERS (length (queue st))) (queue st) (processed st) []
  = (drop MAX_WORKERS (queue st), processed st ∪ list_to_set batch, batch)
  ∧ (queue st ≠ [] → submitted (bfs_run (S n)) = submitted st ++ batch)
  ∧ length batch = min MAX_WORKERS (length (queue st))
  ∧ (length batch < MAX_WORKERS → length (queue st) < MAX_WORKERS)
  ∧ (batch = [] → queue st = []).
Proof.
  intros st batch.
  pose proof (bfs_run_inv n) as Hinv.
  split_and!.
  - by apply take_batch_inv.
  - intros Hq. by apply bfs_run_submitted_S.
  - apply length_take.
  - unfold batch. rewrite length_take. lia.
  - unfold batch. by destruct (queue st).
Qed.

(** C5. Let the future of a prefix [p] of some iteration hold an answer
    with a ["results"] list. If its count is 10, every [p + c], for [c] a
    lowercase letter, occurs exactly once among the prefixes put on the
    queue, at every later point of the run. If its count is below 10, no
    extension of [p] is ever put on the queue. *)
Theorem expansion_correct n p resp names :
  let st := bfs_run n in
  (p, Returned (Some resp)) ∈ futures_of st →
  listed resp = Some names →
  (count resp = Some 10%Z →
   ∀ c m, c ∈ chars_of ascii_lowercase → n < m →
     occurrences (add_char p c) (enqueued (bfs_run m)) = 1)
  ∧ ((default 0 (count resp) < 10)%Z →
     ∀ c m, add_char p c ∉ enqueued (bfs_run m)).
Proof.
  intros st Hf Hres.
  pose proof (bfs_run_inv) as Hinv.
  assert (queue st ≠ []) as Hq by (by eapply futures_nonempty).
  split.
  - intros Hcnt c m Hc Hnm.
    destruct (Hinv m) as (_ & Hnd & _).
    apply occurrences_NoDup; [done|].
    apply (bfs_run_enqueued_mono (S n) m); [lia|].
    rewrite bfs_run_S by done.
    eapply foldl_handle_children; try done.
    + by apply after_submit_inv.
    + by rewrite as_completed_perm.
    + by rewrite Hcnt.
  - intros Hcnt c m Hin.
    assert (p ≠ "") as Hp.
    { intros ->. destruct (Hinv n) as (Henq & _ & _ & Hne & _).
      apply Hne. rewrite Henq. apply elem_of_app. right.
      eapply subseteq_take. by eapply futures_key. }
    destruct (bfs_run_origin m p c Hp Hin)
      as (k & resp' & _ & Hf' & _ & Hsat).
    assert (k = n) as ->.
    { pose proof (futures_key _ _ _ Hf) as Hb.
      pose proof (futures_key _ _ _ Hf') as Hb'.
      destruct (Nat.lt_trichotomy k n) as [?|[?|?]]; [|done|].
      - by destruct (batch_unique k n p).
      - by destruct (batch_unique n k p). }
    assert (Returned (Some resp') = Returned (Some resp)) as Heq.
    { eapply futures_functional; [apply Hinv|done..]. }
    inversion Heq; subst. lia.
Qed.

End Frontier.

Lemma in_order_perm : ∀ it fs, in_order it fs ≡ₚ fs.
Proof. intros it fs. reflexivity. Defined.

Lemma bfs_explore_no_duplicates_witness :
  (∀ it fs, in_order it fs ≡ₚ fs)
  ∧ NoDup (submitted (sample_run 4)) ∧ NoDup (enqueued (sample_run 4)).
Proof.
  split; [exact in_order_perm|].
  exact (bfs_explore_no_duplicates true sample_endpoint in_order
           in_order_perm 4).
Defined.

Lemma drain_is_fifo_witness :
  (∀ it fs, in_order it fs ≡ₚ fs)
  ∧ queue (sample_run 1) ≠ []
  ∧ submitted (sample_run 2)
    = submitted (sample_run 1) ++ take MAX_WORKERS (queue (sample_run 1)).
Proof.
  assert (queue (sample_run 1) ≠ []) as Hq by (by vm_compute).
  split; [exact in_order_perm|]. split; [exact Hq|].
  exact (proj1 (proj2 (drain_is_fifo true sample_endpoint in_order
                         in_order_perm 1)) Hq).
Defined.

Lemma expansion_correct_witness :
  let page := {| results := Some (JList ["zed"; "zoe"]); count := Some 10%Z |} in
  (∀ it fs, in_order it fs ≡ₚ fs)
  ∧ ("z", Returned (Some page)) ∈ futures_of true sample_endpoint (sample_run 1)
  ∧ occurrences (add_char "z" "q") (enqueued (sample_run 3)) = 1.
Proof.
  intros page.
  assert (("z", Returned (Some page))
          ∈ futures_of true sample_endpoint (sample_run 1)) as Hf.
  { apply (bool_decide_unpack _). by vm_compute. }
  assert ("q"%char ∈ chars_of ascii_lowercase) as Hc.
  { apply (bool_decide_unpack _). by vm_compute. }
  assert (1 < 3) as Hlt by lia.
  split; [exact in_order_perm|]. split; [exact Hf|].
  exact (proj1 (expansion_correct true sample_endpoint in_order in_order_perm
                  1 "z" page ["zed"; "zoe"] Hf eq_refl)
           eq_refl "q"%char 3 Hc Hlt).
Defined.

Lemma exhausted_retries_skipped_witness :
  (∀ it fs, in_order it fs ≡ₚ fs)
  ∧ "zz" ∈ take MAX_WORKERS (queue (sample_run 3))
  ∧ ("zz", Returned None) ∈ futures_of true sample_endpoint (sample_run 3).
Proof.
  assert ("zz" ∈ take MAX_WORKERS (queue (sample_run 3))) as Hp.
  { apply (bool_decide_unpack _). by vm_compute. }
  assert (∀ a, a < MAX_RETRIES →
            failing true (sample_endpoint (iteration (sample_run 3)) "zz" a))
    as Hfail.
  { intros a _. left. discriminate. }
  split; [exact in_order_perm|]. split; [exact Hp|].
  exact (proj1 (proj2 (exhausted_retries_skipped true sample_endpoint in_order
                         in_order_perm 3 "zz" Hp Hfail))).
Defined.

(** The scenario of a prefix that fails on every attempt: the run ends, it
    has submitted 52 prefixes and found 52 names, and "zz" has contributed
    none. *)
Lemma exhausted_retries_scenario :
  (λ r, (r.2, size r.1, bool_decide ("zzx" ∈ r.1), bool_decide ("zyx" ∈ r.1)))
    <$> bfs_explore true sample_endpoint in_order 4
  = Some (52, 52, false, true).
Proof. by vm_compute. Qed.

(** C6, the code at the scenario of the specification. In app.py the run
    ends with [request_count = 26], one for each prefix submitted, although
    28 requests have been sent, three of them for "e": the retries are not
    counted. The asynchronous client counts the three requests. *)
Lemma request_count_misses_retries :
  let st := bfs_run true retry_endpoint in_order 2 in
  queue st = []
  ∧ request_count st = 26
  ∧ count_events is_send (trace (shared st)) = 28
  ∧ count_events (is_send_of "e") (trace (shared st)) = 3
  ∧ Extractor.requests_count
      (Extractor.state_of
         (Extractor.make_request retry_server 3 "v1" "e" Extractor.init))
      !! "v1" = Some 3.
Proof. split_and!; by vm_compute. Qed.

End AppProps.

(** ** Properties of autocomplete_extractor.py *)
Module ExtractorProps.
Import Extractor.

(** *** Vocabulary of the statements *)

(** The versions that [requests_count] knows. *)
Definition versions : list string := ["v1"; "v2"; "v3"].

(** The reply makes [make_request] sleep and call itself again. *)
Definition is_429 (r : reply) : bool :=
  match r with
  | Response _ status _ => (status =? 429)%Z
  | ClientError _ => false
  end.

(** A reply on which [make_request] gives up: an exception of the request, a
    status other than 200 and 429, or a 200 whose body does not parse. *)
Definition gives_up (r : reply) : Prop :=
  match r with
  | ClientError _ => True
  | Response _ status b =>
    status ≠ 429%Z ∧ (status ≠ 200%Z ∨ b = Malformed)
  end.

(** What [make_request] returns on a reply other than 429. *)
Definition value_of (r : reply) : json :=
  match r with
  | Response _ status (Json data) =>
    if (status =? 200)%Z then default (JList []) (results data) else JList []
  | _ => JList []
  end.

(** The names that the caller of [make_request] takes from that value. *)
Definition names_of (r : reply) : list string :=
  default [] (iterate (value_of r)).

Definition is_list (value : json) : Prop := ∃ items, value = JList items.

(** No answer holds, under ["results"], a value that cannot be iterated. *)
Definition readable (server : nat → reply) : Prop :=
  ∀ i, is_Some (iterate (value_of (server i))).

(** The times at which a call of [make_request] sends its requests, when
    it starts at time [t] with the [i]-th request and asks [k] more times:
    each one 61 seconds after the answer to the one before. *)
Fixpoint retry_times (server : nat → reply) (i : nat) (t : Z) (k : nat)
    : list Z :=
  t :: match k with
       | 0 => []
       | S k' =>
         retry_times server (S i) (t + latency_of (server i) + seconds 61) k'
       end.

(** [m] returns, and the requests it sends are for [version] and carry
    exactly the queries of [qs]. *)
Definition runs_queries (version : string) (qs : list string)
    (m : explorer → result unit) : Prop :=
  ∀ ex, is_Some (requests_count ex !! version) →
    ∃ ex' new,
      m ex = Return tt ex'
      ∧ sent ex' = sent ex ++ new
      ∧ is_Some (requests_count ex' !! version)
      ∧ (∀ x, x ∈ new → x.1.2 = version ∧ x.2 ∈ qs)
      ∧ (∀ q, q ∈ qs → ∃ t, (t, version, q) ∈ new).

(** Whatever [m] does, the requests it sends are for [version] and carry
    queries of [qs] only. *)
Definition only_queries (version : string) (qs : list string)
    (m : explorer → result unit) : Prop :=
  ∀ ex, ∃ new,
    sent (state_of (m ex)) = sent ex ++ new
    ∧ ∀ x, x ∈ new → x.1.2 = version ∧ x.2 ∈ qs.

(** When [m] returns, it has sent, for [version], every query of [qs]. *)
Definition sends_queries (version : string) (qs : list string)
    (m : explorer → result unit) : Prop :=
  ∀ ex ex', m ex = Return tt ex' →
    ∃ new, sent ex' = sent ex ++ new
           ∧ ∀ q, q ∈ qs → ∃ t, (t, version, q) ∈ new.

(** The characters that [explore_v3] combines, and the pairs it skips. *)
Definition chars_v3 : list ascii :=
  chars_of (ascii_lowercase +:+ digits +:+ specials).

Definition special_pair (first second : ascii) : Prop :=
  first ∈ chars_of specials ∧ second ∈ chars_of specials.

(** The endpoint never answers 429 [fuel] times in a row. *)
Definition patient (server : nat → reply) (fuel : nat) : Prop :=
  ∀ i, ∃ j, j < fuel ∧ is_429 (server (i + j)) = false.

(** An endpoint that answers 429 to the first [k] requests and 200 from
    then on. *)
Definition busy_server (k : nat) (i : nat) : reply :=
  if i <? k then Response 10 429 Malformed
  else Response 10 200
         (Json {| results := Some (JList ["eve"]); count := Some 1%Z |}).

(** An endpoint that answers every request with status 500. *)
Definition broken_server (i : nat) : reply := Response 10 500 Malformed.

(** An endpoint that answers every request at once with one name. *)
Definition quick_server (i : nat) : reply :=
  Response 10 200 (Json {| results := Some (JList ["eve"]); count := Some 1%Z |}).

(** An endpoint that answers every request with the body
    [{"results": null}]. *)
Definition null_server (i : nat) : reply :=
  Response 10 200 (Json {| results := Some JNull; count := None |}).

(** The times at which the requests were sent. *)
Definition request_times (ex : explorer) : list Z := (λ x, x.1.1) <$> sent ex.

(** *** Lemmas and theorems *)

Lemma count_request_Some version ex n :
  requests_count ex !! version = Some n →
  ∃ ex1, count_request version ex = Some ex1
         ∧ requests_count ex1 = <[version := S n]> (requests_count ex)
         ∧ sent ex1 = sent ex ∧ now ex1 = now ex
         ∧ v1_names ex1 = v1_names ex ∧ v2_names ex1 = v2_names ex
         ∧ v3_names ex1 = v3_names ex ∧ files ex1 = files ex.
Proof.
  intros H. unfold count_request. rewrite H. eexists. by split_and!.
Qed.

Lemma retry_times_length server i t k :
  length (retry_times server i t k) = S k.
Proof.
  revert i t. induction k as [|k IH]; intros i t; [done|].
  simpl. by rewrite IH.
Qed.

Lemma retry_times_head server i t k : retry_times server i t k !! 0 = Some t.
Proof. by destruct k. Qed.

Lemma retry_times_step server i t k j x y :
  retry_times server i t k !! j = Some x →
  retry_times server i t k !! S j = Some y →
  y = (x + latency_of (server (i + j)%nat) + seconds 61)%Z.
Proof.
  revert i t j. induction k as [|k IH]; intros i t j Hx Hy.
  { by destruct j. }
  destruct j as [|j].
  - injection Hx as <-.
    change (retry_times server (S i)
              (t + latency_of (server i) + seconds 61) k !! 0 = Some y) in Hy.
    rewrite retry_times_head in Hy. injection Hy as <-.
    by rewrite Nat.add_0_r.
  - change (retry_times server (S i)
              (t + latency_of (server i) + seconds 61) k !! j = Some x) in Hx.
    change (retry_times server (S i)
              (t + latency_of (server i) + seconds 61) k !! S j = Some y) in Hy.
    rewrite (IH _ _ _ Hx Hy).
    by replace (i + S j) with (S i + j) by lia.
Qed.

Lemma names_of_gives_up r : gives_up r → value_of r = JList [].
Proof.
  destruct r as [lat status [data|]|lat]; simpl; try done.
  intros [_ [H|H]]; [|done]. by rewrite (proj2 (Z.eqb_neq _ _) H).
Qed.

Lemma value_of_429 r : is_429 r = true → value_of r = JList [].
Proof.
  destruct r as [lat status [data|]|lat]; try done. simpl.
  intros ->%Z.eqb_eq. done.
Qed.

Section ExplorerFacts.

Variable server : nat → reply.

Local Abbreviation make_request := (make_request server).

(** A call of [make_request] for a version that [requests_count] knows:
    it asks again after every 429 answer, until an answer is not 429 or
    the recursion limit is reached, and returns what the last answer
    gives, [[]] on a 429. *)
Lemma make_request_run fuel : ∀ version query ex n,
  requests_count ex !! version = Some n → 0 < fuel →
  ∃ k ex',
    k < fuel
    ∧ (∀ j, j < k → is_429 (server (length (sent ex) + j)) = true)
    ∧ (is_429 (server (length (sent ex) + k)) = true → S k = fuel)
    ∧ make_request fuel version query ex
      = Return (value_of (server (length (sent ex) + k))) ex'
    ∧ sent ex' = sent ex ++ ((λ t, (t, version, query))
                              <$> retry_times server (length (sent ex))
                                    (now ex) k)
    ∧ requests_count ex' = <[version := n + S k]> (requests_count ex)
    ∧ v1_names ex' = v1_names ex ∧ v2_names ex' = v2_names ex
    ∧ v3_names ex' = v3_names ex ∧ files ex' = files ex.
Proof.
  induction fuel as [|fuel IH]; intros version query ex n Hn Hfuel; [lia|].
  destruct (count_request_Some _ _ _ Hn)
    as (ex1 & Hc & Hrc & Hs & Hnow & H1 & H2 & H3 & Hf).
  cbn [Extractor.make_request]. rewrite Hc, Hs.
  destruct (is_429 (server (length (sent ex)))) eqn:E429.
  - destruct (server (length (sent ex))) as [lat status b|lat] eqn:Hr;
      [|done]. cbn [is_429] in E429. rewrite E429.
    set (ex2 := sleep (seconds 61)
                  (get version query (Response lat status b) ex1)).
    assert (sent ex2 = sent ex ++ [(now ex, version, query)]) as Hs2.
    { simpl. by rewrite Hs, Hnow. }
    assert (now ex2 = (now ex + lat + seconds 61)%Z) as Hnow2.
    { simpl. by rewrite Hnow. }
    destruct fuel as [|fuel].
    + exists 0, ex2. rewrite Nat.add_0_r, Hr.
      rewrite (value_of_429 (Response lat status b)) by done.
      split_and!; try done; try lia.
      * simpl. by rewrite Hrc, Nat.add_1_r.
    + destruct (IH version query ex2 (S n))
        as (k & ex' & Hk & Hstreak & Hlast & Hm & Hs' & Hrc' & H1' & H2'
            & H3' & Hf'); [|lia|].
      { simpl. rewrite Hrc. apply lookup_insert_eq. }
      rewrite Hs2, length_app in Hstreak, Hlast, Hm, Hs'. cbn [length] in *.
      exists (S k), ex'.
      replace (length (sent ex) + S k) with (length (sent ex) + 1 + k) by lia.
      split_and!.
      * lia.
      * intros [|j] Hj.
        -- rewrite Nat.add_0_r, Hr. done.
        -- replace (length (sent ex) + S j) with (length (sent ex) + 1 + j)
             by lia. apply Hstreak. lia.
      * intros H. specialize (Hlast H). lia.
      * by rewrite Hm.
      * rewrite Hs', Hnow2, <- app_assoc. cbn [retry_times fmap list_fmap app].
        rewrite Hr. cbn [latency_of]. do 4 f_equal. lia.
      * rewrite Hrc'. simpl. rewrite Hrc, insert_insert_eq. f_equal. lia.
      * by rewrite H1'.
      * by rewrite H2'.
      * by rewrite H3'.
      * by rewrite Hf'.
  - exists 0, (get version query (server (length (sent ex))) ex1).
    rewrite Nat.add_0_r.
    split_and!; try done; try lia.
    + by rewrite E429.
    + destruct (server (length (sent ex))) as [lat status b|lat] eqn:Hr;
        [|done]. cbn [is_429] in E429. rewrite E429. cbn [value_of].
      destruct (status =? 200)%Z; by destruct b.
    + simpl. by rewrite Hs, Hnow.
    + simpl. by rewrite Hrc, Nat.add_1_r.
Qed.

(** The request counter of a version moves with the requests sent. *)
Lemma make_request_returns fuel version query ex n k :
  requests_count ex !! version = Some n →
  k < fuel →
  (∀ j, j < k → is_429 (server (length (sent ex) + j)) = true) →
  is_429 (server (length (sent ex) + k)) = false →
  ∃ ex' new,
    make_request fuel version query ex
    = Return (value_of (server (length (sent ex) + k))) ex'
    ∧ sent ex' = sent ex ++ new
    ∧ length new = S k
    ∧ (∀ x, x ∈ new → x.1.2 = version ∧ x.2 = query)
    ∧ requests_count ex' = <[version := n + S k]> (requests_count ex)
    ∧ v1_names ex' = v1_names ex ∧ v2_names ex' = v2_names ex
    ∧ v3_names ex' = v3_names ex ∧ files ex' = files ex.
Proof.
  intros Hn Hk Hstreak Hend.
  destruct (make_request_run fuel version query ex n Hn ltac:(lia))
    as (k' & ex' & Hk' & Hstreak' & Hlast & Hm & Hs & Hrc & Hrest).
  assert (k' = k) as ->.
  { destruct (Nat.lt_trichotomy k' k) as [Hlt|[?|Hlt]]; [|done|].
    - specialize (Hlast (Hstreak k' Hlt)). lia.
    - rewrite (Hstreak' k Hlt) in Hend. done. }
  eexists ex', _. split_and!; [done|exact Hs| | |done|apply Hrest..].
  - by rewrite length_fmap, retry_times_length.
  - by intros x (t & -> & _)%list_elem_of_fmap.
Qed.

(** When the 429 answers outlast the recursion limit, the call returns
    [[]] after [fuel] requests. *)
Lemma make_request_exhausted fuel version query ex n :
  requests_count ex !! version = Some n → 0 < fuel →
  (∀ j, j < fuel → is_429 (server (length (sent ex) + j)) = true) →
  ∃ ex' new,
    make_request fuel version query ex = Return (JList []) ex'
    ∧ sent ex' = sent ex ++ new ∧ length new = fuel.
Proof.
  intros Hn Hfuel Hall.
  destruct (make_request_run fuel version query ex n Hn Hfuel)
    as (k & ex' & Hk & _ & Hlast & Hm & Hs & _).
  specialize (Hlast (Hall k Hk)).
  rewrite (value_of_429 _ (Hall k Hk)) in Hm.
  eexists ex', _. split_and!; [done|exact Hs|].
  rewrite length_fmap, retry_times_length. done.
Qed.

Lemma streak_or_first i m :
  (∀ j, j < m → is_429 (server (i + j)) = true)
  ∨ ∃ k, k < m ∧ (∀ j, j < k → is_429 (server (i + j)) = true)
         ∧ is_429 (server (i + k)) = false.
Proof.
  induction m as [|m [IH|(k & Hk & IH)]].
  - left. lia.
  - destruct (is_429 (server (i + m))) eqn:E.
    + left. intros j Hj. destruct (decide (j = m)) as [->|]; [done|].
      apply IH. lia.
    + right. exists m. split_and!; [lia|done..].
  - right. exists k. split; [lia|done].
Qed.

Lemma first_non_429 i fuel :
  (∃ j, j < fuel ∧ is_429 (server (i + j)) = false) →
  ∃ k, k < fuel ∧ (∀ j, j < k → is_429 (server (i + j)) = true)
       ∧ is_429 (server (i + k)) = false.
Proof.
  intros (j & Hj & Hend).
  destruct (streak_or_first i fuel) as [Hall|?]; [|done].
  rewrite Hall in Hend by done. discriminate.
Qed.

End ExplorerFacts.

(** What the caller does with the value returned. *)
Lemma store_and_save version value names ex n :
  version ∈ versions → iterate value = Some names →
  requests_count ex !! version = Some n →
  ∃ ex2 ex3,
    update_names version value ex = Some ex2
    ∧ save_progress version ex2 = Some ex3
    ∧ sent ex3 = sent ex ∧ requests_count ex3 = requests_count ex
    ∧ now ex3 = now ex.
Proof.
  intros Hv Hit Hn.
  assert (version = "v1" ∨ version = "v2" ∨ version = "v3") as Hcases.
  { unfold versions in Hv. set_unfold. tauto. }
  destruct Hcases as [Hc|[Hc|Hc]]; subst version.
  all: unfold update_names, save_progress, names_set; rewrite Hit;
    eexists _, _; (split; [reflexivity|]); cbn [requests_count]; rewrite Hn;
    repeat case_decide; try done; (split; [reflexivity|by split_and!]).
Qed.


Lemma pair_inj f1 s1 f2 s2 : pair f1 s1 = pair f2 s2 → f1 = f2 ∧ s1 = s2.
Proof. unfold pair, single. simpl. by intros [= -> ->]. Qed.

Lemma single_not_pair c f s : single c ≠ pair f s.
Proof. done. Qed.

Lemma runs_nil version : runs_queries version [] (Return tt).
Proof.
  intros ex Hk. exists ex, []. split_and!; [done|by rewrite app_nil_r|done| |].
  - by intros x ?%elem_of_nil.
  - by intros q ?%elem_of_nil.
Qed.

Lemma runs_bind version qs1 qs2 m1 m2 :
  runs_queries version qs1 m1 → runs_queries version qs2 m2 →
  runs_queries version (qs1 ++ qs2) (λ ex, bind (m1 ex) (λ _, m2)).
Proof.
  intros H1 H2 ex Hk.
  destruct (H1 ex Hk) as (ex1 & new1 & Hm1 & Hs1 & Hk1 & Hin1 & Hall1).
  destruct (H2 ex1 Hk1) as (ex2 & new2 & Hm2 & Hs2 & Hk2 & Hin2 & Hall2).
  exists ex2, (new1 ++ new2). rewrite Hm1. simpl. split_and!.
  - done.
  - by rewrite Hs2, Hs1, app_assoc.
  - done.
  - intros x [Hx|Hx]%elem_of_app.
    + destruct (Hin1 x Hx). split; [done|]. apply elem_of_app. by left.
    + destruct (Hin2 x Hx). split; [done|]. apply elem_of_app. by right.
  - intros q [Hq|Hq]%elem_of_app.
    + destruct (Hall1 q Hq) as [t ?]. exists t. apply elem_of_app. by left.
    + destruct (Hall2 q Hq) as [t ?]. exists t. apply elem_of_app. by right.
Qed.

Lemma runs_for_each {A} version (f : A → list string) xs body :
  (∀ x, x ∈ xs → runs_queries version (f x) (body x)) →
  runs_queries version (xs ≫= f) (for_each xs body).
Proof.
  induction xs as [|x xs IH]; intros Hbody.
  - apply runs_nil.
  - change (runs_queries version (f x ++ (xs ≫= f))
              (λ ex, bind (body x ex) (λ _, for_each xs body))).
    apply runs_bind.
    + apply Hbody. left.
    + apply IH. intros y Hy. apply Hbody. by right.
Qed.

Section ExplorerLiveness.

Variable server : nat → reply.
Variable fuel : nat.

Hypothesis room : 0 < fuel.
Hypothesis server_readable : readable server.

Lemma runs_request version query :
  version ∈ versions →
  runs_queries version [query] (request_and_update server fuel version query).
Proof.
  intros Hv ex [n Hn].
  destruct (make_request_run server fuel version query ex n Hn room)
    as (k & ex' & Hk & _ & _ & Hm & Hs & Hrc & _).
  destruct (server_readable (length (sent ex) + k)) as [names Hnames].
  destruct (store_and_save version _ names ex' (n + S k) Hv Hnames)
    as (ex2 & ex3 & Hu & Hp & Hs3 & Hrc3 & _).
  { rewrite Hrc. apply lookup_insert_eq. }
  unfold request_and_update. rewrite Hm. cbn [bind]. rewrite Hu, Hp.
  eexists ex3, _. split_and!; [done|by rewrite Hs3, Hs| | |].
  - rewrite Hrc3, Hrc, lookup_insert_eq. by eexists.
  - intros x (t & -> & _)%list_elem_of_fmap. split; [done|]. left.
  - intros q ->%list_elem_of_singleton. exists (now ex).
    apply list_elem_of_fmap. exists (now ex). split; [done|].
    destruct k; left.
Qed.

End ExplorerLiveness.

Lemma only_nil version : only_queries version [] (Return tt).
Proof.
  intros ex. exists []. split; [by rewrite app_nil_r|]. by intros x ?%elem_of_nil.
Qed.

Lemma only_bind version qs1 qs2 m1 m2 :
  only_queries version qs1 m1 → only_queries version qs2 m2 →
  only_queries version (qs1 ++ qs2) (λ ex, bind (m1 ex) (λ _, m2)).
Proof.
  intros H1 H2 ex. destruct (H1 ex) as (new1 & Hs1 & Hin1).
  assert (∀ x, x ∈ new1 → x.1.2 = version ∧ x.2 ∈ qs1 ++ qs2) as Hin1'.
  { intros x Hx. destruct (Hin1 x Hx). split; [done|]. apply elem_of_app. by left. }
  destruct (m1 ex) as [[] ex1|ex1]; simpl in *; [|by exists new1].
  destruct (H2 ex1) as (new2 & Hs2 & Hin2).
  exists (new1 ++ new2). split; [by rewrite Hs2, Hs1, app_assoc|].
  intros x [Hx|Hx]%elem_of_app; [by apply Hin1'|].
  destruct (Hin2 x Hx). split; [done|]. apply elem_of_app. by right.
Qed.

Lemma only_for_each {A} version (f : A → list string) xs body :
  (∀ x, x ∈ xs → only_queries version (f x) (body x)) →
  only_queries version (xs ≫= f) (for_each xs body).
Proof.
  induction xs as [|x xs IH]; intros Hbody.
  - apply only_nil.
  - change (only_queries version (f x ++ (xs ≫= f))
              (λ ex, bind (body x ex) (λ _, for_each xs body))).
    apply only_bind.
    + apply Hbody. left.
    + apply IH. intros y Hy. apply Hbody. by right.
Qed.

Section ExplorerSafety.

Variable server : nat → reply.

Lemma make_request_sends fuel version query ex :
  ∃ new, sent (state_of (make_request server fuel version query ex))
         = sent ex ++ new
         ∧ ∀ x, x ∈ new → x.1.2 = version ∧ x.2 = query.
Proof.
  revert ex. induction fuel as [|fuel IH]; intros ex; simpl.
  { exists []. split; [by rewrite app_nil_r|]. by intros x ?%elem_of_nil. }
  unfold count_request.
  destruct (requests_count ex !! version) as [n|]; simpl.
  2:{ exists []. split; [by rewrite app_nil_r|]. by intros x ?%elem_of_nil. }
  set (ex1 := {| v1_names := v1_names ex; v2_names := v2_names ex;
                 v3_names := v3_names ex;
                 requests_count := <[version:=S n]> (requests_count ex);
                 now := now ex; sent := sent ex; files := files ex |}).
  assert (∀ x, x ∈ [(now ex, version, query)] →
               x.1.2 = version ∧ x.2 = query) as Hone.
  { by intros x ->%list_elem_of_singleton. }
  destruct (server (length (sent ex))) as [lat status b|lat] eqn:Hr.
  2:{ by exists [(now ex, version, query)]. }
  destruct (status =? 429)%Z.
  2:{ destruct (status =? 200)%Z; [destruct b|];
        by exists [(now ex, version, query)]. }
  destruct (IH (sleep (seconds 61) (get version query (Response lat status b) ex1)))
    as (new & Hs & Hin).
  exists ((now ex, version, query) :: new). split.
  - destruct (make_request _ _ _ _ _); simpl in *; rewrite Hs;
      by rewrite <- app_assoc.
  - intros x [->|Hx]%elem_of_cons; [done|]. by apply Hin.
Qed.

Lemma request_and_update_sent fuel version query ex :
  sent (state_of (request_and_update server fuel version query ex))
  = sent (state_of (make_request server fuel version query ex)).
Proof.
  unfold request_and_update.
  destruct (make_request _ _ _ _ _) as [value ex1|ex1]; [|done]. cbn [bind].
  unfold update_names. destruct (iterate value) as [names|]; [|done].
  unfold save_progress. destruct (names_set _ _); [|done].
  cbn [requests_count]. by destruct (requests_count ex1 !! version).
Qed.

Lemma only_request fuel version query :
  only_queries version [query] (request_and_update server fuel version query).
Proof.
  intros ex. destruct (make_request_sends fuel version query ex) as (new & Hs & Hin).
  exists new. split.
  - by rewrite request_and_update_sent.
  - intros x Hx. destruct (Hin x Hx) as [? ->]. split; [done|]. left.
Qed.

End ExplorerSafety.

Lemma sends_nil version : sends_queries version [] (Return tt).
Proof.
  intros ex ex' [= <-]. exists []. split; [by rewrite app_nil_r|].
  by intros q ?%elem_of_nil.
Qed.

Lemma sends_bind version qs1 qs2 m1 m2 :
  sends_queries version qs1 m1 → sends_queries version qs2 m2 →
  sends_queries version (qs1 ++ qs2) (λ ex, bind (m1 ex) (λ _, m2)).
Proof.
  intros H1 H2 ex ex' Hm.
  destruct (m1 ex) as [[] ex1|ex1] eqn:Hm1; [|done]. cbn [bind] in Hm.
  destruct (H1 ex ex1 Hm1) as (new1 & Hs1 & Hall1).
  destruct (H2 ex1 ex' Hm) as (new2 & Hs2 & Hall2).
  exists (new1 ++ new2). split; [by rewrite Hs2, Hs1, app_assoc|].
  intros q [Hq|Hq]%elem_of_app.
  - destruct (Hall1 q Hq) as [t ?]. exists t. apply elem_of_app. by left.
  - destruct (Hall2 q Hq) as [t ?]. exists t. apply elem_of_app. by right.
Qed.

Lemma sends_for_each {A} version (f : A → list string) xs body :
  (∀ x, x ∈ xs → sends_queries version (f x) (body x)) →
  sends_queries version (xs ≫= f) (for_each xs body).
Proof.
  induction xs as [|x xs IH]; intros Hbody.
  - apply sends_nil.
  - change (sends_queries version (f x ++ (xs ≫= f))
              (λ ex, bind (body x ex) (λ _, for_each xs body))).
    apply sends_bind.
    + apply Hbody. left.
    + apply IH. intros y Hy. apply Hbody. by right.
Qed.

(** A call of [make_request] that returns has sent its query. *)
Lemma make_request_sent_first server fuel version query ex value ex' :
  make_request server fuel version query ex = Return value ex' →
  ∃ rest, sent ex' = sent ex ++ (now ex, version, query) :: rest.
Proof.
  destruct fuel as [|fuel]; [done|]. cbn [make_request].
  unfold count_request.
  destruct (requests_count ex !! version) as [n|]; [|done]. cbn [sent].
  destruct (server (length (sent ex))) as [lat status b|lat].
  2:{ intros [= _ <-]. by exists []. }
  destruct (status =? 429)%Z.
  2:{ destruct (status =? 200)%Z; [destruct b|];
        intros [= _ <-]; by exists []. }
  match goal with
  | |- context [make_request server fuel version query ?e] =>
    destruct (make_request_sends server fuel version query e)
      as (new & Hs & _);
    destruct (make_request server fuel version query e) as [v ex3|ex3]
  end; intros [= _ <-]; exists new; cbn [state_of] in Hs; rewrite Hs;
    cbn [sleep get sent now]; by rewrite <- app_assoc.
Qed.

Lemma sends_request server fuel version query :
  sends_queries version [query]
    (request_and_update server fuel version query).
Proof.
  intros ex ex' Hm. unfold request_and_update in Hm.
  destruct (make_request server fuel version query ex) as [value ex1|ex1]
    eqn:Hreq; [|done].
  destruct (make_request_sent_first _ _ _ _ _ _ _ Hreq) as [rest Hs].
  cbn [bind] in Hm.
  assert (sent ex' = sent ex1) as ->.
  { unfold update_names in Hm. destruct (iterate value); [|done].
    unfold save_progress in Hm. destruct (names_set _ _); [|done].
    cbn [requests_count] in Hm.
    destruct (requests_count ex1 !! version); [|done]. by injection Hm as <-. }
  eexists. split; [exact Hs|].
  intros q ->%list_elem_of_singleton. exists (now ex). left.
Qed.

Section ExplorerTheorems.

Variable server : nat → reply.
Variable fuel : nat.


(** C10. [explore_v3] never sends a two-character query made of two
    special characters, however far it gets; when it returns, it has sent
    every other two-character combination over the characters of the third
    version; and it returns when the counter of the third version is
    there, the recursion limit leaves room for a call of [make_request],
    and no answer holds under ["results"] a value that cannot be
    iterated. *)
Theorem explore_v3_skips_special_pairs ex :
  (∃ new,
     sent (state_of (explore_v3 server fuel ex)) = sent ex ++ new
     ∧ ∀ t version first second,
         (t, version, pair first second) ∈ new → ¬ special_pair first second)
  ∧ (∀ ex', explore_v3 server fuel ex = Return tt ex' →
       ∃ new,
         sent ex' = sent ex ++ new
         ∧ ∀ first second, first ∈ chars_v3 → second ∈ chars_v3 →
             ¬ special_pair first second →
             ∃ t, (t, "v3", pair first second) ∈ new)
  ∧ (is_Some (requests_count ex !! "v3") → 0 < fuel → readable server →
     ∃ ex', explore_v3 server fuel ex = Return tt ex').
Proof.
  pose (plan1 := chars_v3 ≫= λ c, [single c]).
  pose (plan2 := chars_v3 ≫= λ first, chars_v3 ≫= λ second,
          if decide (first ∈ chars_of specials ∧ second ∈ chars_of specials)
          then [] else [pair first second]).
  assert ("v3" ∈ versions) as Hv3 by (right; right; left).
  split_and!.
  - assert (only_queries "v3" (plan1 ++ plan2) (explore_v3 server fuel)) as Hrun.
    { apply only_bind.
      - apply only_for_each. intros c _. apply only_request.
      - apply only_for_each. intros first _.
        apply only_for_each. intros second _.
        case_decide; [apply only_nil|apply only_request]. }
    destruct (Hrun ex) as (new & Hs & Hin). exists new. split; [done|].
    intros t version first second Ht Hboth.
    destruct (Hin _ Ht) as [_ Hq]. cbn [snd] in Hq.
    apply elem_of_app in Hq as [Hq|Hq].
    + apply list_elem_of_bind in Hq as (c & Hq & _).
      apply list_elem_of_singleton in Hq.
      by destruct (single_not_pair c first second).
    + apply list_elem_of_bind in Hq as (f' & Hq & _).
      apply list_elem_of_bind in Hq as (s' & Hq & _).
      case_decide as Hd; [by apply elem_of_nil in Hq|].
      apply list_elem_of_singleton in Hq. apply pair_inj in Hq as [-> ->]. done.
  - intros ex' Hm.
    assert (sends_queries "v3" (plan1 ++ plan2) (explore_v3 server fuel))
      as Hrun.
    { apply sends_bind.
      - apply sends_for_each. intros c _. apply sends_request.
      - apply sends_for_each. intros first _.
        apply sends_for_each. intros second _.
        case_decide; [apply sends_nil|apply sends_request]. }
    destruct (Hrun ex ex' Hm) as (new & Hs & Hall).
    exists new. split; [done|].
    intros first second Hf Hsd Hnot. apply Hall. apply elem_of_app. right.
    apply list_elem_of_bind. exists first. split; [|done].
    apply list_elem_of_bind. exists second. split; [|done].
    rewrite decide_False by done. left.
  - intros Hk Hroom Hreadable.
    assert (runs_queries "v3" (plan1 ++ plan2) (explore_v3 server fuel)) as Hrun.
    { apply runs_bind.
      - apply runs_for_each. intros c _. by apply runs_request.
      - apply runs_for_each. intros first _.
        apply runs_for_each. intros second _.
        case_decide; [apply runs_nil|by apply runs_request]. }
    destruct (Hrun ex Hk) as (ex' & new & Hm & _). by exists ex'.
Qed.

End ExplorerTheorems.

(** C4 (amended). In app.py a call of [make_api_request] makes at most
    [MAX_RETRIES] attempts, each sending one request, whatever the endpoint
    answers, and an attempt numbered [a] (from 0) that is answered 429 ends
    with a sleep of [60 * (a + 1)] seconds. In autocomplete_extractor.py
    [make_request] counts no attempts: it asks again after every 429
    answer, 61 seconds after the answer each time, until an answer is not
    429 or the recursion limit of the interpreter is reached, and in that
    last case it returns [[]]. *)
Theorem retry_bounds_and_cooldowns :
  (∀ json q net w,
     ∃ blocks,
       App.trace (App.make_api_request json q net w).2
       = App.trace w ++ concat blocks ∧
       length blocks ≤ App.MAX_RETRIES ∧
       ∀ a blk, blocks !! a = Some blk →
         AppProps.count_events AppProps.is_send blk = 1 ∧
         ∀ lat b, net a = App.Response lat 429 b →
           last blk
           = Some (App.EvSleep (App.seconds (60 * (Z.of_nat a + 1)))))
  ∧ (∀ server fuel version query ex n,
       requests_count ex !! version = Some n → 0 < fuel →
       ∃ k value ex',
         make_request server fuel version query ex = Return value ex'
         ∧ k < fuel
         ∧ (∀ j, j < k → is_429 (server (length (sent ex) + j)) = true)
         ∧ (is_429 (server (length (sent ex) + k)) = true →
            S k = fuel ∧ value = JList [])
         ∧ sent ex'
           = sent ex ++ ((λ t, (t, version, query))
                           <$> retry_times server (length (sent ex))
                                 (now ex) k)
         ∧ ∀ j t t',
             retry_times server (length (sent ex)) (now ex) k !! j = Some t →
             retry_times server (length (sent ex)) (now ex) k !! S j
             = Some t' →
             t' = (t + latency_of (server (length (sent ex) + j)%nat)
                   + seconds 61)%Z).
Proof.
  split.
  - apply AppProps.make_api_request_retries.
  - intros server fuel version query ex n Hn Hfuel.
    destruct (make_request_run server fuel version query ex n Hn Hfuel)
      as (k & ex' & Hk & Hstreak & Hlast & Hm & Hs & _).
    exists k, (value_of (server (length (sent ex) + k))), ex'.
    split_and!; [done..| |done|].
    + intros H429. split; [by apply Hlast|by apply value_of_429].
    + intros j t t'. apply retry_times_step.
Qed.

(** C4 as worded fails for the asynchronous client: an endpoint that answers
    429 ten times gets eleven requests for the one query, more than
    [MAX_RETRIES], each retry leaving 61 s after the reply before it, a
    cooldown that does not grow with the attempt. *)
Lemma make_request_retries_exceed_max :
  let r := make_request (busy_server 10) 11 "v1" "e" init in
  r = Return (JList ["eve"]) (state_of r)
  ∧ ¬ (length (sent (state_of r)) ≤ App.MAX_RETRIES)
  ∧ request_times (state_of r) = (λ i, 61010 * i)%Z <$> seqZ 0 11.
Proof.
  split_and!.
  - by vm_compute.
  - vm_compute. lia.
  - by vm_compute.
Qed.



Lemma retry_bounds_and_cooldowns_witness :
  requests_count init !! "v1" = Some 0
  ∧ 0 < 3
  ∧ ∃ k value ex',
      make_request (busy_server 5) 3 "v1" "e" init = Return value ex'
      ∧ k < 3
      ∧ (is_429 (busy_server 5 (length (sent init) + k)) = true →
         S k = 3 ∧ value = JList []).
Proof.
  assert (requests_count init !! "v1" = Some 0) as Hn by (by vm_compute).
  assert (0 < 3) as Hfuel by lia.
  split; [exact Hn|]. split; [exact Hfuel|].
  destruct (proj2 retry_bounds_and_cooldowns (busy_server 5) 3 "v1" "e"
              init 0 Hn Hfuel)
    as (k & value & ex' & Hm & Hk & _ & Hlast & _).
  exists k, value, ex'. split; [exact Hm|]. split; [exact Hk|exact Hlast].
Defined.

Lemma quick_server_patient : patient quick_server 1.
Proof. intros i. exists 0. split; [lia|done]. Defined.

Lemma quick_server_readable : readable quick_server.
Proof. intros i. by eexists. Defined.

Lemma explore_v3_skips_special_pairs_witness :
  is_Some (requests_count init !! "v3")
  ∧ 0 < 1
  ∧ readable quick_server
  ∧ ∃ ex' new, explore_v3 quick_server 1 init = Return tt ex'
               ∧ sent ex' = sent init ++ new
               ∧ ∃ t, (t, "v3", pair "a" "+") ∈ new.
Proof.
  assert (is_Some (requests_count init !! "v3")) as Hk.
  { exists 0. by vm_compute. }
  assert ("a"%char ∈ chars_v3) as Ha.
  { apply (bool_decide_unpack _). by vm_compute. }
  assert ("+"%char ∈ chars_v3) as Hp.
  { apply (bool_decide_unpack _). by vm_compute. }
  assert (¬ special_pair "a" "+") as Hn.
  { intros [H _]. revert H. apply (bool_decide_unpack _). by vm_compute. }
  split; [exact Hk|]. split; [exact (Nat.lt_0_succ 0)|].
  split; [exact quick_server_readable|].
  destruct (proj2 (proj2 (explore_v3_skips_special_pairs quick_server 1 init))
              Hk (Nat.lt_0_succ 0) quick_server_readable) as [ex' Hm].
  destruct (proj1 (proj2 (explore_v3_skips_special_pairs quick_server 1 init))
              ex' Hm) as (new & Hs & Hall).
  exists ex', new. split_and!; [exact Hm|exact Hs|].
  exact (Hall "a"%char "+"%char Ha Hp Hn).
Defined.

End ExtractorProps.

(** ** The rate of the requests *)
Module RateProps.
Import App AppProps.

(** *** Vocabulary of the statements *)

(** The times at which requests were sent, and at which timestamps were
    recorded, in a trace. *)
Definition send_times (tr : list event) : list Z :=
  omap (λ e, match e with EvSend _ t => Some t | _ => None end) tr.

Definition record_times (tr : list event) : list Z :=
  omap (λ e, match e with EvRecord t => Some t | _ => None end) tr.

(** At most [N] of the [times] lie in any window of length [W]. *)
Definition rate_conformant (N : nat) (W : Z) (times : list Z) : Prop :=
  ∀ t, length (filter (λ s, t ≤ s < t + W)%Z times) ≤ N.

(** The times do not decrease, and each is at least [W] after the one [N]
    places before it. *)
Definition ascending (l : list Z) : Prop :=
  ∀ i j x y, i ≤ j → l !! i = Some x → l !! j = Some y → (x ≤ y)%Z.

Definition spaced (N : nat) (W : Z) (l : list Z) : Prop :=
  ∀ i x y, l !! i = Some x → l !! (i + N) = Some y → (x + W ≤ y)%Z.

(** An attempt that gets a response, after a positive delay. *)
Definition answered (r : reply) : Prop :=
  match r with
  | Response lat _ _ => (0 < lat)%Z
  | RequestException _ => False
  end.

(** What holds of the world between the attempts of callers that do not
    overlap, when every attempt is answered. *)
Definition paced (N : nat) (W : Z) (w : world) : Prop :=
  let sends := send_times (trace w) in
  let records := record_times (trace w) in
  limit (limiter w) = N ∧ window (limiter w) = W ∧
  Forall2 Z.lt sends records ∧
  Forall (λ r, r ≤ clock w)%Z records ∧
  ascending sends ∧
  (∃ k, k ≤ length records ∧ timestamps (limiter w) = drop k records ∧
        ∀ i r, i < k → records !! i = Some r → (r + W < clock w)%Z) ∧
  length (timestamps (limiter w)) ≤ N ∧
  (∀ i r s, records !! i = Some r → sends !! (i + N) = Some s → (r + W ≤ s)%Z).

(** The prefix "a" gets a full page, the other prefixes of the first batch
    get status 500 on every attempt, every other prefix an empty page. The
    pool runs the first two batches of the run. *)
Definition race_endpoint (it : nat) (p : string) (a : nat) : reply :=
  if decide (p = "a")
  then Response 10 200 (Json {| results := Some (JList ["amy"]); count := Some 10%Z |})
  else if bool_decide (p ∈ take MAX_WORKERS seeds)
  then Response 10 500 Malformed
  else Response 10 200 (Json {| results := Some (JList []); count := Some 0%Z |}).

Definition race_world : world :=
  let frontier := bfs_run true race_endpoint in_order in
  let w1 := (Pool.submit_all true race_endpoint 0 (batch_of (frontier 0))
               (shared initial)).2 in
  (Pool.submit_all true race_endpoint 1 (batch_of (frontier 1)) w1).2.

(** An endpoint that is down: the transport fails on every attempt, after
    10 ms. No prefix is expanded, so that the run has two batches. *)
Definition down_endpoint (it : nat) (p : string) (a : nat) : reply :=
  RequestException 10.

Definition down_world : world :=
  let frontier := bfs_run true down_endpoint in_order in
  let w1 := (Pool.submit_all true down_endpoint 0 (batch_of (frontier 0))
               (shared initial)).2 in
  (Pool.submit_all true down_endpoint 1 (batch_of (frontier 1)) w1).2.

(** *** Lemmas and theorems *)

Lemma filter_none {A} (P : A → Prop) `{∀ x, Decision (P x)} (l : list A) :
  Forall (λ x, ¬ P x) l → filter P l = [].
Proof.
  induction 1 as [|x l Hx _ IH]; [done|]. by rewrite filter_cons_False.
Qed.

Lemma ascending_tail x l : ascending (x :: l) → ascending l.
Proof. intros H i j a b Hij Ha Hb. by apply (H (S i) (S j) a b); [lia|..]. Qed.

Lemma spaced_tail N W x l : spaced N W (x :: l) → spaced N W l.
Proof. intros H i a b Ha Hb. by apply (H (S i) a b). Qed.

Lemma spaced_conformant N W l :
  0 < N → ascending l → spaced N W l → rate_conformant N W l.
Proof.
  intros HN Hasc Hsp t. induction l as [|x l IH]; [simpl; lia|].
  specialize (IH (ascending_tail _ _ Hasc) (spaced_tail _ _ _ _ Hsp)).
  rewrite filter_cons. case_decide as Hx; [|done].
  rewrite <- (take_drop (N - 1) l), filter_app.
  rewrite (filter_none _ (drop (N - 1) l)).
  - rewrite app_nil_r. simpl.
    pose proof (length_filter (λ s, t ≤ s < t + W)%Z (take (N - 1) l)).
    rewrite length_take in *. lia.
  - apply Forall_forall. intros y Hy.
    apply list_elem_of_lookup in Hy as [j Hj]. rewrite lookup_drop in Hj.
    destruct (lookup_lt_is_Some_2 (x :: l) j) as [z Hz].
    { apply lookup_lt_Some in Hj. simpl. lia. }
    assert (x ≤ z)%Z by (by apply (Hasc 0 j x z); [lia|..]).
    assert (z + W ≤ y)%Z.
    { apply (Hsp j z y Hz). replace (j + N) with (S (N - 1 + j)) by lia. done. }
    lia.
Qed.

Lemma popleft_older_drop bound ts :
  ∃ j, popleft_older bound ts = drop j ts ∧ j ≤ length ts
       ∧ (∀ i t, i < j → ts !! i = Some t → (t < bound)%Z)
       ∧ (∀ t, head ts = Some t → (t < bound)%Z → 0 < j).
Proof.
  induction ts as [|t ts (j & Heq & Hj & Hold & _)]; simpl.
  { exists 0. split_and!; [done|done|lia|done]. }
  destruct (t <? bound)%Z eqn:E.
  - apply Z.ltb_lt in E. exists (S j). split_and!; [done|lia| |lia].
    intros [|i] t' Hi Ht'; simpl in Ht'; [congruence|]. apply (Hold i); [lia|done].
  - apply Z.ltb_ge in E. exists 0. split_and!; [done|lia|lia|].
    intros t' [= <-] ?. lia.
Qed.

Lemma send_times_snoc tr e :
  send_times (tr ++ [e])
  = send_times tr ++ match e with EvSend _ t => [t] | _ => [] end.
Proof. unfold send_times. rewrite omap_app. by destruct e. Qed.

Lemma record_times_snoc tr e :
  record_times (tr ++ [e])
  = record_times tr ++ match e with EvRecord t => [t] | _ => [] end.
Proof. unfold record_times. rewrite omap_app. by destruct e. Qed.

Lemma paced_wait N W w d :
  paced N W w → (0 ≤ d)%Z → paced N W (advance d w).
Proof.
  intros (HL & HW & Hlt & Hclk & Hasc & (k & Hk & Hts & Hold) & Hlen & Hsp) Hd.
  split_and!; simpl; try done.
  - eapply Forall_impl; [done|]. simpl. intros. lia.
  - exists k. split_and!; [done..|].
    intros i r Hi Hr. specialize (Hold i r Hi Hr). lia.
Qed.

Lemma paced_quiet N W w e :
  paced N W w → is_send e = false → is_record e = false → paced N W (emit e w).
Proof.
  intros H Hs Hr. unfold paced in *. simpl.
  rewrite send_times_snoc, record_times_snoc.
  destruct e; try done; by rewrite !app_nil_r.
Qed.

Lemma paced_sleep N W w d : paced N W w → (0 ≤ d)%Z → paced N W (sleep d w).
Proof. intros H Hd. apply paced_quiet; [by apply paced_wait|done..]. Qed.

Lemma paced_backoff N W w a : paced N W w → paced N W (backoff a w).
Proof.
  intros H. unfold backoff. destruct (a <? MAX_RETRIES - 1); [|done].
  apply paced_sleep; [done|]. unfold seconds.
  pose proof (Z.pow_nonneg 2 (Z.of_nat a)). lia.
Qed.

Lemma wait_if_needed_spec now rl d :
  wait_if_needed now rl = Some d →
  (0 ≤ d)%Z ∧
  (limit rl ≤ length (timestamps rl) →
   ∃ oldest, head (timestamps rl) = Some oldest
             ∧ (oldest + window rl ≤ now + d)%Z).
Proof.
  unfold wait_if_needed.
  destruct (length (timestamps rl) <? limit rl) eqn:E.
  - apply Nat.ltb_lt in E. intros [= <-]. split; [done|lia].
  - destruct (timestamps rl) as [|oldest ts]; [done|]. intros [= <-].
    split; [lia|]. intros _. exists oldest. split; [done|lia].
Qed.

Lemma paced_attempt N W w w1 q lat status b :
  0 < N → paced N W w → throttle w = Some w1 → (0 < lat)%Z →
  paced N W (record (get q (Response lat status b) w1)).
Proof.
  intros HN (HL & HW & Hlt & Hclk & Hasc & (k & Hk & Hts & Hold) & Hlen & Hsp)
    Hthr Hlat.
  unfold throttle in Hthr.
  destruct (wait_if_needed (clock w) (limiter w)) as [d|] eqn:Hwait; [|done].
  injection Hthr as <-.
  apply wait_if_needed_spec in Hwait as [Hd Hfull].
  set (sends := send_times (trace w)) in *. set (records := record_times (trace w)) in *.
  set (c1 := (clock w + d)%Z).
  pose proof (Forall2_length _ _ _ Hlt) as Hlen2.
  assert (∀ i s, sends !! i = Some s → (s ≤ clock w)%Z) as HS.
  { intros i s Hs. destruct (Forall2_lookup_l _ _ _ _ _ Hlt Hs) as (r & Hr & ?).
    pose proof (proj1 (Forall_lookup _ _) Hclk i r Hr). simpl in *. lia. }
  destruct (popleft_older_drop (c1 + lat - W) (timestamps (limiter w)))
    as (j & Hpop & Hj & Hdropped & Hhead).
  assert (length (timestamps (limiter w)) = length records - k) as Hlts.
  { by rewrite Hts, length_drop. }
  unfold paced. simpl.
  rewrite !send_times_snoc, !record_times_snoc. simpl. rewrite !app_nil_r.
  fold sends records c1. rewrite HW.
  assert (c1 = clock w + d)%Z as Hc1 by done. clearbody c1.
  split_and!.
  - done.
  - done.
  - apply Forall2_app; [done|]. repeat constructor. lia.
  - apply Forall_app. split.
    + eapply Forall_impl; [done|]. simpl. intros. lia.
    + constructor; [simpl; lia|constructor].
  - intros i i' x y Hii Hx Hy.
    apply lookup_snoc_Some in Hx as [[Hi Hx]|[Hi ->]];
      apply lookup_snoc_Some in Hy as [[Hi' Hy]|[Hi' ->]].
    + by apply (Hasc i i').
    + apply HS in Hx. lia.
    + lia.
    + lia.
  - exists (k + j). rewrite Hpop, Hts, drop_drop, length_app. simpl.
    split_and!; [lia| |].
    + by rewrite drop_app_le by lia.
    + intros i r Hi Hr.
      rewrite lookup_app_l in Hr by lia.
      destruct (decide (i < k)) as [Hik|Hik].
      * specialize (Hold i r Hik Hr). lia.
      * assert (timestamps (limiter w) !! (i - k) = Some r) as Ht.
        { rewrite Hts, lookup_drop. by replace (k + (i - k)) with i by lia. }
        specialize (Hdropped (i - k) r ltac:(lia) Ht). lia.
  - rewrite length_app, Hpop, length_drop. simpl.
    destruct (decide (length (timestamps (limiter w)) < N)) as [|Hfull']; [lia|].
    destruct Hfull as (oldest & Hold1 & Hold2); [lia|].
    assert (0 < j) by (apply (Hhead oldest); [done|lia]). lia.
  - intros i r s Hr Hs.
    apply lookup_snoc_Some in Hs as [[Hi Hs]|[Hi ->]].
    + rewrite lookup_app_l in Hr by lia. by apply (Hsp i).
    + rewrite lookup_app_l in Hr by lia.
      destruct (decide (length (timestamps (limiter w)) < N)) as [Hshort|Hfull'].
      * assert (i < k) as Hik by lia. specialize (Hold i r Hik Hr). lia.
      * destruct Hfull as (oldest & Hold1 & Hold2); [lia|].
        assert (k = i) as -> by lia.
        rewrite head_lookup, Hts, lookup_drop, Nat.add_0_r in Hold1.
        assert (oldest = r) as -> by congruence. lia.
Qed.

Lemma attempts_paced N W json q net todo w :
  0 < N → paced N W w → (∀ a, a ∈ todo → answered (net a)) →
  paced N W (attempts json q net todo w).2.
Proof.
  intros HN. revert w. induction todo as [|a todo IH]; intros w Hw Hans; simpl.
  { done. }
  destruct (throttle w) as [w1|] eqn:Hthr; [|done].
  assert (∀ a', a' ∈ todo → answered (net a')) as Hans'.
  { intros a' Ha'. apply Hans. by right. }
  pose proof (Hans a (list_elem_of_here _ _)) as Ha.
  destruct (net a) as [lat status b|lat] eqn:Hnet; [|done]. simpl in Ha.
  pose proof (paced_attempt N W w w1 q lat status b HN Hw Hthr Ha) as Hw2.
  destruct (status =? 200)%Z.
  - destruct b; [done|]. destruct json; [|done].
    apply IH; [|done]. by apply paced_backoff.
  - destruct (status =? 429)%Z; (apply IH; [|done]).
    + apply paced_sleep; [done|]. unfold seconds. lia.
    + by apply paced_backoff.
Qed.

Lemma paced_initial : paced RATE_LIMIT (seconds 60) (shared initial).
Proof.
  unfold paced. simpl. split_and!.
  - done.
  - done.
  - apply Forall2_nil_2.
  - apply Forall_nil_2.
  - intros i j x y _ Hx. done.
  - exists 0. split_and!; [done..|]. intros; lia.
  - lia.
  - intros i r s Hr. done.
Qed.

Lemma paced_spaced N W w :
  0 < N → paced N W w → 
  ascending (send_times (trace w)) ∧ spaced N W (send_times (trace w)).
Proof.
  intros HN (_ & _ & Hlt & _ & Hasc & _ & _ & Hsp). split; [done|].
  intros i x y Hx Hy.
  destruct (Forall2_lookup_l _ _ _ _ _ Hlt Hx) as (r & Hr & Hxr).
  specialize (Hsp i r y Hr Hy). lia.
Qed.

Section Paced.

Variable json_error_caught : bool.
Variable endpoint : nat → string → nat → reply.
Variable as_completed :
  nat → list (string * fetched) → list (string * fetched).

Local Abbreviation submit_all := (submit_all json_error_caught endpoint).
Local Abbreviation bfs_iteration :=
  (bfs_iteration json_error_caught endpoint as_completed).
Local Abbreviation bfs_run := (bfs_run json_error_caught endpoint as_completed).

(** Every attempt for every prefix gets a response, after a positive
    delay. *)
Hypothesis all_answered :
  ∀ it p a, a < MAX_RETRIES → answered (endpoint it p a).

Lemma submit_all_paced N W it batch w :
  0 < N → paced N W w → paced N W (submit_all it batch w).2.
Proof.
  intros HN. revert w. induction batch as [|p batch IH]; intros w Hw; simpl.
  { done. }
  assert (paced N W (attempts json_error_caught p (endpoint it p)
                       (seq 0 MAX_RETRIES) w).2) as Hw1.
  { apply attempts_paced; [done..|].
    intros a Ha%elem_of_seq. apply all_answered. lia. }
  unfold make_api_request.
  destruct (attempts _ _ _ _ w) as [r w1]. cbn [fst snd] in Hw1.
  specialize (IH w1 Hw1). by destruct (submit_all it batch w1) as [fs w2].
Qed.

Lemma bfs_iteration_paced N W st :
  0 < N → paced N W (shared st) → paced N W (shared (bfs_iteration st)).
Proof.
  intros HN Hw. unfold App.bfs_iteration.
  destruct (take_batch _ _ _ _) as [[q seen] batch].
  destruct batch as [|p batch]; [done|].
  pose proof (submit_all_paced N W (iteration st) (p :: batch) (shared st) HN Hw)
    as Hw'.
  destruct (submit_all _ _ _) as [fs w].
  by rewrite foldl_handle_shared.
Qed.

Lemma bfs_run_paced n : paced RATE_LIMIT (seconds 60) (shared (bfs_run n)).
Proof.
  induction n as [|n IH]; simpl; [apply paced_initial|].
  destruct (queue (bfs_run n)); [done|].
  apply bfs_iteration_paced; [unfold RATE_LIMIT; lia|done].
Qed.

(** The arithmetic of the limiter is right for one caller at a time whose
    attempts all get a response after a positive delay: were the calls of
    [make_api_request] made one after the other, any window of 60 seconds
    would hold at most [RATE_LIMIT] = 100 of the requests sent. *)
Lemma rate_conformant_without_overlap n :
  rate_conformant RATE_LIMIT (seconds 60)
    (send_times (trace (shared (bfs_run n)))).
Proof.
  assert (0 < RATE_LIMIT) as HN by (unfold RATE_LIMIT; lia).
  destruct (paced_spaced _ _ _ HN (bfs_run_paced n)) as [Hasc Hsp].
  by apply spaced_conformant.
Qed.

End Paced.

Lemma at_time_clock w : Pool.at_time (clock w) w = w.
Proof. by destruct w. Qed.

Lemma world_max_clock t w : (t ≤ clock w)%Z →
  {| clock := Z.max t (clock w); limiter := limiter w; trace := trace w |} = w.
Proof. intros H. destruct w as [c l tr]. simpl in *. f_equal. lia. Qed.

Lemma throttle_clock w w1 : throttle w = Some w1 → (clock w ≤ clock w1)%Z.
Proof.
  unfold throttle. destruct (wait_if_needed _ _) as [d|] eqn:E; [|done].
  intros [= <-]. apply wait_if_needed_spec in E as [? _]. simpl. lia.
Qed.

Lemma backoff_clock a w : (clock w ≤ clock (backoff a w))%Z.
Proof.
  unfold backoff. destruct (a <? MAX_RETRIES - 1); [|done]. simpl.
  unfold seconds. pose proof (Z.pow_nonneg 2 (Z.of_nat a)). lia.
Qed.

Section Single.

Variable json : bool.

Lemma run_step_single fuel wk w wk' w' :
  Pool.runnable wk = true → Pool.ready wk = clock w →
  Pool.step json wk w = (wk', w') → (clock w ≤ clock w')%Z →
  Pool.run json (S fuel) [wk] w = Pool.run json fuel [wk'] w'.
Proof.
  intros Hrun Hready Hstep Hclk. simpl. rewrite Hrun. simpl. rewrite Hstep.
  simpl. by rewrite world_max_clock.
Qed.

Lemma run_finished fuel wk w r :
  Pool.at_point wk = Pool.Finished r → Pool.run json fuel [wk] w = ([wk], w).
Proof.
  intros H. destruct fuel; [done|]. simpl. unfold Pool.runnable. by rewrite H.
Qed.

Lemma enter_end a : a = MAX_RETRIES → Pool.enter a = Pool.Finished (Returned None).
Proof. intros ->. done. Qed.

Lemma enter_round a : a < MAX_RETRIES → Pool.enter a = Pool.AtThrottle a.
Proof. intros H. unfold Pool.enter. by rewrite (proj2 (Nat.ltb_lt _ _)) by lia. Qed.

(** A worker alone goes through its attempts as the loop of
    [make_api_request] does. *)
Lemma run_from n : ∀ a fuel q net w,
  a + n = MAX_RETRIES → 3 * n ≤ fuel →
  (∀ a, 0 ≤ latency_of (net a))%Z →
  Pool.run json fuel [Pool.mkWorker q net (Pool.enter a) (clock w)] w
  = ([Pool.mkWorker q net
        (Pool.Finished (attempts json q net (seq a n) w).1)
        (clock (attempts json q net (seq a n) w).2)],
     (attempts json q net (seq a n) w).2).
Proof.
  induction n as [|n IH]; intros a fuel q net w Ha Hfuel Hlat.
  { rewrite enter_end by lia. by apply run_finished with (Returned None). }
  rewrite enter_round by lia.
  destruct fuel as [|[|[|fuel]]]; [lia..|].
  cbn [seq attempts].
  destruct (throttle w) as [w1|] eqn:Hthr.
  2:{ rewrite (run_step_single _ _ _
              (Pool.mkWorker q net (Pool.Finished Raised) (clock w)) w);
        [by apply run_finished with Raised|done|done| |done].
      unfold Pool.step. simpl. by rewrite at_time_clock, Hthr. }
  pose proof (throttle_clock _ _ Hthr) as Hc1.
  rewrite (run_step_single _ _ _
         (Pool.mkWorker q net (Pool.AtGet a) (clock w1)) w1);
       [|done|done|by unfold Pool.step; simpl; rewrite at_time_clock, Hthr|done].
  pose proof (Hlat a) as Hla.
  rewrite (run_step_single _ _ _
         (Pool.mkWorker q net (Pool.AtReply a)
            (clock (get q (net a) w1)))
         (get q (net a) w1));
       [|done|done|by unfold Pool.step; simpl; rewrite at_time_clock
        |simpl; lia].
  set (w2 := get q (net a) w1) in *.
  assert (∀ w3, (clock w2 ≤ clock w3)%Z →
    Pool.step json (Pool.mkWorker q net (Pool.AtReply a) (clock w2)) w2
    = (Pool.mkWorker q net (Pool.enter (S a)) (clock w3), w3) →
    Pool.run json (S fuel)
      [Pool.mkWorker q net (Pool.AtReply a) (clock w2)] w2
    = ([Pool.mkWorker q net
          (Pool.Finished (attempts json q net (seq (S a) n) w3).1)
          (clock (attempts json q net (seq (S a) n) w3).2)],
       (attempts json q net (seq (S a) n) w3).2)) as Hcont.
  { intros w3 Hc3 Hstep.
    erewrite (run_step_single fuel); [|done|done|exact Hstep|done].
    apply IH; [lia|lia|done]. }
  assert (∀ r w3, (clock w2 ≤ clock w3)%Z →
    Pool.step json (Pool.mkWorker q net (Pool.AtReply a) (clock w2)) w2
    = (Pool.mkWorker q net (Pool.Finished r) (clock w3), w3) →
    Pool.run json (S fuel)
      [Pool.mkWorker q net (Pool.AtReply a) (clock w2)] w2
    = ([Pool.mkWorker q net (Pool.Finished r) (clock w3)], w3)) as Hstop.
  { intros r w3 Hc3 Hstep.
    erewrite (run_step_single fuel); [|done|done|exact Hstep|done].
    by apply run_finished with r. }
  unfold Pool.step in Hcont, Hstop.
  cbn [Pool.at_point Pool.ready Pool.net Pool.query Pool.move] in Hcont, Hstop.
  rewrite at_time_clock in Hcont, Hstop.
  destruct (net a) as [lat status b|lat] eqn:Hnet.
  - destruct (status =? 200)%Z.
    + destruct b as [p|].
      * by apply Hstop.
      * destruct json.
        -- apply Hcont; [|done]. etrans; [|apply backoff_clock]. done.
        -- by apply Hstop.
    + destruct (status =? 429)%Z.
      * apply Hcont; [|done]. simpl. unfold seconds. lia.
      * apply Hcont; [|done]. etrans; [|apply backoff_clock]. done.
  - apply Hcont; [|done]. apply backoff_clock.
Qed.

Lemma pool_single endpoint it p w :
  (∀ a, 0 ≤ latency_of (endpoint it p a))%Z →
  Pool.submit_all json endpoint it [p] w = submit_all json endpoint it [p] w.
Proof.
  intros Hlat. unfold Pool.submit_all. simpl length. cbn [fmap list_fmap].
  rewrite (run_from MAX_RETRIES 0); [|done|simpl; lia|done].
  unfold submit_all, make_api_request.
  by destruct (attempts _ _ _ _ _).
Qed.

End Single.

(** The asynchronous explorer has no rate limiter: against an endpoint that
    answers in 10 ms, its exploration of the first version sends 702
    requests within 8 seconds. *)
Lemma explorer_sends_unpaced :
  ¬ rate_conformant RATE_LIMIT (seconds 60)
      (ExtractorProps.request_times
         (Extractor.state_of
            (Extractor.main ExtractorProps.quick_server 1 "v1"))).
Proof. intros H. specialize (H 0%Z). vm_compute in H. lia. Qed.

(** C2, the code at two runs of app.py under its thread pool. The limiter
    of app.py is made for [RATE_LIMIT] = 100 requests in 60 seconds, and
    the requests exceed it. The workers of a batch all pass
    [wait_if_needed] before any of them records its request: with 96
    timestamps recorded in the first 16 seconds, the 20 workers of the
    second batch send at once, which makes 116 requests in one window. And
    an attempt whose transport raises is never recorded: against an
    endpoint that is down, 130 requests leave in 31 seconds while the
    limiter holds no timestamp. *)
Theorem rate_limit_exceeded :
  limit (limiter (shared initial)) = 100
  ∧ window (limiter (shared initial)) = seconds 60
  ∧ ¬ rate_conformant RATE_LIMIT (seconds 60) (send_times (trace race_world))
  ∧ length (filter (λ s, 0 ≤ s < seconds 60)%Z (send_times (trace race_world)))
    = 116
  ∧ ¬ rate_conformant RATE_LIMIT (seconds 60) (send_times (trace down_world))
  ∧ length (filter (λ s, 0 ≤ s < seconds 60)%Z (send_times (trace down_world)))
    = 130
  ∧ timestamps (limiter down_world) = [].
Proof.
  split_and!.
  - by vm_compute.
  - by vm_compute.
  - intros H. specialize (H 0%Z). vm_compute in H. lia.
  - by vm_compute.
  - intros H. specialize (H 0%Z). vm_compute in H. lia.
  - by vm_compute.
  - by vm_compute.
Qed.

End RateProps.

(** ** The rate limiter and the client of app.py, further *)
Module ClientProps.
Import App AppProps RateProps.

(** *** Vocabulary of the statements *)

(** The state of a limiter that one caller at a time uses, at time [now]:
    it holds at most [limit] timestamps, in ascending order, none of them
    in the future. *)
Definition limiter_ok (now : Z) (rl : RateLimiter) : Prop :=
  0 < limit rl ∧ (0 ≤ window rl)%Z
  ∧ length (timestamps rl) ≤ limit rl
  ∧ ascending (timestamps rl)
  ∧ ∀ t, t ∈ timestamps rl → (t ≤ now)%Z.

(** One use of the limiter, as an attempt of [make_api_request] makes it,
    by a caller that has the limiter for itself: [gap] after the time of
    the state it calls [wait_if_needed] and sleeps as long as that says,
    then it sends its request and, when the answer has come after [lat],
    calls [add_request]. [None] is the [IndexError] of [wait_if_needed]. *)
Definition use (state : Z * RateLimiter) (call : Z * Z)
    : option (Z * RateLimiter) :=
  let '(now, rl) := state in
  let '(gap, lat) := call in
  match wait_if_needed (now + gap) rl with
  | None => None
  | Some d =>
    let now' := (now + gap + d + lat)%Z in Some (now', add_request now' rl)
  end.

Fixpoint uses (state : Z * RateLimiter) (calls : list (Z * Z))
    : option (Z * RateLimiter) :=
  match calls with
  | [] => Some state
  | call :: calls' =>
    match use state call with
    | None => None
    | Some state' => uses state' calls'
    end
  end.

(** A limiter of two requests a minute that is full. *)
Definition sample_limiter : RateLimiter :=
  {| limit := 2; window := seconds 60; timestamps := [1000; 50000]%Z |}.

(** *** Lemmas and theorems *)

Lemma popleft_older_head bound ts t :
  head (popleft_older bound ts) = Some t → (bound ≤ t)%Z.
Proof.
  induction ts as [|x ts IH]; simpl; [done|].
  destruct (x <? bound)%Z eqn:E; [done|].
  intros [= <-]. by apply Z.ltb_ge in E.
Qed.

Lemma popleft_older_kept bound ts t :
  ascending ts → t ∈ popleft_older bound ts → (bound ≤ t)%Z.
Proof.
  intros Hasc.
  destruct (popleft_older_drop bound ts) as (j & Hpop & _).
  intros [i Hi]%list_elem_of_lookup.
  destruct (popleft_older bound ts) as [|t0 rest] eqn:Hd; [done|].
  assert (bound ≤ t0)%Z.
  { apply (popleft_older_head _ ts). by rewrite Hd. }
  assert (t0 ≤ t)%Z; [|lia].
  apply (Hasc j (j + i) t0 t); [lia| |].
  - rewrite <- (Nat.add_0_r j), <- lookup_drop, <- Hpop. done.
  - by rewrite <- lookup_drop, <- Hpop.
Qed.

(** After [add_request] the timestamps are in order and within the
    window. *)
Lemma add_request_sound now rl :
  (0 ≤ window rl)%Z →
  ascending (timestamps rl) →
  (∀ t, t ∈ timestamps rl → (t ≤ now)%Z) →
  ascending (timestamps (add_request now rl))
  ∧ ∀ t, t ∈ timestamps (add_request now rl) →
         (now - window rl ≤ t ≤ now)%Z.
Proof.
  intros HW Hasc Hle.
  destruct (popleft_older_drop (now - window rl) (timestamps rl))
    as (j & Hpop & _).
  pose proof (popleft_older_kept (now - window rl) (timestamps rl)) as Hkept.
  cbn [add_request timestamps]. rewrite Hpop in *. split.
  - intros i i' x y Hii Hx Hy.
    apply lookup_snoc_Some in Hx as [[Hi Hx]|[Hi ->]];
      apply lookup_snoc_Some in Hy as [[Hi' Hy]|[Hi' ->]].
    + rewrite lookup_drop in Hx, Hy. apply (Hasc (j + i) (j + i')); [lia|done..].
    + apply Hle. eapply subseteq_drop, list_elem_of_lookup_2, Hx.
    + lia.
    + lia.
  - intros t [Ht| ->%list_elem_of_singleton]%elem_of_app; [|lia].
    split; [by apply Hkept|]. apply Hle. by eapply subseteq_drop.
Qed.

(** X1. [add_request] at time [now], on timestamps in ascending order and
    not in the future: the limit and the window stay, [now] becomes the
    last timestamp, the timestamps stay in order, all of them lie within
    the window that ends at [now], and every earlier timestamp within that
    window is kept. *)
Theorem add_request_keeps_window now rl :
  (0 ≤ window rl)%Z →
  ascending (timestamps rl) →
  (∀ t, t ∈ timestamps rl → (t ≤ now)%Z) →
  let rl' := add_request now rl in
  limit rl' = limit rl ∧ window rl' = window rl
  ∧ last (timestamps rl') = Some now
  ∧ ascending (timestamps rl')
  ∧ (∀ t, t ∈ timestamps rl' → (now - window rl ≤ t ≤ now)%Z)
  ∧ (∀ t, t ∈ timestamps rl → (now - window rl ≤ t)%Z → t ∈ timestamps rl').
Proof.
  intros HW Hasc Hle rl'.
  destruct (add_request_sound now rl HW Hasc Hle) as [Hasc' Hin'].
  destruct (popleft_older_drop (now - window rl) (timestamps rl))
    as (j & Hpop & Hj & Hdropped & _).
  assert (timestamps rl' = drop j (timestamps rl) ++ [now]) as Hts.
  { unfold rl', add_request. simpl. by rewrite Hpop. }
  split_and!; try done.
  - rewrite Hts. apply last_snoc.
  - rewrite Hts. intros t [i Hi]%list_elem_of_lookup Ht.
    apply elem_of_app. left. apply list_elem_of_lookup.
    exists (i - j). rewrite lookup_drop.
    destruct (decide (i < j)) as [Hij|Hij].
    { specialize (Hdropped i t Hij Hi). lia. }
    by replace (j + (i - j)) with i by lia.
Qed.

(** What [wait_if_needed] does on a full limiter. *)
Lemma wait_if_needed_full now rl oldest :
  limit rl ≤ length (timestamps rl) →
  head (timestamps rl) = Some oldest →
  ∃ d, wait_if_needed now rl = Some d
       ∧ (0 ≤ d)%Z ∧ (oldest + window rl ≤ now + d)%Z
       ∧ ((now - oldest < window rl)%Z → (now + d = oldest + window rl)%Z)
       ∧ ((window rl ≤ now - oldest)%Z → d = 0%Z).
Proof.
  intros Hfull Hhead. unfold wait_if_needed.
  rewrite (proj2 (Nat.ltb_ge _ _) Hfull).
  destruct (timestamps rl) as [|t ts]; [done|]. injection Hhead as ->.
  eexists. split; [done|]. lia.
Qed.

(** X2. [wait_if_needed]: it fails (with the [IndexError] of
    [self.timestamps[0]]) exactly when the limit is 0 and no timestamp is
    held; below the limit it does not wait; on a full limiter it waits
    until the oldest timestamp is one window old, and not at all when that
    is already so. *)
Theorem wait_if_needed_behaviour now rl :
  (wait_if_needed now rl = None ↔ limit rl = 0 ∧ timestamps rl = [])
  ∧ (length (timestamps rl) < limit rl → wait_if_needed now rl = Some 0%Z)
  ∧ (∀ oldest, limit rl ≤ length (timestamps rl) →
       head (timestamps rl) = Some oldest →
       ∃ d, wait_if_needed now rl = Some d
            ∧ (0 ≤ d)%Z ∧ (oldest + window rl ≤ now + d)%Z
            ∧ ((now - oldest < window rl)%Z → (now + d = oldest + window rl)%Z)
            ∧ ((window rl ≤ now - oldest)%Z → d = 0%Z)).
Proof.
  split_and!.
  - unfold wait_if_needed.
    destruct (length (timestamps rl) <? limit rl) eqn:E.
    + apply Nat.ltb_lt in E. split; [done|]. intros [H0 Hnil].
      rewrite Hnil in E. simpl in E. lia.
    + apply Nat.ltb_ge in E. destruct (timestamps rl) as [|t ts]; simpl in *.
      * split; [intros _; split; [lia|done]|done].
      * split; [done|]. by intros [_ ?].
  - intros H. unfold wait_if_needed. by rewrite (proj2 (Nat.ltb_lt _ _) H).
  - intros oldest. apply wait_if_needed_full.
Qed.

Lemma limiter_ok_later now now' rl :
  limiter_ok now rl → (now ≤ now')%Z → limiter_ok now' rl.
Proof.
  intros (HN & HW & Hlen & Hasc & Hin) Hle. split_and!; try done.
  intros t Ht. specialize (Hin t Ht). lia.
Qed.

(** One use keeps the state of the limiter, and waits one window at most. *)
Lemma use_ok now rl gap lat :
  limiter_ok now rl → (0 ≤ gap)%Z → (0 < lat)%Z →
  ∃ d, wait_if_needed (now + gap) rl = Some d ∧ (0 ≤ d ≤ window rl)%Z
       ∧ limiter_ok (now + gap + d + lat)
           (add_request (now + gap + d + lat) rl).
Proof.
  intros (HN & HW & Hlen & Hasc & Hin) Hgap Hlat.
  assert (∃ d, wait_if_needed (now + gap) rl = Some d ∧ (0 ≤ d ≤ window rl)%Z
    ∧ (length (timestamps rl) = limit rl →
       ∃ oldest, head (timestamps rl) = Some oldest
                 ∧ (oldest + window rl ≤ now + gap + d)%Z))
    as (d & Hd & Hd0 & Hd1).
  { destruct (decide (length (timestamps rl) < limit rl)) as [Hlt|Hge].
    - exists 0%Z. unfold wait_if_needed.
      rewrite (proj2 (Nat.ltb_lt _ _) Hlt). split; [done|]. split; lia.
    - destruct (timestamps rl) as [|oldest ts] eqn:Hts; [simpl in *; lia|].
      destruct (wait_if_needed_full (now + gap) rl oldest)
        as (d & Hd & Hd0 & Hd1 & Hd2 & Hd3); [rewrite Hts; lia|by rewrite Hts|].
      exists d. split; [done|]. split.
      + assert (oldest ≤ now)%Z by (apply Hin; left).
        destruct (decide (now + gap - oldest < window rl)%Z); [|lia].
        specialize (Hd2 ltac:(done)). lia.
      + intros _. by exists oldest. }
  exists d. split; [done|]. split; [done|].
  destruct (add_request_sound (now + gap + d + lat) rl HW Hasc) as [Hasc' Hin'].
  { intros t Ht. specialize (Hin t Ht). lia. }
  split_and!; try done.
  - cbn [add_request timestamps limit]. rewrite length_app. simpl.
    destruct (popleft_older_drop (now + gap + d + lat - window rl)
                (timestamps rl)) as (j & -> & Hj & _ & Hhead).
    rewrite length_drop.
    destruct (decide (length (timestamps rl) < limit rl)) as [Hlt|Hge]; [lia|].
    destruct Hd1 as (oldest & Hold & Hold'); [lia|].
    specialize (Hhead oldest Hold ltac:(lia)). lia.
  - intros t Ht. by destruct (Hin' t Ht).
Qed.

(** X3. A limiter used by one caller at a time never holds more than
    [limit] timestamps, however long the caller pauses between its calls:
    from a state with at most [limit] timestamps, in order and none in the
    future, every sequence of uses (wait as [wait_if_needed] says, send,
    [add_request] once the answer has come after a positive delay) goes
    through without an [IndexError], and leaves such a state again, with
    the limit and the window it had. *)
Theorem limiter_holds_at_most_limit calls : ∀ now rl,
  limiter_ok now rl →
  Forall (λ call, (0 ≤ call.1)%Z ∧ (0 < call.2)%Z) calls →
  ∃ now' rl',
    uses (now, rl) calls = Some (now', rl')
    ∧ (now ≤ now')%Z
    ∧ limiter_ok now' rl'
    ∧ length (timestamps rl') ≤ limit rl
    ∧ limit rl' = limit rl ∧ window rl' = window rl.
Proof.
  induction calls as [|[gap lat] calls IH]; intros now rl Hok Hcalls.
  { exists now, rl. split_and!; try done. by destruct Hok as (_ & _ & ? & _). }
  apply Forall_cons in Hcalls as [[Hgap Hlat] Hcalls]. cbn [fst snd] in *.
  destruct (use_ok now rl gap lat Hok Hgap Hlat) as (d & Hd & Hd0 & Hok').
  destruct (IH _ _ Hok' Hcalls) as (now' & rl' & Hu & Hle & Hok'' & Hn & HL & HW).
  exists now', rl'. cbn [uses use]. rewrite Hd.
  split_and!; try done. lia.
Qed.

Lemma count_send_snoc tr e :
  count_events is_send (tr ++ [e])
  = count_events is_send tr + (if is_send e then 1 else 0).
Proof.
  unfold count_events. rewrite filter_app, length_app. f_equal.
  by destruct e.
Qed.

Lemma count_send_backoff a w :
  count_events is_send (trace (backoff a w)) = count_events is_send (trace w).
Proof.
  unfold backoff. destruct (a <? MAX_RETRIES - 1); [|done].
  simpl. rewrite count_send_snoc. simpl. lia.
Qed.

Lemma count_send_throttle w w1 :
  throttle w = Some w1 →
  count_events is_send (trace w1) = count_events is_send (trace w).
Proof.
  intros (d & -> & _)%throttle_Some. rewrite count_send_snoc. simpl. lia.
Qed.

(** The attempts made before the first one that is answered 200 with a
    body that parses all fail. *)
Lemma attempts_first_success json q net todo1 a todo2 w lat p :
  limit (limiter w) ≠ 0 →
  (∀ x, x ∈ todo1 → failing json (net x)) →
  net a = Response lat 200 (Json p) →
  (attempts json q net (todo1 ++ a :: todo2) w).1 = Returned (Some p)
  ∧ count_events is_send (trace (attempts json q net (todo1 ++ a :: todo2) w).2)
    = count_events is_send (trace w) + S (length todo1).
Proof.
  revert w. induction todo1 as [|x todo1 IH]; intros w Hl Hfail Ha.
  - simpl. destruct (throttle_limit w Hl) as [w1 Hw1]. rewrite Hw1, Ha. simpl.
    split; [done|]. rewrite !count_send_snoc. simpl.
    rewrite (count_send_throttle _ _ Hw1). lia.
  - cbn [app attempts length].
    destruct (throttle_limit w Hl) as [w1 Hw1]. rewrite Hw1.
    pose proof (count_send_throttle _ _ Hw1) as Hs1.
    apply throttle_Some in Hw1 as (d & _ & _ & Hlim).
    assert (∀ y, y ∈ todo1 → failing json (net y)) as Hfail'.
    { intros y Hy. apply Hfail. by right. }
    pose proof (Hfail x (list_elem_of_here _ _)) as Hx.
    assert (∀ w3, limit (limiter w3) ≠ 0 →
              count_events is_send (trace w3)
              = count_events is_send (trace w) + 1 →
      (attempts json q net (todo1 ++ a :: todo2) w3).1 = Returned (Some p)
      ∧ count_events is_send
          (trace (attempts json q net (todo1 ++ a :: todo2) w3).2)
        = count_events is_send (trace w) + S (S (length todo1))) as Hnext.
    { intros w3 Hl3 Hs3. destruct (IH w3 Hl3 Hfail' Ha) as [-> ->].
      split; [done|lia]. }
    destruct (net x) as [lat' status b|lat']; simpl in Hx.
    + destruct (status =? 200)%Z eqn:E.
      * apply Z.eqb_eq in E. destruct Hx as [?|[-> ->]]; [done|].
        apply Hnext.
        -- rewrite backoff_limiter. simpl. by rewrite Hlim.
        -- rewrite count_send_backoff. simpl.
           rewrite !count_send_snoc, Hs1. simpl. lia.
      * destruct (status =? 429)%Z; apply Hnext.
        -- simpl. by rewrite Hlim.
        -- simpl. rewrite !count_send_snoc, Hs1. simpl. lia.
        -- rewrite backoff_limiter. simpl. by rewrite Hlim.
        -- rewrite count_send_backoff. simpl.
           rewrite !count_send_snoc, Hs1. simpl. lia.
    + apply Hnext.
      * rewrite backoff_limiter. simpl. by rewrite Hlim.
      * rewrite count_send_backoff. simpl.
        rewrite !count_send_snoc, Hs1. simpl. lia.
Qed.

Lemma seq_split_at k :
  k < MAX_RETRIES →
  seq 0 MAX_RETRIES = seq 0 k ++ k :: seq (S k) (MAX_RETRIES - S k).
Proof.
  intros Hk. rewrite cons_seq. change k with (0 + k) at 2.
  rewrite <- seq_app. f_equal. lia.
Qed.

(** X4. When the attempts numbered below [k] of a call all fail (transport
    error, status other than 200, or an unparseable body whose error is
    caught) and attempt [k], one of the [MAX_RETRIES], is answered 200 with
    a body that parses, [make_api_request] returns that body, and it has
    sent [k + 1] requests, no more. *)
Theorem make_api_request_first_success json q net w k lat p :
  limit (limiter w) ≠ 0 →
  k < MAX_RETRIES →
  (∀ a, a < k → failing json (net a)) →
  net k = Response lat 200 (Json p) →
  (make_api_request json q net w).1 = Returned (Some p)
  ∧ count_events is_send (trace (make_api_request json q net w).2)
    = count_events is_send (trace w) + S k.
Proof.
  intros Hl Hk Hfail Hnet. unfold make_api_request.
  rewrite (seq_split_at k Hk).
  destruct (attempts_first_success json q net (seq 0 k) k
              (seq (S k) (MAX_RETRIES - S k)) w lat p) as [H1 H2];
    [done| |done|].
  { intros x [_ ?]%elem_of_seq. apply Hfail. lia. }
  rewrite length_seq in H2. done.
Qed.

(** A [Some] body comes from an attempt answered 200 with that body. *)
Lemma attempts_returned json q net todo w p :
  (attempts json q net todo w).1 = Returned (Some p) →
  ∃ a lat, a ∈ todo ∧ net a = Response lat 200 (Json p).
Proof.
  revert w. induction todo as [|a todo IH]; intros w; simpl; [done|].
  assert (∀ w', (attempts json q net todo w').1 = Returned (Some p) →
    ∃ a0 lat, a0 ∈ a :: todo ∧ net a0 = Response lat 200 (Json p)) as Hnext.
  { intros w' (a' & lat' & ? & ?)%IH. exists a', lat'. split; [by right|done]. }
  destruct (throttle w) as [w1|]; [|done].
  destruct (net a) as [lat status b|lat] eqn:Hnet.
  - destruct (status =? 200)%Z eqn:E.
    + apply Z.eqb_eq in E as ->. destruct b as [p'|].
      * simpl. intros [= ->]. exists a, lat. split; [left|done].
      * destruct json; [apply Hnext|done].
    + destruct (status =? 429)%Z; apply Hnext.
  - apply Hnext.
Qed.

(** A call sends at most one request for each attempt, and at least one
    when the limiter lets it through. *)
Lemma attempts_sends json q net todo w :
  count_events is_send (trace (attempts json q net todo w).2)
    ≤ count_events is_send (trace w) + length todo
  ∧ (limit (limiter w) ≠ 0 → todo ≠ [] →
     count_events is_send (trace w) + 1
       ≤ count_events is_send (trace (attempts json q net todo w).2))
  ∧ count_events is_send (trace w)
      ≤ count_events is_send (trace (attempts json q net todo w).2).
Proof.
  revert w. induction todo as [|a todo IH]; intros w; simpl.
  { split_and!; [lia|done|lia]. }
  destruct (throttle w) as [w1|] eqn:Hthr.
  2:{ simpl. split_and!; [lia| |lia]. intros Hl _.
      destruct (throttle_limit w Hl) as [? ?]. congruence. }
  pose proof (count_send_throttle _ _ Hthr) as Hs1.
  assert (∀ w3, count_events is_send (trace w3)
                = count_events is_send (trace w) + 1 →
    count_events is_send (trace (attempts json q net todo w3).2)
      ≤ count_events is_send (trace w) + S (length todo)
    ∧ (limit (limiter w) ≠ 0 → a :: todo ≠ [] →
       count_events is_send (trace w) + 1
         ≤ count_events is_send (trace (attempts json q net todo w3).2))
    ∧ count_events is_send (trace w)
        ≤ count_events is_send (trace (attempts json q net todo w3).2))
    as Hnext.
  { intros w3 Hw3. destruct (IH w3) as (Hup & _ & Hmono). lia. }
  destruct (net a) as [lat status b|lat] eqn:Hnet.
  - assert (count_events is_send
              (trace (record (get q (Response lat status b) w1)))
            = count_events is_send (trace w) + 1) as Hw2.
    { simpl. rewrite !count_send_snoc, Hs1. simpl. lia. }
    destruct (status =? 200)%Z.
    + destruct b as [p|].
      * simpl in *. lia.
      * destruct json; [|simpl in *; lia].
        apply Hnext. by rewrite count_send_backoff.
    + destruct (status =? 429)%Z; apply Hnext.
      * simpl. simpl in Hw2. rewrite count_send_snoc. simpl. lia.
      * by rewrite count_send_backoff.
  - apply Hnext. rewrite count_send_backoff. simpl.
    rewrite count_send_snoc, Hs1. simpl. lia.
Qed.

(** What a call returns depends neither on the query nor on the clock, the
    timestamps and the trace it starts from. *)
Lemma attempts_query json q q' net todo w w' :
  limit (limiter w) ≠ 0 → limit (limiter w') ≠ 0 →
  (attempts json q net todo w).1 = (attempts json q' net todo w').1.
Proof.
  revert w w'. induction todo as [|a todo IH]; intros w w' Hl Hl'; simpl.
  { done. }
  destruct (throttle_limit w Hl) as [w1 Hw1].
  destruct (throttle_limit w' Hl') as [w1' Hw1']. rewrite Hw1, Hw1'.
  apply throttle_Some in Hw1 as (d & _ & _ & Hlim).
  apply throttle_Some in Hw1' as (d' & _ & _ & Hlim').
  destruct (net a) as [lat status b|lat].
  - destruct (status =? 200)%Z.
    + destruct b; [done|]. destruct json; [|done].
      apply IH; rewrite backoff_limiter; simpl; congruence.
    + destruct (status =? 429)%Z; apply IH;
        rewrite ?backoff_limiter; simpl; congruence.
  - apply IH; rewrite backoff_limiter; simpl; congruence.
Qed.

Lemma sample_limiter_ascending : ascending (timestamps sample_limiter).
Proof.
  intros i j x y Hij Hx Hy.
  destruct i as [|[|i]]; destruct j as [|[|j]]; simplify_eq/=; lia.
Defined.

Lemma sample_limiter_past :
  ∀ t, t ∈ timestamps sample_limiter → (t ≤ 70000)%Z.
Proof.
  intros t Ht. simpl in Ht.
  repeat (apply elem_of_cons in Ht as [->|Ht]; [lia|]).
  by apply elem_of_nil in Ht.
Defined.

Lemma add_request_keeps_window_witness :
  (0 ≤ window sample_limiter)%Z
  ∧ ascending (timestamps sample_limiter)
  ∧ (∀ t, t ∈ timestamps sample_limiter → (t ≤ 70000)%Z)
  ∧ last (timestamps (add_request 70000 sample_limiter)) = Some 70000%Z.
Proof.
  assert (0 ≤ window sample_limiter)%Z as HW by (by vm_compute).
  split; [exact HW|]. split; [exact sample_limiter_ascending|].
  split; [exact sample_limiter_past|].
  exact (proj1 (proj2 (proj2 (add_request_keeps_window 70000 sample_limiter HW
           sample_limiter_ascending sample_limiter_past)))).
Defined.

Lemma wait_if_needed_behaviour_witness :
  limit sample_limiter ≤ length (timestamps sample_limiter)
  ∧ head (timestamps sample_limiter) = Some 1000%Z
  ∧ ∃ d, wait_if_needed 51000 sample_limiter = Some d
         ∧ (0 ≤ d)%Z ∧ (1000 + window sample_limiter ≤ 51000 + d)%Z
         ∧ ((51000 - 1000 < window sample_limiter)%Z →
            (51000 + d = 1000 + window sample_limiter)%Z)
         ∧ ((window sample_limiter ≤ 51000 - 1000)%Z → d = 0%Z).
Proof.
  assert (limit sample_limiter ≤ length (timestamps sample_limiter)) as Hfull
    by (simpl; lia).
  split; [exact Hfull|]. split; [reflexivity|].
  exact (proj2 (proj2 (wait_if_needed_behaviour 51000 sample_limiter))
           1000%Z Hfull eq_refl).
Defined.

Lemma sample_limiter_ok : limiter_ok 51000 sample_limiter.
Proof.
  split; [simpl; lia|]. split; [by vm_compute|]. split; [simpl; lia|].
  split; [exact sample_limiter_ascending|].
  intros t Ht. simpl in Ht.
  repeat (apply elem_of_cons in Ht as [->|Ht]; [lia|]).
  by apply elem_of_nil in Ht.
Defined.

(** A caller that comes back after 70 seconds and then calls twice more
    without a pause. *)
Definition sample_calls : list (Z * Z) := [(70000, 10); (0, 10); (0, 10)]%Z.

Lemma sample_calls_ok :
  Forall (λ call : Z * Z, (0 ≤ call.1)%Z ∧ (0 < call.2)%Z) sample_calls.
Proof. repeat constructor; simpl; lia. Defined.

Lemma limiter_holds_at_most_limit_witness :
  limiter_ok 51000 sample_limiter
  ∧ Forall (λ call : Z * Z, (0 ≤ call.1)%Z ∧ (0 < call.2)%Z) sample_calls
  ∧ ∃ now' rl',
      uses (51000%Z, sample_limiter) sample_calls = Some (now', rl')
      ∧ (51000 ≤ now')%Z
      ∧ limiter_ok now' rl'
      ∧ length (timestamps rl') ≤ limit sample_limiter
      ∧ limit rl' = limit sample_limiter ∧ window rl' = window sample_limiter.
Proof.
  split; [exact sample_limiter_ok|]. split; [exact sample_calls_ok|].
  exact (limiter_holds_at_most_limit sample_calls 51000 sample_limiter
           sample_limiter_ok sample_calls_ok).
Defined.

Lemma make_api_request_first_success_witness :
  let page := {| results := Some (JList ["eve"]); count := Some 1%Z |} in
  limit (limiter (shared initial)) ≠ 0
  ∧ 2 < MAX_RETRIES
  ∧ (∀ a, a < 2 → failing true (retry_endpoint 0 "e" a))
  ∧ retry_endpoint 0 "e" 2 = Response 10 200 (Json page)
  ∧ (make_api_request true "e" (retry_endpoint 0 "e") (shared initial)).1
    = Returned (Some page).
Proof.
  intros page.
  assert (limit (limiter (shared initial)) ≠ 0) as Hl by done.
  assert (2 < MAX_RETRIES) as Hk by (unfold MAX_RETRIES; lia).
  assert (∀ a, a < 2 → failing true (retry_endpoint 0 "e" a)) as Hfail.
  { intros [|[|a]] Ha; [by left..|lia]. }
  assert (retry_endpoint 0 "e" 2 = Response 10 200 (Json page)) as Hnet
    by reflexivity.
  split; [exact Hl|]. split; [exact Hk|]. split; [exact Hfail|].
  split; [exact Hnet|].
  exact (proj1 (make_api_request_first_success true "e" (retry_endpoint 0 "e")
                  (shared initial) 2 10 page Hl Hk Hfail Hnet)).
Defined.

End ClientProps.

(** ** The exploration of app.py, further *)
Module ExploreProps.
Import App AppProps RateProps ClientProps.

(** *** Vocabulary of the statements *)

(** The lowercase words of at most [d] letters. *)
Definition lowercase_word (d : nat) (s : string) : Prop :=
  String.length s ≤ d ∧
  Forall (λ c, c ∈ chars_of ascii_lowercase) (chars_of s).

Fixpoint words (d : nat) : list string :=
  match d with
  | 0 => [""]
  | S d' => "" :: (chars_of ascii_lowercase ≫= λ c, String c <$> words d')
  end.

(** The endpoint gives a full page of results only to prefixes of at most
    [d] letters. *)
Definition full_pages_below (endpoint : nat → string → nat → reply) (d : nat)
    : Prop :=
  ∀ it p a lat resp,
    endpoint it p a = Response lat 200 (Json resp) →
    listed resp ≠ None → default 0%Z (count resp) = 10%Z →
    String.length p ≤ d.

(** *** Lemmas and theorems *)

Lemma foldl_handle_counters fs st :
  request_count (foldl handle st fs) = request_count st
  ∧ submitted (foldl handle st fs) = submitted st
  ∧ shared (foldl handle st fs) = shared st.
Proof.
  revert st. induction fs as [|f fs IH]; intros st; simpl; [done|].
  destruct (IH (handle st f)) as (-> & -> & ->).
  destruct (handle_frame st f) as (-> & _ & -> & _ & ->). done.
Qed.

Lemma foldl_handle_queue fs st :
  ∃ new, queue (foldl handle st fs) = queue st ++ new.
Proof.
  revert st. induction fs as [|f fs IH]; intros st; simpl.
  { exists []. by rewrite app_nil_r. }
  destruct (IH (handle st f)) as [new ->].
  rewrite handle_unfold. destruct f.2 as [[resp|]|]; try by exists new.
  destruct (listed resp); [|by exists new]. cbn [queue].
  eexists. by rewrite <- app_assoc.
Qed.

Lemma handle_names st f x :
  x ∈ all_names (handle st f) ↔
  x ∈ all_names st ∨
  ∃ resp names, f.2 = Returned (Some resp) ∧ listed resp = Some names
                ∧ x ∈ names.
Proof.
  rewrite handle_unfold. destruct f.2 as [[resp|]|] eqn:Hf.
  - destruct (listed resp) as [names|] eqn:Hres.
    + cbn [all_names]. rewrite elem_of_union, elem_of_list_to_set.
      split; intros [H|H]; [by left| |by left|].
      * right. by exists resp, names.
      * right. destruct H as (resp' & names' & [= <-] & Hr & Hx). congruence.
    + split; [by left|]. intros [H|(resp' & names' & [= <-] & ? & ?)]; [done|].
      congruence.
  - split; [by left|]. by intros [H|(? & ? & ? & _)].
  - split; [by left|]. by intros [H|(? & ? & ? & _)].
Qed.

Lemma foldl_handle_names fs st x :
  x ∈ all_names (foldl handle st fs) ↔
  x ∈ all_names st ∨
  ∃ p resp names, (p, Returned (Some resp)) ∈ fs ∧ listed resp = Some names
                  ∧ x ∈ names.
Proof.
  revert st. induction fs as [|[p r] fs IH]; intros st; simpl.
  { split; [by left|]. intros [?|(? & ? & ? & ?%elem_of_nil & _)]; done. }
  rewrite IH, handle_names. cbn [snd]. split.
  - intros [[H|(resp & names & Heq & Hr & Hx)]|(q & resp & names & Hin & Hr & Hx)].
    + by left.
    + right. exists p, resp, names. rewrite Heq. split; [left|done].
    + right. exists q, resp, names. split; [by right|done].
  - intros [H|(q & resp & names & Hin & Hr & Hx)]; [by left; left|].
    apply elem_of_cons in Hin as [[= -> <-]|Hin].
    + left. right. by exists resp, names.
    + right. by exists q, resp, names.
Qed.

Lemma add_char_chars p c : chars_of (add_char p c) = chars_of p ++ [c].
Proof. unfold add_char, chars_of. induction p; simpl; congruence. Qed.

Lemma lowercase_word_add_char d p c :
  lowercase_word d p → c ∈ chars_of ascii_lowercase →
  lowercase_word (S d) (add_char p c).
Proof.
  intros [Hlen Hall] Hc. split.
  - rewrite add_char_length. lia.
  - rewrite add_char_chars. apply Forall_app. split; [done|].
    by constructor.
Qed.

Lemma words_complete d s : lowercase_word d s → s ∈ words d.
Proof.
  revert s. induction d as [|d IH]; intros s [Hlen Hall].
  - destruct s; [left|simpl in Hlen; lia].
  - destruct s as [|c s]; [left|]. right.
    unfold chars_of in Hall. simpl in Hall, Hlen.
    apply Forall_cons in Hall as [Hc Hall].
    apply list_elem_of_bind. exists c. split; [|done].
    apply list_elem_of_fmap_2. apply IH. split; [lia|done].
Qed.

Lemma foldl_handle_words d fs st :
  (∀ s, s ∈ enqueued st → lowercase_word (S d) s) →
  (∀ p resp, (p, Returned (Some resp)) ∈ fs → listed resp ≠ None →
     default 0%Z (count resp) = 10%Z → lowercase_word d p) →
  ∀ s, s ∈ enqueued (foldl handle st fs) → lowercase_word (S d) s.
Proof.
  revert st. induction fs as [|[p r] fs IH]; intros st Hst Hfs s Hs.
  { by apply Hst. }
  simpl in Hs. eapply IH; [| |exact Hs].
  - intros s'. rewrite handle_unfold. cbn [fst snd].
    destruct r as [[resp|]|]; try apply Hst.
    destruct (listed resp) as [names|] eqn:Hres; [|apply Hst].
    cbn [enqueued]. intros [?|Hin]%elem_of_app; [by apply Hst|].
    case_decide as Hc; [|by apply elem_of_nil in Hin].
    apply list_elem_of_filter in Hin as [_ Hin].
    apply list_elem_of_fmap in Hin as (c & -> & Hc').
    apply lowercase_word_add_char; [|done].
    apply (Hfs p resp); [left|congruence|done].
  - intros q resp Hin. apply Hfs. by right.
Qed.

Section Counting.

Variable json_error_caught : bool.
Variable endpoint : nat → string → nat → reply.
Variable as_completed :
  nat → list (string * fetched) → list (string * fetched).

Local Abbreviation submit_all := (submit_all json_error_caught endpoint).
Local Abbreviation bfs_run := (bfs_run json_error_caught endpoint as_completed).
Local Abbreviation futures_of := (futures_of json_error_caught endpoint).

Lemma submit_all_sends it batch w :
  limit (limiter w) ≠ 0 →
  count_events is_send (trace w) + length batch
    ≤ count_events is_send (trace (submit_all it batch w).2)
    ≤ count_events is_send (trace w) + MAX_RETRIES * length batch.
Proof.
  revert w. induction batch as [|p batch IH]; intros w Hl; simpl.
  { lia. }
  pose proof (attempts_limit json_error_caught p (endpoint it p)
                (seq 0 MAX_RETRIES) w) as Hl1.
  destruct (attempts_sends json_error_caught p (endpoint it p)
              (seq 0 MAX_RETRIES) w) as (Hup & Hlow & _).
  specialize (Hlow Hl ltac:(done)). rewrite length_seq in Hup.
  unfold make_api_request.
  destruct (attempts _ _ _ _ w) as [r w1]. cbn [fst snd] in *.
  specialize (IH w1 ltac:(congruence)).
  destruct (submit_all it batch w1) as [fs w2]. cbn [fst snd] in *.
  unfold MAX_RETRIES in *. lia.
Qed.

(** X5. The counter that [bfs_explore] returns is the number of prefixes
    handed to the executor. The number of requests sent is at least that
    counter and at most [MAX_RETRIES] times it, in whatever order the
    futures complete. *)
Theorem request_count_bounds_requests n :
  let st := bfs_run n in
  request_count st = length (submitted st)
  ∧ request_count st ≤ count_events is_send (trace (shared st))
  ∧ count_events is_send (trace (shared st)) ≤ MAX_RETRIES * request_count st.
Proof.
  cbn zeta.
  assert (limit (limiter (shared (bfs_run n))) ≠ 0 ∧
          request_count (bfs_run n) = length (submitted (bfs_run n))
          ∧ request_count (bfs_run n)
              ≤ count_events is_send (trace (shared (bfs_run n)))
          ∧ count_events is_send (trace (shared (bfs_run n)))
              ≤ MAX_RETRIES * request_count (bfs_run n)) as [_ H]; [|done].
  induction n as [|n (Hl & Hc & Hlow & Hup)].
  { split_and!; [done|done|done|]. by vm_compute. }
  simpl. destruct (queue (bfs_run n)) as [|p0 q0]; [done|].
  unfold App.bfs_iteration.
  destruct (take_batch _ _ _ _) as [[q seen] batch].
  destruct batch as [|p batch]; [done|].
  pose proof (submit_all_sends (iteration (bfs_run n)) (p :: batch)
                (shared (bfs_run n)) Hl) as Hs.
  pose proof (submit_all_limit json_error_caught endpoint
                (iteration (bfs_run n)) (p :: batch) (shared (bfs_run n)))
    as Hl'.
  destruct (submit_all _ _ _) as [fs w]. cbn [fst snd] in *.
  match goal with |- context [foldl handle ?s ?l] =>
    destruct (foldl_handle_counters l s) as (-> & -> & ->) end.
  cbn [request_count submitted shared].
  rewrite length_app. unfold MAX_RETRIES in *. split_and!; [congruence|lia..].
Qed.

(** What a future holds is what [make_api_request] returns for its prefix
    from any state of the limiter. *)
Lemma submit_all_value it batch w w' p r :
  limit (limiter w) ≠ 0 → limit (limiter w') ≠ 0 →
  (p, r) ∈ (submit_all it batch w).1 →
  r = (make_api_request json_error_caught p (endpoint it p) w').1.
Proof.
  intros Hl Hl'. revert w Hl.
  induction batch as [|q batch IH]; intros w Hl; simpl.
  { by intros ?%elem_of_nil. }
  pose proof (attempts_limit json_error_caught q (endpoint it q)
                (seq 0 MAX_RETRIES) w) as Hl1.
  pose proof (attempts_value json_error_caught q (endpoint it q)
                (seq 0 MAX_RETRIES) w w' Hl Hl') as Hv.
  unfold make_api_request in *.
  destruct (attempts _ _ _ _ w) as [r1 w1]. cbn [fst snd] in *.
  specialize (IH w1 ltac:(congruence)).
  destruct (submit_all it batch w1) as [fs w2]. cbn [fst snd] in *.
  intros [[= -> ->]|Hin]%elem_of_cons; [done|]. by apply IH.
Qed.

Lemma future_value n p r w :
  limit (limiter w) ≠ 0 →
  (p, r) ∈ futures_of (bfs_run n) →
  r = (make_api_request json_error_caught p
         (endpoint (iteration (bfs_run n)) p) w).1.
Proof.
  intros Hl Hin. unfold App.futures_of in Hin.
  eapply submit_all_value; [|done|done].
  by rewrite bfs_run_limit.
Qed.

Lemma futures_answer n p resp :
  (p, Returned (Some resp)) ∈ futures_of (bfs_run n) →
  ∃ a lat, a < MAX_RETRIES ∧
    endpoint (iteration (bfs_run n)) p a = Response lat 200 (Json resp).
Proof.
  intros Hin.
  pose proof (future_value n p _ (shared initial) ltac:(done) Hin) as Hr.
  symmetry in Hr. apply attempts_returned in Hr as (a & lat & Ha & Hnet).
  exists a, lat. split; [|done]. apply elem_of_seq in Ha. lia.
Qed.


End Counting.

Section Results.

Variable json_error_caught : bool.
Variable endpoint : nat → string → nat → reply.
Variable as_completed :
  nat → list (string * fetched) → list (string * fetched).
Hypothesis as_completed_perm : ∀ it fs, as_completed it fs ≡ₚ fs.

Local Abbreviation bfs_run := (bfs_run json_error_caught endpoint as_completed).
Local Abbreviation bfs_explore :=
  (bfs_explore json_error_caught endpoint as_completed).
Local Abbreviation futures_of := (futures_of json_error_caught endpoint).
Local Abbreviation after_submit := (after_submit json_error_caught endpoint).
Local Abbreviation frontier := (bfs_run_inv json_error_caught endpoint
                                  as_completed as_completed_perm).

Lemma all_names_futures n x :
  x ∈ all_names (bfs_run n) ↔
  ∃ k p resp names, k < n ∧ (p, Returned (Some resp)) ∈ futures_of (bfs_run k)
    ∧ listed resp = Some names ∧ x ∈ names.
Proof.
  induction n as [|n IH].
  { simpl. split; [by intros ?%elem_of_empty|].
    intros (k & ? & ? & ? & ? & _). lia. }
  destruct (decide (queue (bfs_run n) = [])) as [Hq|Hq].
  - rewrite bfs_run_stuck, IH by done. split.
    + intros (k & p & resp & names & Hk & H). exists k, p, resp, names.
      split; [lia|done].
    + intros (k & p & resp & names & Hk & Hf & H).
      destruct (decide (k = n)) as [->|].
      { by destruct (futures_nonempty _ _ _ _ Hf). }
      exists k, p, resp, names. split; [lia|done].
  - rewrite bfs_run_S, foldl_handle_names by done. cbn [all_names after_submit].
    rewrite IH. split.
    + intros [(k & p & resp & names & Hk & H)|(p & resp & names & Hin & H)].
      * exists k, p, resp, names. split; [lia|done].
      * rewrite as_completed_perm in Hin. exists n, p, resp, names.
        split; [lia|done].
    + intros (k & p & resp & names & Hk & Hf & H).
      destruct (decide (k = n)) as [->|].
      * right. exists p, resp, names. by rewrite as_completed_perm.
      * left. exists k, p, resp, names. split; [lia|done].
Qed.

Lemma bfs_run_batch_submitted n m p :
  p ∈ batch_of (bfs_run n) → n < m → p ∈ submitted (bfs_run m).
Proof.
  intros Hp Hnm.
  assert (queue (bfs_run n) ≠ []) as Hq.
  { intros Hq. unfold batch_of in Hp. rewrite Hq in Hp.
    by apply elem_of_nil in Hp. }
  apply (bfs_run_submitted_mono _ _ _ as_completed_perm (S n) m); [lia|].
  rewrite bfs_run_submitted_S by done. apply elem_of_app. by right.
Qed.

(** X6. Every name that [bfs_explore] has collected is in the results of
    a 200 answer that the endpoint gave, on one of the [MAX_RETRIES]
    attempts, to a prefix that was submitted. *)
Theorem names_come_from_answers n x :
  x ∈ all_names (bfs_run n) →
  ∃ it p a lat resp names,
    p ∈ submitted (bfs_run n) ∧ a < MAX_RETRIES
    ∧ endpoint it p a = Response lat 200 (Json resp)
    ∧ listed resp = Some names ∧ x ∈ names.
Proof.
  intros (k & p & resp & names & Hk & Hf & Hres & Hx)%all_names_futures.
  destruct (futures_answer _ _ _ _ _ _ Hf) as (a & lat & Ha & Hnet).
  exists (iteration (bfs_run k)), p, a, lat, resp, names.
  split_and!; try done.
  eapply bfs_run_batch_submitted; [|done]. by eapply futures_key.
Qed.

(** X7. When the first attempt for a prefix of a batch that does not fail
    is answered 200 with a list of results, every name of the list is among
    the names collected from the end of that iteration on; and the names
    collected only grow. *)
Theorem answered_names_are_collected n p k lat resp names :
  let st := bfs_run n in
  p ∈ batch_of st →
  k < MAX_RETRIES →
  (∀ a, a < k → failing json_error_caught (endpoint (iteration st) p a)) →
  endpoint (iteration st) p k = Response lat 200 (Json resp) →
  listed resp = Some names →
  (∀ m x, n < m → x ∈ names → x ∈ all_names (bfs_run m))
  ∧ (∀ m m', m ≤ m' → all_names (bfs_run m) ⊆ all_names (bfs_run m')).
Proof.
  intros st Hp Hk Hfail Hnet Hres.
  assert (∀ m m' x, m ≤ m' → x ∈ all_names (bfs_run m) →
            x ∈ all_names (bfs_run m')) as Hmono.
  { intros m m' x Hm (j & H)%all_names_futures. apply all_names_futures.
    exists j. destruct H as (q & resp' & names' & ? & ?).
    exists q, resp', names'. split; [lia|done]. }
  split; [|intros m m' Hm x; by apply Hmono].
  intros m x Hnm Hx. apply all_names_futures.
  exists n, p, resp, names. split_and!; try done.
  assert (∃ r, (p, r) ∈ futures_of st) as [r Hr].
  { unfold App.futures_of.
    pose proof (submit_all_keys json_error_caught endpoint (iteration st)
                  (batch_of st) (shared st)) as Hkeys.
    rewrite <- Hkeys in Hp. apply list_elem_of_fmap in Hp as ([p' r] & -> & Hin).
    by exists r. }
  pose proof (future_value json_error_caught endpoint as_completed
                n p r (shared initial) ltac:(done) Hr) as Hv.
  fold st in Hv. unfold make_api_request in Hv.
  rewrite (seq_split_at k Hk) in Hv.
  destruct (attempts_first_success json_error_caught p
              (endpoint (iteration st) p) (seq 0 k) k
              (seq (S k) (MAX_RETRIES - S k)) (shared initial) lat resp)
    as [Hval _]; [done| |done|].
  { intros a [_ ?]%elem_of_seq. apply Hfail. lia. }
  rewrite Hval in Hv. by subst r.
Qed.

Lemma queue_position i : ∀ n p,
  queue (bfs_run n) !! i = Some p → p ∈ submitted (bfs_run (n + S i)).
Proof.
  induction (lt_wf i) as [i _ IH]. intros n p Hp.
  assert (queue (bfs_run n) ≠ []) as Hq.
  { intros Hq. by rewrite Hq in Hp. }
  destruct (decide (i < MAX_WORKERS)) as [Hi|Hi].
  - apply (bfs_run_submitted_mono _ _ _ as_completed_perm (S n)); [lia|].
    rewrite bfs_run_submitted_S by done. apply elem_of_app. right.
    unfold batch_of. apply list_elem_of_lookup. exists i.
    by rewrite lookup_take_lt.
  - pose proof (bfs_run_S _ _ _ as_completed_perm n Hq) as HS.
    destruct (foldl_handle_queue
                (as_completed (iteration (bfs_run n)) (futures_of (bfs_run n)))
                (after_submit (bfs_run n))) as [new Hnew].
    rewrite <- HS in Hnew. cbn [queue App.after_submit] in Hnew.
    assert (queue (bfs_run (S n)) !! (i - MAX_WORKERS) = Some p) as Hp'.
    { rewrite Hnew. apply lookup_app_l_Some. rewrite lookup_drop.
      by replace (MAX_WORKERS + (i - MAX_WORKERS)) with i by lia. }
    apply (bfs_run_submitted_mono _ _ _ as_completed_perm
             (S n + S (i - MAX_WORKERS))); [unfold MAX_WORKERS in *; lia|].
    apply IH; [unfold MAX_WORKERS in *; lia|done].
Qed.

(** X8. No prefix waits on the queue for ever: a prefix that has been put
    on the queue is handed to the executor after at most as many further
    iterations as the queue is long. *)
Theorem enqueued_prefix_is_submitted n p :
  p ∈ enqueued (bfs_run n) →
  ∃ m, m ≤ n + length (queue (bfs_run n)) ∧ p ∈ submitted (bfs_run m).
Proof.
  intros Hp. destruct (frontier n) as (Henq & _).
  rewrite Henq in Hp. apply elem_of_app in Hp as [Hp|Hp].
  - exists n. split; [lia|done].
  - apply list_elem_of_lookup in Hp as [i Hi].
    pose proof (lookup_lt_Some _ _ _ Hi).
    exists (n + S i). split; [lia|]. by apply queue_position.
Qed.

Lemma enqueued_words d n :
  full_pages_below endpoint d →
  ∀ s, s ∈ enqueued (bfs_run n) → lowercase_word (S d) s.
Proof.
  intros Hd. induction n as [|n IH]; intros s Hs.
  - simpl in Hs. unfold seeds in Hs.
    apply list_elem_of_fmap in Hs as (c & -> & Hc). split; [simpl; lia|].
    change (Forall (λ c, c ∈ chars_of ascii_lowercase) [c]). by constructor.
  - destruct (decide (queue (bfs_run n) = [])) as [Hq|Hq].
    { rewrite bfs_run_stuck in Hs by done. by apply IH. }
    rewrite bfs_run_S in Hs by done.
    eapply foldl_handle_words; [| |exact Hs].
    + exact IH.
    + intros p resp Hin Hres Hcnt. rewrite as_completed_perm in Hin.
      destruct (futures_answer _ _ _ _ _ _ Hin) as (a & lat & _ & Hnet).
      pose proof (Hd _ _ _ _ _ Hnet Hres Hcnt) as Hlen.
      destruct (IH p) as [_ Hall]; [|by split].
      destruct (frontier n) as (Henq & _).
      rewrite Henq. apply elem_of_app. right.
      eapply subseteq_take. by eapply futures_key.
Qed.

Lemma bfs_run_progress n :
  (∃ k, k ≤ n ∧ queue (bfs_run k) = []) ∨ n ≤ length (submitted (bfs_run n)).
Proof.
  induction n as [|n [(k & Hk & Hq)|IH]].
  - right. simpl. lia.
  - left. exists k. split; [lia|done].
  - destruct (decide (queue (bfs_run n) = [])) as [Hq|Hq].
    + left. exists n. split; [lia|done].
    + right. rewrite bfs_run_submitted_S, length_app by done.
      unfold batch_of. rewrite length_take.
      destruct (queue (bfs_run n)); [done|]. simpl. unfold MAX_WORKERS. lia.
Qed.

Lemma bfs_run_finished k n :
  queue (bfs_run k) = [] → k ≤ n → bfs_run n = bfs_run k.
Proof.
  intros Hq. induction 1 as [|n _ IH]; [done|].
  rewrite bfs_run_stuck; [done|]. by rewrite IH.
Qed.

(** X9. When the endpoint gives full pages only to prefixes of at most [d]
    letters, the loop of [bfs_explore] ends: from some number of iterations
    on the queue is empty and [bfs_explore] returns the same names and
    counter; and no prefix submitted has more than [d + 1] letters. *)
Theorem bfs_explore_terminates d :
  full_pages_below endpoint d →
  ∃ fuel names requests,
    (∀ fuel', fuel ≤ fuel' → bfs_explore fuel' = Some (names, requests))
    ∧ ∀ fuel' p, p ∈ submitted (bfs_run fuel') → String.length p ≤ S d.
Proof.
  intros Hd.
  assert (∀ n, length (submitted (bfs_run n)) ≤ length (words (S d))) as Hbound.
  { intros n. destruct (frontier n) as (Henq & Hnd & _).
    apply submseteq_length, NoDup_submseteq.
    - rewrite Henq in Hnd. by apply NoDup_app in Hnd as (? & _).
    - intros s Hs. apply words_complete, (enqueued_words d n Hd).
      rewrite Henq. apply elem_of_app. by left. }
  destruct (bfs_run_progress (S (length (words (S d))))) as [(k & Hk & Hq)|Hlen].
  2:{ specialize (Hbound (S (length (words (S d))))). lia. }
  exists k, (all_names (bfs_run k)), (request_count (bfs_run k)). split.
  - intros fuel' Hf. unfold App.bfs_explore.
    rewrite (bfs_run_finished k fuel') by done. by rewrite Hq.
  - intros fuel' p Hp.
    destruct (enqueued_words d fuel' Hd p) as [Hlen _]; [|done].
    destruct (frontier fuel') as (Henq & _).
    rewrite Henq. apply elem_of_app. by left.
Qed.

End Results.

Lemma names_come_from_answers_witness :
  (∀ it fs, in_order it fs ≡ₚ fs)
  ∧ "zed" ∈ all_names (sample_run 4)
  ∧ ∃ it p a lat resp names,
      p ∈ submitted (sample_run 4) ∧ a < MAX_RETRIES
      ∧ sample_endpoint it p a = Response lat 200 (Json resp)
      ∧ listed resp = Some names ∧ "zed" ∈ names.
Proof.
  assert ("zed" ∈ all_names (sample_run 4)) as Hx.
  { apply (bool_decide_unpack _). by vm_compute. }
  split; [exact in_order_perm|]. split; [exact Hx|].
  exact (names_come_from_answers true sample_endpoint in_order in_order_perm
           4 "zed" Hx).
Defined.

Lemma answered_names_are_collected_witness :
  let page := {| results := Some (JList ["a" +:+ "x"]); count := Some 1%Z |} in
  (∀ it fs, in_order it fs ≡ₚ fs)
  ∧ "a" ∈ batch_of (sample_run 0)
  ∧ 0 < MAX_RETRIES
  ∧ sample_endpoint (iteration (sample_run 0)) "a" 0
    = Response 10 200 (Json page)
  ∧ ("a" +:+ "x") ∈ all_names (sample_run 1).
Proof.
  intros page.
  assert ("a" ∈ batch_of (sample_run 0)) as Hp.
  { apply (bool_decide_unpack _). by vm_compute. }
  assert (0 < MAX_RETRIES) as Hk by (unfold MAX_RETRIES; lia).
  assert (∀ a, a < 0 →
            failing true (sample_endpoint (iteration (sample_run 0)) "a" a))
    as Hfail by (intros a Ha; lia).
  assert (sample_endpoint (iteration (sample_run 0)) "a" 0
          = Response 10 200 (Json page)) as Hnet by reflexivity.
  assert (0 < 1) as Hm by lia.
  assert ("a" +:+ "x" ∈ ["a" +:+ "x"]) as Hin by left.
  split; [exact in_order_perm|]. split; [exact Hp|]. split; [exact Hk|].
  split; [exact Hnet|].
  exact (proj1 (answered_names_are_collected true sample_endpoint in_order
                  in_order_perm 0 "a" 0 10 page ["a" +:+ "x"]
                  Hp Hk Hfail Hnet eq_refl)
           1 ("a" +:+ "x") Hm Hin).
Defined.

Lemma enqueued_prefix_is_submitted_witness :
  (∀ it fs, in_order it fs ≡ₚ fs)
  ∧ add_char "z" "q" ∈ enqueued (sample_run 2)
  ∧ ∃ m, m ≤ 2 + length (queue (sample_run 2))
         ∧ add_char "z" "q" ∈ submitted (sample_run m).
Proof.
  assert (add_char "z" "q" ∈ enqueued (sample_run 2)) as Hp.
  { apply (bool_decide_unpack _). by vm_compute. }
  split; [exact in_order_perm|]. split; [exact Hp|].
  exact (enqueued_prefix_is_submitted true sample_endpoint in_order
           in_order_perm 2 (add_char "z" "q") Hp).
Defined.

Lemma sample_endpoint_shallow : full_pages_below sample_endpoint 1.
Proof.
  intros it p a lat resp. unfold sample_endpoint.
  destruct (decide (p = "z")) as [->|_]; [simpl; lia|].
  destruct (decide (p = "zz")) as [->|_]; [done|].
  intros [= _ <-] _ Hc. done.
Defined.

Lemma bfs_explore_terminates_witness :
  (∀ it fs, in_order it fs ≡ₚ fs)
  ∧ full_pages_below sample_endpoint 1
  ∧ ∃ fuel names requests,
      (∀ fuel', fuel ≤ fuel' →
         bfs_explore true sample_endpoint in_order fuel'
         = Some (names, requests))
      ∧ ∀ fuel' p, p ∈ submitted (sample_run fuel') → String.length p ≤ 2.
Proof.
  split; [exact in_order_perm|]. split; [exact sample_endpoint_shallow|].
  exact (bfs_explore_terminates true sample_endpoint in_order in_order_perm
           1 sample_endpoint_shallow).
Defined.


End ExploreProps.

(** ** The records of the asynchronous explorer *)
Module ExplorerRecords.
Import Extractor ExtractorProps.

(** *** Vocabulary of the statements *)

(** The number of requests sent for a version. *)
Definition requests_for (version : string) (ex : explorer) : nat :=
  length (filter (λ x, x.1.2 = version) (sent ex)).

(** [getattr(self, f'{version}_names')] *)
Definition names_in (version : string) (ex : explorer) : gset string :=
  if decide (version = "v1") then v1_names ex
  else if decide (version = "v2") then v2_names ex
  else if decide (version = "v3") then v3_names ex
  else ∅.

(** The names that the answers to the requests sent for a version hold,
    the reply to the [i]-th request being [server i]. *)
Definition answered_names (server : nat → reply) (version : string)
    (ex : explorer) (x : string) : Prop :=
  ∃ i t q, sent ex !! i = Some (t, version, q) ∧ x ∈ names_of (server i).

(** The counters count the requests sent, and the name sets hold the names
    answered, but for the [pending] names of a version that a call of
    [make_request] has returned and its caller has not stored yet. *)
Definition recorded (server : nat → reply) (pending : string → list string)
    (ex : explorer) : Prop :=
  (∀ v, requests_count ex !! v
        = if bool_decide (v ∈ versions) then Some (requests_for v ex) else None)
  ∧ ∀ v x, v ∈ versions →
      (x ∈ names_in v ex ∨ x ∈ pending v) ↔ answered_names server v ex x.

Definition nothing : string → list string := λ _, [].

Definition pending_for (version : string) (names : list string)
    : string → list string :=
  λ v, if decide (v = version) then names else [].

(** The invariant through the coroutines, however they end. *)
Definition keeps (server : nat → reply) (m : explorer → result unit) : Prop :=
  ∀ ex, recorded server nothing ex → recorded server nothing (state_of (m ex)).

(** [requests_count] knows the three versions. *)
Definition ready (ex : explorer) : Prop :=
  ∀ v, v ∈ versions → is_Some (requests_count ex !! v).

(** [m] returns, from every state in which the three counters are there. *)
Definition returns (m : explorer → result unit) : Prop :=
  ∀ ex, ready ex → ∃ ex', m ex = Return tt ex' ∧ ready ex'.

(** *** Lemmas and theorems *)

Lemma requests_for_snoc v ex t version query :
  length (filter (λ x : Z * string * string, x.1.2 = v)
            (sent ex ++ [(t, version, query)]))
  = requests_for v ex + (if decide (version = v) then 1 else 0).
Proof.
  unfold requests_for. rewrite filter_app, length_app. f_equal.
  rewrite filter_cons. simpl. by destruct (decide (version = v)).
Qed.

Lemma answered_names_snoc server v ex t version query x l :
  l = sent ex ++ [(t, version, query)] →
  (∃ i t' q, l !! i = Some (t', v, q) ∧ x ∈ names_of (server i))
  ↔ answered_names server v ex x
    ∨ (v = version ∧ x ∈ names_of (server (length (sent ex)))).
Proof.
  intros ->. unfold answered_names. split.
  - intros (i & t' & q & Hi & Hx).
    apply lookup_snoc_Some in Hi as [[Hlt Hi]|[<- [= <- <- <-]]].
    + left. by exists i, t', q.
    + by right.
  - intros [(i & t' & q & Hi & Hx)|[-> Hx]].
    + exists i, t', q. split; [|done]. by apply lookup_app_l_Some.
    + exists (length (sent ex)), t, query. split; [|done].
      by rewrite lookup_app_r, Nat.sub_diag.
Qed.

Section Records.

Variable server : nat → reply.

Local Abbreviation keeps := (keeps server).

Lemma recorded_request ex version query r ex1 :
  recorded server nothing ex →
  version ∈ versions →
  count_request version ex = Some ex1 →
  r = server (length (sent ex)) →
  recorded server (pending_for version (names_of r)) (get version query r ex1).
Proof.
  intros [Hcount Hnames] Hv Hc ->. unfold count_request in Hc.
  destruct (requests_count ex !! version) as [n|] eqn:Hn; [|done].
  injection Hc as <-. split.
  - intros v. cbn [get requests_count sent].
    unfold requests_for at 1. unfold get. cbn [sent now]. rewrite requests_for_snoc.
    destruct (decide (version = v)) as [<-|Hne].
    + rewrite lookup_insert_eq, bool_decide_eq_true_2 by done.
      specialize (Hcount version). rewrite bool_decide_eq_true_2 in Hcount by done.
      f_equal. rewrite Hn in Hcount. injection Hcount as ->. lia.
    + rewrite lookup_insert_ne by done. rewrite Hcount, Nat.add_0_r. done.
  - intros v x Hv'. unfold answered_names at 1. unfold get. cbn [sent now].
    rewrite (answered_names_snoc server v ex (now ex) version query x) by done.
    rewrite <- (Hnames v x Hv'). unfold names_in, pending_for, nothing. cbn.
    destruct (decide (v = version)) as [->|Hne].
    + split; [intros [?|?]; [left; by left|right; by split]|].
      intros [[?|?%elem_of_nil]|[_ ?]]; [by left|done|by right].
    + split; [intros [?|?%elem_of_nil]; [left; by left|done]|].
      intros [[?|?%elem_of_nil]|[? _]]; [by left|done|done].
Qed.

Lemma recorded_sleep pending d ex :
  recorded server pending ex → recorded server pending (sleep d ex).
Proof. done. Qed.

Lemma recorded_write pending name f ex :
  recorded server pending ex → recorded server pending (write name f ex).
Proof. done. Qed.

Lemma names_of_429 r : is_429 r = true → names_of r = [].
Proof. intros H. unfold names_of. by rewrite value_of_429. Qed.

Lemma recorded_nothing version ex :
  recorded server (pending_for version []) ex ↔ recorded server nothing ex.
Proof.
  assert (∀ v, pending_for version [] v = nothing v) as Heq.
  { intros v. unfold pending_for, nothing. by destruct (decide (v = version)). }
  unfold recorded. split; intros [Hc Hn]; (split; [done|]); intros v x Hv.
  - rewrite <- (Hn v x Hv). by rewrite Heq.
  - rewrite <- (Hn v x Hv). by rewrite Heq.
Qed.

(** What [make_request] leaves: the names that its caller will take from
    the value returned are those of the last answer, not yet stored. *)
Lemma make_request_recorded fuel version query ex :
  recorded server nothing ex → version ∈ versions →
  match make_request server fuel version query ex with
  | Return value ex' =>
    recorded server (pending_for version (default [] (iterate value))) ex'
  | Raise ex' => recorded server nothing ex'
  end.
Proof.
  revert ex. induction fuel as [|fuel IH]; intros ex Hrec Hv; simpl; [done|].
  destruct (count_request version ex) as [ex1|] eqn:Hc; [|done].
  assert (sent ex1 = sent ex) as Hs.
  { unfold count_request in Hc. destruct (requests_count ex !! version); [|done].
    by injection Hc as <-. }
  rewrite Hs.
  pose proof (recorded_request ex version query _ ex1 Hrec Hv Hc eq_refl) as H2.
  destruct (server (length (sent ex))) as [lat status b|lat] eqn:Hr; [|done].
  destruct (status =? 429)%Z eqn:E429.
  - rewrite names_of_429 in H2 by done. apply recorded_nothing in H2.
    specialize (IH (sleep (seconds 61)
                      (get version query (Response lat status b) ex1))
                  (recorded_sleep _ _ _ H2) Hv).
    destruct (make_request server fuel version query _) as [value ex3|ex3];
      [done|]. by apply recorded_nothing.
  - unfold names_of in H2. cbn [value_of] in H2.
    destruct (status =? 200)%Z; [|by destruct b]. by destruct b.
Qed.

Lemma recorded_update version value ex ex2 :
  version ∈ versions →
  update_names version value ex = Some ex2 →
  recorded server (pending_for version (default [] (iterate value))) ex →
  recorded server nothing ex2.
Proof.
  intros Hv Hu [Hc Hn]. unfold update_names in Hu.
  destruct (iterate value) as [names|]; [|done]. injection Hu as <-.
  split; [done|]. intros v x Hv'. unfold answered_names. cbn [sent].
  change (∃ i t q, sent ex !! i = Some (t, v, q) ∧ x ∈ names_of (server i))
    with (answered_names server v ex x).
  rewrite <- (Hn v x Hv'). unfold names_in, pending_for, nothing.
  cbn [v1_names v2_names v3_names default].
  assert (∀ (s : gset string), x ∈ s ∪ list_to_set names ∨ x ∈ [] ↔
                               x ∈ s ∨ x ∈ names) as Hadd.
  { intros s. rewrite elem_of_union, elem_of_list_to_set.
    split; [intros [?|?%elem_of_nil]; done|by left]. }
  assert (∀ (s : gset string), x ∈ s ∨ x ∈ [] ↔ x ∈ s ∨ x ∈ []) as Hsame
    by done.
  unfold versions in Hv, Hv'.
  repeat (apply elem_of_cons in Hv as [->|Hv]);
    repeat (apply elem_of_cons in Hv' as [->|Hv']);
    try (by apply elem_of_nil in Hv); try (by apply elem_of_nil in Hv');
    repeat (rewrite decide_True by done || rewrite decide_False by done);
    first [apply Hadd | done].
Qed.

Lemma keeps_return : keeps (Return tt).
Proof. by intros ex. Qed.

Lemma keeps_bind m1 m2 :
  keeps m1 → keeps m2 → keeps (λ ex, bind (m1 ex) (λ _, m2)).
Proof.
  intros H1 H2 ex Hex. specialize (H1 ex Hex).
  destruct (m1 ex) as [[] ex1|ex1]; simpl in *; [by apply H2|done].
Qed.

Lemma keeps_for_each {A} (xs : list A) body :
  (∀ x, keeps (body x)) → keeps (for_each xs body).
Proof.
  intros Hbody. induction xs as [|x xs IH]; [apply keeps_return|].
  change (keeps (λ ex, bind (body x ex) (λ _, for_each xs body))).
  by apply keeps_bind.
Qed.

Lemma keeps_request fuel version query :
  version ∈ versions → keeps (request_and_update server fuel version query).
Proof.
  intros Hv ex Hex. unfold request_and_update.
  pose proof (make_request_recorded fuel version query ex Hex Hv) as H.
  destruct (make_request server fuel version query ex) as [value ex'|ex'];
    cbn [bind state_of]; [|done].
  destruct (update_names version value ex') as [ex2|] eqn:Hu.
  - pose proof (recorded_update version value ex' ex2 Hv Hu H) as H2.
    unfold save_progress. destruct (names_set version ex2); [|done].
    by destruct (requests_count ex2 !! version).
  - unfold update_names in Hu. destruct (iterate value); [done|].
    by apply recorded_nothing in H.
Qed.

Lemma keeps_explore_v1 fuel : keeps (explore_v1 server fuel).
Proof.
  apply keeps_bind.
  - apply keeps_for_each. intros c. apply keeps_request. by left.
  - apply keeps_for_each. intros c1. apply keeps_for_each. intros c2.
    apply keeps_request. by left.
Qed.

Lemma keeps_explore_v2 fuel : keeps (explore_v2 server fuel).
Proof.
  apply keeps_bind.
  - apply keeps_for_each. intros c. apply keeps_request. right; by left.
  - apply keeps_for_each. intros c1. apply keeps_for_each. intros c2.
    apply keeps_request. right; by left.
Qed.

Lemma keeps_explore_v3 fuel : keeps (explore_v3 server fuel).
Proof.
  apply keeps_bind.
  - apply keeps_for_each. intros c. apply keeps_request. right; right; by left.
  - apply keeps_for_each. intros c1. apply keeps_for_each. intros c2.
    intros ex Hex. case_decide; [done|].
    apply keeps_request; [right; right; by left|done].
Qed.

Lemma recorded_init : recorded server nothing init.
Proof.
  split.
  - intros v. unfold init, requests_for. cbn [requests_count sent].
    unfold versions.
    destruct (decide (v = "v1")) as [->|H1]; [done|].
    destruct (decide (v = "v2")) as [->|H2]; [done|].
    destruct (decide (v = "v3")) as [->|H3]; [done|].
    rewrite !lookup_insert_ne by done. rewrite lookup_empty.
    rewrite bool_decide_eq_false_2; [done|].
    intros Hv. repeat (apply elem_of_cons in Hv as [?|Hv]; [done|]).
    by apply elem_of_nil in Hv.
  - intros v x Hv. split.
    + intros [Hx|Hx%elem_of_nil]; [|done]. unfold names_in in Hx. simpl in Hx.
      repeat case_decide; by apply elem_of_empty in Hx.
    + by intros (i & t & q & Hi & _).
Qed.

Lemma keeps_all fuel :
  keeps (λ ex,
    bind (explore_v1 server fuel ex) (λ _ ex1,
    bind (explore_v2 server fuel (sleep (seconds 5) ex1)) (λ _ ex2,
    explore_v3 server fuel (sleep (seconds 5) ex2)))).
Proof.
  intros ex Hex. pose proof (keeps_explore_v1 fuel ex Hex) as H1.
  destruct (explore_v1 server fuel ex) as [[] ex1|ex1]; simpl in *; [|done].
  pose proof (keeps_explore_v2 fuel _ (recorded_sleep _ (seconds 5) _ H1))
    as H2.
  destruct (explore_v2 server fuel _) as [[] ex2|ex2]; simpl in *; [|done].
  apply keeps_explore_v3. by apply recorded_sleep.
Qed.

Lemma explorations_recorded fuel version :
  recorded server nothing (state_of (explorations server fuel version)).
Proof.
  unfold explorations. repeat case_decide.
  - apply (keeps_all fuel init recorded_init).
  - apply keeps_explore_v1, recorded_init.
  - apply keeps_explore_v2, recorded_init.
  - apply keeps_explore_v3, recorded_init.
  - apply recorded_init.
Qed.

Lemma main_recorded fuel version :
  recorded server nothing (state_of (main server fuel version)).
Proof.
  unfold main. pose proof (explorations_recorded fuel version) as H.
  by destruct (explorations server fuel version) as [[] ex|ex].
Qed.

(** X12. However a run of [main] ends, [requests_count] holds, for each of
    the three versions, the number of requests that were sent for it,
    retries after 429 included, and it has no other key. *)
Theorem main_counts_every_request fuel version v :
  let ex := state_of (main server fuel version) in
  requests_count ex !! v
  = if bool_decide (v ∈ versions) then Some (requests_for v ex) else None.
Proof. intros ex. by destruct (main_recorded fuel version) as [H _]. Qed.

(** X13. However a run of [main] ends, the name set of each version holds
    exactly the names listed in the 200 answers to the requests sent for
    that version: nothing is lost, nothing comes from another version. *)
Theorem main_names_are_answers fuel version x :
  let ex := state_of (main server fuel version) in
  (x ∈ v1_names ex ↔ answered_names server "v1" ex x)
  ∧ (x ∈ v2_names ex ↔ answered_names server "v2" ex x)
  ∧ (x ∈ v3_names ex ↔ answered_names server "v3" ex x).
Proof.
  intros ex. destruct (main_recorded fuel version) as [_ H]. fold ex in H.
  assert (∀ v, v ∈ versions → x ∈ names_in v ex ↔ answered_names server v ex x)
    as H'.
  { intros v Hv. rewrite <- (H v x Hv). unfold nothing.
    split; [by left|]. by intros [?|?%elem_of_nil]. }
  split_and!.
  - apply (H' "v1"). by left.
  - apply (H' "v2"). right; by left.
  - apply (H' "v3"). right; right; by left.
Qed.

End Records.

Lemma ready_init : ready init.
Proof.
  intros v Hv. unfold versions in Hv.
  repeat (apply elem_of_cons in Hv as [->|Hv]; [by eexists|]).
  by apply elem_of_nil in Hv.
Qed.

Lemma returns_return : returns (Return tt).
Proof. intros ex Hex. by exists ex. Qed.

Lemma returns_bind m1 m2 :
  returns m1 → returns m2 → returns (λ ex, bind (m1 ex) (λ _, m2)).
Proof.
  intros H1 H2 ex Hex. destruct (H1 ex Hex) as (ex1 & Hm1 & Hex1).
  rewrite Hm1. by apply H2.
Qed.

Lemma returns_for_each {A} (xs : list A) body :
  (∀ x, returns (body x)) → returns (for_each xs body).
Proof.
  intros Hbody. induction xs as [|x xs IH]; [apply returns_return|].
  change (returns (λ ex, bind (body x ex) (λ _, for_each xs body))).
  by apply returns_bind.
Qed.

Section Returns.

Variable server : nat → reply.
Variable fuel : nat.

(** The recursion limit leaves room for a call of [make_request], and no
    answer holds under ["results"] a value that cannot be iterated. *)
Hypothesis room : 0 < fuel.
Hypothesis server_readable : readable server.

Lemma returns_request version query :
  version ∈ versions →
  returns (request_and_update server fuel version query).
Proof.
  intros Hv ex Hex. destruct (Hex version Hv) as [n Hn].
  destruct (make_request_run server fuel version query ex n Hn room)
    as (k & ex' & Hk & _ & _ & Hm & _ & Hrc & _).
  destruct (server_readable (length (sent ex) + k)) as [names Hnames].
  destruct (store_and_save version _ names ex' (n + S k) Hv Hnames)
    as (ex2 & ex3 & Hu & Hp & _ & Hrc3 & _).
  { rewrite Hrc. apply lookup_insert_eq. }
  unfold request_and_update. rewrite Hm. cbn [bind]. rewrite Hu, Hp.
  exists ex3. split; [done|]. intros v Hv'. rewrite Hrc3, Hrc.
  apply lookup_insert_is_Some'. right. by apply Hex.
Qed.

Lemma returns_explore_v1 : returns (explore_v1 server fuel).
Proof.
  apply returns_bind.
  - apply returns_for_each. intros c. apply returns_request. by left.
  - apply returns_for_each. intros c1. apply returns_for_each. intros c2.
    apply returns_request. by left.
Qed.

Lemma returns_explore_v2 : returns (explore_v2 server fuel).
Proof.
  apply returns_bind.
  - apply returns_for_each. intros c. apply returns_request. right; by left.
  - apply returns_for_each. intros c1. apply returns_for_each. intros c2.
    apply returns_request. right; by left.
Qed.

Lemma returns_explore_v3 : returns (explore_v3 server fuel).
Proof.
  apply returns_bind.
  - apply returns_for_each. intros c. apply returns_request.
    right; right; by left.
  - apply returns_for_each. intros c1. apply returns_for_each. intros c2.
    intros ex Hex. case_decide; [by exists ex|].
    apply returns_request; [right; right; by left|done].
Qed.


End Returns.

(** A body [{"results": null}] in the first answer ends [main] with the
    [TypeError] of [set.update], after one request and before any file is
    written. *)
Lemma main_raises_on_null :
  ∃ ex, main null_server 1 "v1" = Raise ex
        ∧ length (sent ex) = 1 ∧ files ex = ∅.
Proof. eexists. split; [by vm_compute|]. split; by vm_compute. Qed.


End ExplorerRecords.

(** ** The requests of the asynchronous explorer, in order *)
Module ExplorerPlan.
Import Extractor ExtractorProps ExplorerRecords.

(** *** Vocabulary of the statements *)

(** The queries of an exploration over [chars]: every character, then every
    pair of characters that [skip] lets through, in the order of [chars]. *)
Definition plan_over (chars : list ascii) (skip : ascii → ascii → bool)
    : list string :=
  (single <$> chars)
  ++ (chars ≫= λ first, chars ≫= λ second,
        if skip first second then [] else [pair first second]).

Definition plan_v1 : list string :=
  plan_over (chars_of ascii_lowercase) (λ _ _, false).
Definition plan_v2 : list string :=
  plan_over (chars_of (ascii_lowercase +:+ digits)) (λ _ _, false).
Definition plan_v3 : list string :=
  plan_over chars_v3
    (λ first second,
       bool_decide (first ∈ chars_of specials ∧ second ∈ chars_of specials)).

(** The versions and queries of a run of [main], in order. *)
Definition plan_of (version : string) : list (string * string) :=
  if decide (version = "all") then
    (("v1",.) <$> plan_v1) ++ (("v2",.) <$> plan_v2) ++ (("v3",.) <$> plan_v3)
  else if decide (version = "v1") then ("v1",.) <$> plan_v1
  else if decide (version = "v2") then ("v2",.) <$> plan_v2
  else if decide (version = "v3") then ("v3",.) <$> plan_v3
  else [].

(** The requests [new], the first of which is the [i]-th request sent,
    follow the plan: each entry of the plan is requested in turn, once more
    after each 429 answer and until an answer is not 429. *)
Inductive follows (server : nat → reply)
    : nat → list (string * string) → list (Z * string * string) → Prop :=
  | follows_nil i : follows server i [] []
  | follows_cons i v q plan blk rest k :
      length blk = S k →
      (∀ x, x ∈ blk → x.1.2 = v ∧ x.2 = q) →
      (∀ j, j < k → is_429 (server (i + j)) = true) →
      is_429 (server (i + k)) = false →
      follows server (i + S k) plan rest →
      follows server i ((v, q) :: plan) (blk ++ rest).

Definition runs_plan (server : nat → reply) (plan : list (string * string))
    (m : explorer → result unit) : Prop :=
  ∀ ex, ready ex →
    ∃ ex' new, m ex = Return tt ex' ∧ sent ex' = sent ex ++ new ∧ ready ex'
               ∧ follows server (length (sent ex)) plan new.

(** *** Lemmas and theorems *)

Lemma follows_app server i plan1 plan2 new1 new2 :
  follows server i plan1 new1 →
  follows server (i + length new1) plan2 new2 →
  follows server i (plan1 ++ plan2) (new1 ++ new2).
Proof.
  induction 1 as [i|i v q plan blk rest k Hlen Hblk Hstreak Hend Hrest IH];
    intros H2.
  - by rewrite Nat.add_0_r in H2.
  - rewrite <- !app_assoc. simpl. eapply follows_cons; try done.
    apply IH. rewrite length_app, Hlen in H2.
    by replace (i + S k + length rest) with (i + (S k + length rest)) by lia.
Qed.

Lemma follows_length server i plan new :
  follows server i plan new → length plan ≤ length new.
Proof.
  induction 1 as [|i v q plan blk rest k Hlen _ _ _ _ IH]; [done|].
  rewrite length_app. simpl. lia.
Qed.

Lemma follows_exact server i plan new :
  (∀ j, is_429 (server j) = false) →
  follows server i plan new → (λ x, (x.1.2, x.2)) <$> new = plan.
Proof.
  intros Hnever.
  induction 1 as [|i v q plan blk rest k Hlen Hblk Hstreak Hend _ IH]; [done|].
  destruct k as [|k].
  2:{ specialize (Hstreak 0 ltac:(lia)). by rewrite Hnever in Hstreak. }
  destruct blk as [|x [|? ?]]; try done.
  destruct (Hblk x) as [Hv Hq]; [left|]. csimpl. by rewrite Hv, Hq, IH.
Qed.

Section Plan.

Variable server : nat → reply.
Variable fuel : nat.
Hypothesis server_patient : patient server fuel.
Hypothesis server_readable : readable server.

Lemma plan_nil : runs_plan server [] (Return tt).
Proof.
  intros ex Hex. exists ex, []. split_and!; [done|by rewrite app_nil_r|done|].
  constructor.
Qed.

Lemma plan_bind plan1 plan2 m1 m2 :
  runs_plan server plan1 m1 → runs_plan server plan2 m2 →
  runs_plan server (plan1 ++ plan2) (λ ex, bind (m1 ex) (λ _, m2)).
Proof.
  intros H1 H2 ex Hex.
  destruct (H1 ex Hex) as (ex1 & new1 & Hm1 & Hs1 & Hr1 & Hf1).
  destruct (H2 ex1 Hr1) as (ex2 & new2 & Hm2 & Hs2 & Hr2 & Hf2).
  exists ex2, (new1 ++ new2). rewrite Hm1. simpl. split_and!; [done| |done|].
  - by rewrite Hs2, Hs1, app_assoc.
  - apply follows_app; [done|]. by rewrite Hs1, length_app in Hf2.
Qed.

Lemma plan_for_each {A} (f : A → list (string * string)) xs body :
  (∀ x, runs_plan server (f x) (body x)) →
  runs_plan server (xs ≫= f) (for_each xs body).
Proof.
  intros Hbody. induction xs as [|x xs IH]; [apply plan_nil|].
  change (runs_plan server (f x ++ (xs ≫= f))
            (λ ex, bind (body x ex) (λ _, for_each xs body))).
  by apply plan_bind.
Qed.

Lemma plan_request version query :
  version ∈ versions →
  runs_plan server [(version, query)]
    (request_and_update server fuel version query).
Proof.
  intros Hv ex Hex. destruct (Hex version Hv) as [n Hn].
  destruct (first_non_429 server (length (sent ex)) fuel (server_patient _))
    as (k & Hk & Hstreak & Hend).
  destruct (make_request_returns server fuel version query ex n k
              Hn Hk Hstreak Hend)
    as (ex' & new & Hm & Hs & Hlen & Hall & Hrc & _).
  destruct (server_readable (length (sent ex) + k)) as [names Hnames].
  destruct (store_and_save version _ names ex' (n + S k) Hv Hnames)
    as (ex2 & ex3 & Hu & Hp & Hs3 & Hrc3 & _).
  { rewrite Hrc. apply lookup_insert_eq. }
  unfold request_and_update. rewrite Hm. cbn [bind]. rewrite Hu, Hp.
  exists ex3, new. split_and!; [done|by rewrite Hs3| |].
  - intros v Hv'. rewrite Hrc3, Hrc. apply lookup_insert_is_Some'.
    right. by apply Hex.
  - rewrite <- (app_nil_r new). eapply follows_cons; try done. constructor.
Qed.

Lemma fmap_bind_singleton {A B} (f : A → B) (l : list A) :
  f <$> l = l ≫= λ x, [f x].
Proof. induction l as [|x l IH]; [done|]. by rewrite fmap_cons, bind_cons, IH. Qed.

Lemma fmap_bind {A B C} (g : B → C) (f : A → list B) (l : list A) :
  g <$> (l ≫= f) = l ≫= λ x, g <$> f x.
Proof.
  induction l as [|x l IH]; [done|]. by rewrite !bind_cons, fmap_app, IH.
Qed.

Lemma plan_explore version chars (skip : ascii → ascii → bool)
    (body : ascii → ascii → explorer → result unit) :
  version ∈ versions →
  (∀ first second,
     runs_plan server
       (if skip first second then [] else [(version, pair first second)])
       (body first second)) →
  runs_plan server ((version,.) <$> plan_over chars skip)
    (λ ex, bind (for_each chars
                   (λ c, request_and_update server fuel version (single c)) ex)
             (λ _, for_each chars (λ first, for_each chars (body first)))).
Proof.
  intros Hv Hbody. unfold plan_over. rewrite fmap_app.
  apply plan_bind.
  - rewrite <- list_fmap_compose, fmap_bind_singleton.
    apply plan_for_each. intros c. by apply plan_request.
  - rewrite fmap_bind. apply plan_for_each. intros first.
    rewrite fmap_bind. apply plan_for_each. intros second.
    specialize (Hbody first second). by destruct (skip first second).
Qed.

Lemma plan_explore_v1 :
  runs_plan server (("v1",.) <$> plan_v1) (explore_v1 server fuel).
Proof.
  apply (plan_explore "v1" _ (λ _ _, false)
           (λ first second,
              request_and_update server fuel "v1" (pair first second))).
  - by left.
  - intros first second. apply plan_request. by left.
Qed.

Lemma plan_explore_v2 :
  runs_plan server (("v2",.) <$> plan_v2) (explore_v2 server fuel).
Proof.
  apply (plan_explore "v2" _ (λ _ _, false)
           (λ first second,
              request_and_update server fuel "v2" (pair first second))).
  - right; by left.
  - intros first second. apply plan_request. right; by left.
Qed.

Lemma plan_explore_v3 :
  runs_plan server (("v3",.) <$> plan_v3) (explore_v3 server fuel).
Proof.
  apply (plan_explore "v3" chars_v3
           (λ first second,
              bool_decide (first ∈ chars_of specials
                           ∧ second ∈ chars_of specials))
           (λ first second ex',
              if decide (first ∈ chars_of specials ∧
                         second ∈ chars_of specials)
              then Return tt ex'
              else request_and_update server fuel "v3" (pair first second) ex')).
  - right; right; by left.
  - intros first second. case_decide as Hd.
    + rewrite bool_decide_eq_true_2 by done. apply plan_nil.
    + rewrite bool_decide_eq_false_2 by done.
      apply plan_request. right; right; by left.
Qed.


End Plan.


(** The sizes of the plans. *)
Lemma plan_sizes :
  length plan_v1 = 702 ∧ length plan_v2 = 1332 ∧ length plan_v3 = 1624.
Proof. split_and!; by vm_compute. Qed.

Section Isolation.

Variable server : nat → reply.

Lemma only_explore version chars (skip : ascii → ascii → bool)
    (body : ascii → ascii → explorer → result unit) fuel :
  (∀ first second,
     only_queries version
       (if skip first second then [] else [pair first second])
       (body first second)) →
  only_queries version
    ((chars ≫= λ c, [single c])
     ++ (chars ≫= λ first, chars ≫= λ second,
           if skip first second then [] else [pair first second]))
    (λ ex, bind (for_each chars
                   (λ c, request_and_update server fuel version (single c)) ex)
             (λ _, for_each chars (λ first, for_each chars (body first)))).
Proof.
  intros Hbody. apply only_bind.
  - apply only_for_each. intros c _. apply only_request.
  - apply only_for_each. intros first _.
    apply only_for_each. intros second _. apply Hbody.
Qed.

Lemma only_version version fuel :
  version ∈ versions →
  ∃ new, sent (state_of (main server fuel version)) = new
         ∧ ∀ x, x ∈ new → x.1.2 = version.
Proof.
  intros Hv.
  assert (sent (state_of (main server fuel version))
          = sent (state_of (explorations server fuel version))) as ->.
  { unfold main. by destruct (explorations server fuel version) as [[] ex|ex]. }
  unfold explorations, versions in *.
  assert (∀ qs m, only_queries version qs m →
            ∃ new, sent (state_of (m init)) = new
                   ∧ ∀ x, x ∈ new → x.1.2 = version) as Hfrom.
  { intros qs m Hm. destruct (Hm init) as (new & Hs & Hall).
    exists new. split; [done|]. intros x Hx. by destruct (Hall x Hx). }
  repeat (apply elem_of_cons in Hv as [->|Hv]);
    [| | |by apply elem_of_nil in Hv];
    repeat (rewrite decide_True by done || rewrite decide_False by done);
    eapply Hfrom.
  - apply (only_explore "v1" _ (λ _ _, false)
             (λ first second,
                request_and_update server fuel "v1" (pair first second))).
    intros first second. apply only_request.
  - apply (only_explore "v2" _ (λ _ _, false)
             (λ first second,
                request_and_update server fuel "v2" (pair first second))).
    intros first second. apply only_request.
  - apply (only_explore "v3" _
             (λ first second,
                bool_decide (first ∈ chars_of specials
                             ∧ second ∈ chars_of specials))
             (λ first second ex',
                if decide (first ∈ chars_of specials ∧
                           second ∈ chars_of specials)
                then Return tt ex'
                else request_and_update server fuel "v3"
                       (pair first second) ex')).
    intros first second. case_decide as Hd.
    + rewrite bool_decide_eq_true_2 by done. apply only_nil.
    + rewrite bool_decide_eq_false_2 by done. apply only_request.
Qed.

(** X18. A run of [main] for one version sends requests for that version
    only; whatever the endpoint answers and however the run ends, the
    counters of the other two versions stay 0 and their name sets stay
    empty. *)
Theorem main_explores_only_the_version_asked fuel version :
  version ∈ versions →
  let ex := state_of (main server fuel version) in
  (∀ x, x ∈ sent ex → x.1.2 = version)
  ∧ ∀ v, v ∈ versions → v ≠ version →
      requests_count ex !! v = Some 0 ∧ names_in v ex = ∅.
Proof.
  intros Hv ex.
  destruct (only_version version fuel Hv) as (new & Hs & Hall).
  fold ex in Hs. rewrite <- Hs in Hall. split; [done|].
  intros v Hv' Hne.
  destruct (main_recorded server fuel version) as [Hcount Hnames].
  fold ex in Hcount, Hnames. split.
  - rewrite Hcount, bool_decide_eq_true_2 by done. f_equal.
    unfold requests_for. apply length_zero_iff_nil.
    apply RateProps.filter_none, Forall_forall. intros x Hx Hxv.
    apply Hne. by rewrite <- Hxv, (Hall x Hx).
  - apply elem_of_equiv_empty_L. intros x Hx.
    destruct (proj1 (Hnames v x Hv') (or_introl Hx)) as (i & t & q & Hi & _).
    apply list_elem_of_lookup_2 in Hi. apply Hall in Hi. by apply Hne.
Qed.

End Isolation.

Lemma main_explores_only_the_version_asked_witness :
  "v1" ∈ versions
  ∧ requests_count (state_of (main broken_server 1 "v1")) !! "v2" = Some 0.
Proof.
  assert ("v1" ∈ versions) as Hv by left.
  assert ("v2" ∈ versions) as Hv2 by (right; left).
  assert ("v2" ≠ "v1") as Hne by done.
  split; [exact Hv|].
  exact (proj1 (proj2 (main_explores_only_the_version_asked broken_server 1
                         "v1" Hv) "v2" Hv2 Hne)).
Defined.

End ExplorerPlan.

(** ** Properties of the files written *)
Module FilesProps.
Import Files.

Lemma ascii_compare_lt a b : Ascii.compare a b = Lt ↔ (N_of_ascii a < N_of_ascii b)%N.
Proof. unfold Ascii.compare. apply N.compare_lt_iff. Qed.

Lemma ascii_compare_eq a b : Ascii.compare a b = Eq ↔ a = b.
Proof.
  split; [apply Ascii.compare_eq_iff|]. intros ->. unfold Ascii.compare.
  apply N.compare_refl.
Qed.

Lemma string_compare_refl s : String.compare s s = Eq.
Proof.
  induction s as [|c s IH]; [done|]. simpl.
  by rewrite (proj2 (ascii_compare_eq c c)).
Qed.

(** [Lt] or [Eq], through three strings. *)
Lemma string_compare_trans s1 : ∀ s2 s3,
  String.compare s1 s2 ≠ Gt → String.compare s2 s3 ≠ Gt →
  String.compare s1 s3 ≠ Gt.
Proof.
  induction s1 as [|c1 s1 IH]; intros [|c2 s2] [|c3 s3]; simpl; try done.
  destruct (Ascii.compare c1 c2) eqn:H12; [|clear IH|done].
  - apply ascii_compare_eq in H12 as ->.
    destruct (Ascii.compare c2 c3) eqn:H23; [apply IH|done..].
  - intros _. pose proof (proj1 (ascii_compare_lt _ _) H12) as Hlt12.
    destruct (Ascii.compare c2 c3) eqn:H23; [| |done].
    + apply ascii_compare_eq in H23 as ->. intros _. by rewrite H12.
    + pose proof (proj1 (ascii_compare_lt _ _) H23) as Hlt23. intros _.
      rewrite (proj2 (ascii_compare_lt c1 c3)); [done|lia].
Qed.

Lemma str_le_compare s1 s2 : str_le s1 s2 ↔ String.compare s1 s2 ≠ Gt.
Proof. unfold str_le, String.leb. by destruct (String.compare s1 s2). Qed.

#[global] Instance str_le_trans : Transitive str_le.
Proof.
  intros s1 s2 s3. rewrite !str_le_compare. apply string_compare_trans.
Qed.

#[global] Instance str_le_total : Total str_le.
Proof. intros s1 s2. apply String.leb_total. Qed.

#[global] Instance str_le_antisym : AntiSymm (=) str_le.
Proof. intros s1 s2. apply String.leb_antisym. Qed.

#[global] Instance line_inj : Inj (=) (=) line.
Proof.
  intros s1. unfold line. induction s1 as [|c s1 IH]; intros [|d s2]; simpl.
  - done.
  - intros [= <- H]. by destruct s2.
  - intros [= -> H]. by destruct s1.
  - intros [= -> H]. f_equal. by apply IH.
Qed.

Lemma sorted_props names :
  StronglySorted str_le (sorted names) ∧ NoDup (sorted names)
  ∧ (∀ x, x ∈ sorted names ↔ x ∈ names)
  ∧ length (sorted names) = size names.
Proof.
  unfold sorted.
  pose proof (merge_sort_Permutation str_le (elements names)) as Hp.
  split_and!.
  - apply StronglySorted_merge_sort; apply _.
  - rewrite Hp. apply NoDup_elements.
  - intros x. by rewrite Hp, elem_of_elements.
  - by rewrite Hp.
Qed.

(** X16. [sorted] on a set of names gives the one list that holds every
    name of the set once and is in ascending order; so the checkpoint and
    the result file of app.py hold one line for each name found, no name
    twice, in ascending order. *)
Theorem sorted_is_the_ascending_list names l :
  (l = Files.sorted names ↔
   StronglySorted str_le l ∧ NoDup l ∧ ∀ x, x ∈ l ↔ x ∈ names)
  ∧ save_checkpoint names = line <$> Files.sorted names
  ∧ NoDup (save_checkpoint names)
  ∧ length (save_checkpoint names) = size names.
Proof.
  destruct (sorted_props names) as (Hs & Hnd & Hin & Hlen).
  split_and!.
  - split; [by intros ->|]. intros (Hs' & Hnd' & Hin').
    apply (StronglySorted_unique str_le); [done..|].
    apply NoDup_Permutation; [done..|]. intros x. by rewrite Hin, Hin'.
  - done.
  - unfold save_checkpoint. apply NoDup_fmap_2; [apply line_inj|done].
  - unfold save_checkpoint. by rewrite length_fmap.
Qed.

(** X17. The file of [write_all_names_to_file] has six header strings and
    then one line for each name of the three sets together, no name twice,
    in ascending order; the total of the header is the number of these
    lines, at most the sum of the three counts of the header and at least
    each of them. *)
Theorem write_all_names_consistent ex :
  let out := Extractor.write_all_names_to_file ex in
  let all_names := Extractor.v1_names ex ∪ Extractor.v2_names ex
                   ∪ Extractor.v3_names ex in
  drop 6 out = line <$> Files.sorted all_names
  ∧ out !! 1 = Some (line ("Total unique names found: "
                           +:+ pretty (length (drop 6 out))))
  ∧ NoDup (drop 6 out)
  ∧ (∀ x, line x ∈ drop 6 out ↔
          x ∈ Extractor.v1_names ex ∨ x ∈ Extractor.v2_names ex
          ∨ x ∈ Extractor.v3_names ex)
  ∧ length (drop 6 out)
      ≤ size (Extractor.v1_names ex) + size (Extractor.v2_names ex)
        + size (Extractor.v3_names ex)
  ∧ size (Extractor.v1_names ex) ≤ length (drop 6 out)
  ∧ size (Extractor.v2_names ex) ≤ length (drop 6 out)
  ∧ size (Extractor.v3_names ex) ≤ length (drop 6 out).
Proof.
  intros out all_names.
  destruct (sorted_props all_names) as (Hs & Hnd & Hin & Hlen).
  assert (drop 6 out = line <$> Files.sorted all_names) as Hd by done.
  rewrite Hd, length_fmap, Hlen.
  split_and!.
  - done.
  - unfold out, Extractor.write_all_names_to_file.
    cbn [lookup list_lookup app].
    fold all_names. by rewrite Hlen.
  - apply NoDup_fmap_2; [apply line_inj|done].
  - intros x. rewrite (list_elem_of_fmap_inj line), Hin.
    unfold all_names. rewrite !elem_of_union. tauto.
  - unfold all_names. rewrite !size_union_alt.
    pose proof (subseteq_size (Extractor.v2_names ex ∖ Extractor.v1_names ex)
                  (Extractor.v2_names ex)) as H2.
    pose proof (subseteq_size
                  (Extractor.v3_names ex
                   ∖ (Extractor.v1_names ex ∪ Extractor.v2_names ex))
                  (Extractor.v3_names ex)) as H3.
    assert (∀ X Y : gset string, X ∖ Y ⊆ X) as Hsub.
    { by intros X Y x [? _]%elem_of_difference. }
    specialize (H2 (Hsub _ _)). specialize (H3 (Hsub _ _)). lia.
  - apply subseteq_size. intros x Hx. unfold all_names.
    rewrite !elem_of_union. tauto.
  - apply subseteq_size. intros x Hx. unfold all_names.
    rewrite !elem_of_union. tauto.
  - apply subseteq_size. intros x Hx. unfold all_names.
    rewrite !elem_of_union. tauto.
Qed.

End FilesProps.
